(** * AMReX: MLABecLaplacian and the HYPRE node-Laplacian bridge

    A shallow embedding of
    - [Src/Extern/HYPRE/AMReX_HypreNodeLap.cpp]: global node numbering, matrix
      assembly, vector load and solve of the distributed assembler;
    - the [MLABecLaplacian] operator: coefficient setters, restriction, Robin
      boundary folding, singularity detection and smoother selection.

    [Real] is modelled by the exact rationals [Qc]; [int], [Int] (HYPRE_Int)
    and [Long] are integers with their two's-complement wrap-around written
    out; a [Vector] is a list whose out-of-range access is an explicit
    [OutOfBounds] outcome; an [Array4] is a total function on cell indices. *)

From Stdlib Require Import ZArith QArith Qcanon Lia FunctionalExtensionality.
From stdpp Require Import base numbers list option strings functions.

Open Scope Z_scope.

(** ** Outcomes of fallible code *)

Inductive Result (A : Type) : Type :=
| Ok (a : A)
| Abort (msg : string)
| OutOfBounds.
Arguments Ok {A} a.
Arguments Abort {A} msg.
Arguments OutOfBounds {A}.

#[global] Instance Result_ret : MRet Result := @Ok.
#[global] Instance Result_bind : MBind Result := λ A B f m,
  match m with
  | Ok a => f a
  | Abort msg => Abort msg
  | OutOfBounds => OutOfBounds
  end.

(** [v[i]] on a [Vector]: defined only inside the vector. *)
Definition at_index {A} (v : list A) (i : Z) : Result A :=
  if bool_decide (0 ≤ i) then from_option Ok OutOfBounds (v !! Z.to_nat i)
  else OutOfBounds.

(** [AMREX_ALWAYS_ASSERT_WITH_MESSAGE]. *)
Definition always_assert (c : bool) (msg : string) : Result () :=
  if c then Ok () else Abort msg.

(** ** Reals *)

Abbreviation Real := Qc.

Definition Real_of (n : Z) (d : positive) : Real := Q2Qc (Qmake n d).

Definition Rabs (r : Real) : Real := if bool_decide (r < 0)%Qc then (- r)%Qc else r.
Definition Rmax (a b : Real) : Real := if bool_decide (a ≤ b)%Qc then b else a.

(** ** Machine integers *)

Definition wrap (bits : Z) (v : Z) : Z :=
  (v + 2 ^ (bits - 1)) mod 2 ^ bits - 2 ^ (bits - 1).

Definition int_max : Z := 2 ^ 31 - 1.
Definition int_add (a b : Z) : Z := wrap 32 (a + b).

(** ** Index space: [Dim3], [Box] and the loops over a box *)

Abbreviation Dim3 := (Z * Z * Z)%type.

Record Box := MkBox { smallEnd : Dim3; bigEnd : Dim3 }.

Definition range (lo hi : Z) : list Z := seqZ lo (hi - lo + 1).

(** [for (int i = lo; i <= hi; ++i) body] *)
Definition for_range {St} (lo hi : Z) (body : Z → St → St) (s : St) : St :=
  foldl (λ s i, body i s) s (range lo hi).

(** The loop nest [for k … for j … for i …] over [lbound(bx) .. ubound(bx)]. *)
Definition for_3d {St} (bx : Box) (body : Z → Z → Z → St → St) (s : St) : St :=
  let '(lox, loy, loz) := smallEnd bx in
  let '(hix, hiy, hiz) := bigEnd bx in
  for_range loz hiz (λ k,
    for_range loy hiy (λ j,
      for_range lox hix (λ i, body i j k))) s.

(** The cells of a box in the order the loop nest visits them (x fastest). *)
Definition cells (bx : Box) : list Dim3 :=
  let '(lox, loy, loz) := smallEnd bx in
  let '(hix, hiy, hiz) := bigEnd bx in
  k ← range loz hiz; j ← range loy hiy; i ← range lox hix; [(i, j, k)].

Definition contains_cell (bx : Box) (c : Dim3) : bool :=
  let '(lox, loy, loz) := smallEnd bx in
  let '(hix, hiy, hiz) := bigEnd bx in
  let '(i, j, k) := c in
  bool_decide (lox ≤ i ≤ hix) && bool_decide (loy ≤ j ≤ hiy)
  && bool_decide (loz ≤ k ≤ hiz).

(** [Box::numPts]. *)
Definition numPts (bx : Box) : Z :=
  let '(lox, loy, loz) := smallEnd bx in
  let '(hix, hiy, hiz) := bigEnd bx in
  Z.max 0 (hix - lox + 1) * Z.max 0 (hiy - loy + 1) * Z.max 0 (hiz - loz + 1).

(** [amrex::grow(bx, n)] in a [dim]-dimensional build. *)
Definition grow (dim : Z) (bx : Box) (n : Z) : Box :=
  let '(lox, loy, loz) := smallEnd bx in
  let '(hix, hiy, hiz) := bigEnd bx in
  let g d := if bool_decide (d < dim) then n else 0 in
  MkBox (lox - g 0, loy - g 1, loz - g 2) (hix + g 0, hiy + g 1, hiz + g 2).

(** Loops whose body can fail. *)
Fixpoint foldM {A St} (body : A → St → Result St) (l : list A) (s : St) : Result St :=
  match l with
  | [] => Ok s
  | a :: l => s' ← body a s; foldM body l s'
  end.

Definition for_range_R {St} (lo hi : Z) (body : Z → St → Result St) (s : St) : Result St :=
  foldM body (range lo hi) s.

(** * The distributed assembler: [HypreNodeLap] *)

Module HypreNodeLap.

(** The preprocessor configuration and the width of HYPRE's index type:
    [sizeof_Int] is 4, or 8 when HYPRE is configured with --enable-bigint. *)
Record BuildConfig := MkBuildConfig {
  AMREX_SPACEDIM : Z;
  AMREX_DEBUG : bool;
  AMREX_TESTING : bool;
  AMREX_USE_EB : bool;
  sizeof_Int : Z;
  sizeof_Long : Z;
}.

Definition Int_bits (cfg : BuildConfig) : Z := 8 * sizeof_Int cfg.
Definition Long_bits (cfg : BuildConfig) : Z := 8 * sizeof_Long cfg.
(** [std::numeric_limits<Int>::max()] and [::lowest()]. *)
Definition Int_max (cfg : BuildConfig) : Z := 2 ^ (Int_bits cfg - 1) - 1.
Definition Int_lowest (cfg : BuildConfig) : Z := - 2 ^ (Int_bits cfg - 1).
Definition Int_add (cfg : BuildConfig) (a b : Z) : Z := wrap (Int_bits cfg) (a + b).

(** One local patch as the constructor sees it through an [MFIter]: the
    nodal valid box and the arrays of the masks on it. *)
Record Patch := MkPatch {
  ndbx : Box;                (* mfi.validbox() of node_id *)
  owner : Dim3 → Z;          (* owner_mask->array(mfi) *)
  dirichlet : Dim3 → Z;      (* dirichlet_mask->array(mfi) *)
  flag_isCovered : Dim3 → bool;   (* flags.array(mfi)(i,j,k).isCovered() *)
}.

(** A nodal [MultiFab] on the assembler's grids: one array per local patch. *)
Record MultiFab := MkMultiFab {
  nGrow : Z;
  fab : nat → Dim3 → Real;
}.

Definition setVal (v : Real) (mf : MultiFab) : MultiFab :=
  {| nGrow := nGrow mf; fab := λ _ _, v |}.

(** What [fillIJMatrix] appends for one patch. *)
Record IJRows := MkIJRows {
  ncols : list Z;
  rows : list Z;
  cols : list Z;
  mat : list Real;
}.

(** The stencil provider. *)
Record MLNodeLinOp := MkLinOp {
  fillIJMatrix : nat → Patch → (Dim3 → Z) → IJRows;
  isBottomSingular : bool;
}.

(** The external solver's handles are opaque: a handle is modelled by the
    calls it has received, [HYPRE_IJMatrixSetValues] for the matrix and
    [HYPRE_IJVectorSetValues] for a vector, with the arrays passed. *)
Record MatrixValues := MkMatrixValues {
  mv_nrows : Z;
  mv_ncols : list Z;
  mv_rows : list Z;
  mv_cols : list Z;
  mv_values : list Real;
}.

Record VectorValues := MkVectorValues {
  vv_nvalues : Z;
  vv_indices : list Z;
  vv_values : list Real;
}.

(** The assembler's state on one process. *)
Record HypreNodeLap := MkHypreNodeLap {
  grids : list Patch;
  nnodes_grid : list Z;
  node_id : list (Dim3 → Z);
  node_id_vec : list (list Z);
  adjustSingularMatrix : bool;
  ilower : Z;
  iupper : Z;
  A : list MatrixValues;
  b : list VectorValues;
  x : list VectorValues;
}.

(** The state with new contents of the two vector handles. *)
Definition with_vectors (st : HypreNodeLap) (b' x' : list VectorValues) : HypreNodeLap :=
  {| grids := grids st;
     nnodes_grid := nnodes_grid st;
     node_id := node_id st;
     node_id_vec := node_id_vec st;
     adjustSingularMatrix := adjustSingularMatrix st;
     ilower := ilower st;
     iupper := iupper st;
     A := A st; b := b'; x := x' |}.

(** The outcome of the numbering phase of the constructor. *)
Record Numbering := MkNumbering {
  num_nnodes_grid : list Z;
  num_node_id : list (Dim3 → Z);
  num_offset : list Z;
  proc_begin : Z;
  proc_end : Z;
  nnodes_total : Z;
}.

Section Numbering.
Context (cfg : BuildConfig).

(** Lines 83-96: the node is surrounded by covered cells only. *)
Definition all_covered (flag : Dim3 → bool) (i j k : Z) : bool :=
  if bool_decide (AMREX_SPACEDIM cfg = 2) then
    flag (i-1, j-1, k) && flag (i, j-1, k) && flag (i-1, j, k) && flag (i, j, k)
  else
    flag (i-1, j-1, k-1) && flag (i, j-1, k-1) && flag (i-1, j, k-1)
    && flag (i, j, k-1) && flag (i-1, j-1, k) && flag (i, j-1, k)
    && flag (i-1, j, k) && flag (i, j, k).

(** Lines 72-108: local numbering of one patch with an EB factory. *)
Definition number_patch_eb (p : Patch) (nid0 : Dim3 → Z) : (Dim3 → Z) * Z :=
  for_3d (ndbx p) (λ i j k '(nid, id),
    if bool_decide (owner p (i, j, k) = 0) || bool_decide (dirichlet p (i, j, k) ≠ 0)
    then (<[(i, j, k) := Int_lowest cfg]> nid, id)
    else if all_covered (flag_isCovered p) i j k
    then (<[(i, j, k) := Int_lowest cfg]> nid, id)
    else (<[(i, j, k) := id]> nid, int_add id 1))
  (nid0, 0).

(** Lines 124-141: local numbering of one patch without EB. *)
Definition number_patch (p : Patch) (nid0 : Dim3 → Z) : (Dim3 → Z) * Z :=
  for_3d (ndbx p) (λ i j k '(nid, id),
    if bool_decide (owner p (i, j, k) = 0) || bool_decide (dirichlet p (i, j, k) ≠ 0)
    then (<[(i, j, k) := Int_lowest cfg]> nid, id)
    else (<[(i, j, k) := id]> nid, int_add id 1))
  (nid0, 0).

(** Lines 53-144: [node_id.setVal(lowest)], then every local patch is
    numbered from zero; [ebfactory] tells whether the dynamic cast of the
    factory succeeded. *)
Definition count_nodes (ebfactory : bool) (ps : list Patch) : list ((Dim3 → Z) * Z) :=
  (λ p, if AMREX_USE_EB cfg && ebfactory
        then number_patch_eb p (λ _, Int_lowest cfg)
        else number_patch p (λ _, Int_lowest cfg)) <$> ps.

(** [acc += n] over a vector of [Int]. *)
Definition sum_Int (init : Z) (l : list Z) : Z := foldl (Int_add cfg) init l.

Definition nnodes_proc_of (ebfactory : bool) (ps : list Patch) : Z :=
  sum_Int 0 (snd <$> count_nodes ebfactory ps).

(** Lines 146-149: every process contributes its [nnodes_proc]. *)
Definition MPI_Allgather (ebfactory : bool) (world : list (list Patch)) : list Z :=
  nnodes_proc_of ebfactory <$> world.

(** Lines 162-168: the running offset of each patch and the final [proc_end]. *)
Fixpoint offsets (proc_end : Z) (nnodes_grid : list Z) : list Z * Z :=
  match nnodes_grid with
  | [] => ([], proc_end)
  | n :: ns =>
      let '(os, e) := offsets (Int_add cfg proc_end n) ns in (proc_end :: os, e)
  end.

(** Lines 267-284, one patch: the parallel loop over the grown box. *)
Definition fill_node_id_fab (os : Z) (p : Patch) (nid : Dim3 → Z) : Dim3 → Z :=
  λ c, if contains_cell (grow (AMREX_SPACEDIM cfg) (ndbx p) 1) c
       then (if bool_decide (nid c >= 0) then Int_add cfg (nid c) os else -1)
       else nid c.

Definition fill_node_id (ps : list Patch) (node_id : list (Dim3 → Z))
    (offset : list Z) : list (Dim3 → Z) :=
  zip_with (λ '(os, p) nid, fill_node_id_fab os p nid) (zip offset ps) node_id.

(** Lines 47-176 on process [myid] of [world]. *)
Definition number_nodes (ebfactory : bool) (world : list (list Patch)) (myid : nat)
    : Result Numbering :=
  let ps := world !!! myid in
  let numbered := count_nodes ebfactory ps in
  let nnodes_grid := snd <$> numbered in
  let nnodes_proc := sum_Int 0 nnodes_grid in
  let nnodes_allprocs := MPI_Allgather ebfactory world in
  let proc_begin := sum_Int 0 (take myid nnodes_allprocs) in
  let nnodes_total := sum_Int 0 nnodes_allprocs in
  let '(offset, proc_end) := offsets proc_begin nnodes_grid in
  _ ← always_assert (bool_decide (proc_end = Int_add cfg proc_begin nnodes_proc))
        "HypreNodeLap: how did this happen?";
  Ok {| num_nnodes_grid := nnodes_grid;
        num_node_id := fill_node_id ps (fst <$> numbered) offset;
        num_offset := offset;
        proc_begin := proc_begin;
        proc_end := proc_end;
        nnodes_total := nnodes_total |}.

(** Lines 39-45: the index-width check; [nba.numPts()] is a [Long]. *)
Definition nba_numPts (world : list (list Patch)) : Z :=
  wrap (Long_bits cfg) (foldr Z.add 0 ((numPts ∘ ndbx) <$> mjoin world)).

Definition check_index_width (world : list (list Patch)) : Result () :=
  if (AMREX_DEBUG cfg || AMREX_TESTING cfg)
     && bool_decide (sizeof_Int cfg < sizeof_Long cfg)
  then always_assert (bool_decide (nba_numPts world < Int_max cfg))
         "You might need to configure Hypre with --enable-bigint"
  else Ok ().

(** The nodes the numbering keeps: owned by the process, not Dirichlet and,
    with cut-cell geometry, not surrounded by covered cells only. *)
Definition retained (ebfactory : bool) (p : Patch) (c : Dim3) : bool :=
  let '(i, j, k) := c in
  negb (bool_decide (owner p c = 0) || bool_decide (dirichlet p c ≠ 0))
  && negb (AMREX_USE_EB cfg && ebfactory && all_covered (flag_isCovered p) i j k).

Definition retained_cells (ebfactory : bool) (p : Patch) : list Dim3 :=
  filter (λ c, retained ebfactory p c = true) (cells (ndbx p)).

Definition retained_count (ebfactory : bool) (p : Patch) : Z :=
  Z.of_nat (length (retained_cells ebfactory p)).

Definition sumZ (l : list Z) : Z := foldr Z.add 0 l.

Definition proc_count (ebfactory : bool) (ps : list Patch) : Z :=
  sumZ (retained_count ebfactory <$> ps).

Definition total_count (ebfactory : bool) (world : list (list Patch)) : Z :=
  sumZ (proc_count ebfactory <$> world).

(** The id that process [r] holds at node [c] of its [i]-th patch, and the
    retained nodes of the whole machine as (rank, patch, node) triples. *)
Definition node_id_at (ebfactory : bool) (world : list (list Patch))
    (r i : nat) (c : Dim3) : Z :=
  match number_nodes ebfactory world r with
  | Ok num => from_option (λ nid, nid c) (Int_lowest cfg) (num_node_id num !! i)
  | _ => Int_lowest cfg
  end.

Definition positions (ebfactory : bool) (world : list (list Patch))
    : list (nat * nat * Dim3) :=
  mjoin (imap (λ r ps,
    mjoin (imap (λ i p, (λ c, (r, i, c)) <$> retained_cells ebfactory p) ps)) world).

(** One step of either numbering loop, with the skipped nodes as a predicate. *)
Definition number_step (skip : Dim3 → bool) (s : (Dim3 → Z) * Z) (c : Dim3)
    : (Dim3 → Z) * Z :=
  let '(nid, id) := s in
  if skip c then (<[c := Int_lowest cfg]> nid, id)
  else (<[c := id]> nid, int_add id 1).

End Numbering.

Section Assembler.
Context (cfg : BuildConfig).
(** [amrex::OverrideSync] followed by [FillBoundary] (lines 178-179): the
    collective exchange of the ids of shared and ghost nodes. *)
Context (exchange_node_id : list (Dim3 → Z) → list (Dim3 → Z)).
Context (linop : MLNodeLinOp).
(** The external solver: vector initialisation and assembly, the solve
    itself, and the parallel add of the solution scatter. *)
Context (HYPRE_IJVectorInitialize : list VectorValues → list VectorValues).
Context (HYPRE_IJVectorAssemble : list VectorValues → list VectorValues).
Context (hypre_ij_solve : list MatrixValues → list VectorValues → list VectorValues →
                          Real → Real → Z → Z → Real).
Context (ParallelAdd : MultiFab → MultiFab → MultiFab).

(** The guard of lines 231-233 and 321-323; [rows[0]] is read only when the
    first two conjuncts hold. *)
Definition pin_row0 (adjust : bool) (rows : list Z) : Result bool :=
  if adjust && isBottomSingular linop
  then r0 ← at_index rows 0; Ok (bool_decide (r0 = 0))
  else Ok false.

(** Lines 234-236. *)
Definition zero_off_diagonal (ij : IJRows) : Result (list Real) :=
  num_cols ← at_index (ncols ij) 0;
  for_range_R 0 (num_cols - 1) (λ ic mat,
    c ← at_index (cols ij) ic;
    r0 ← at_index (rows ij) 0;
    m ← at_index mat ic;
    Ok (<[Z.to_nat ic := if bool_decide (c = r0) then m else 0%Qc]> mat))
  (mat ij).

(** Lines 221-229, compiled with AMREX_DEBUG only. *)
Definition debug_check_cols (ij : IJRows) (nrows nnodes_total : Z) : Result () :=
  if AMREX_DEBUG cfg then
    nvalues ← for_range_R 0 (nrows - 1) (λ i nvalues,
                 n ← at_index (ncols ij) i; Ok (Int_add cfg nvalues n)) 0;
    for_range_R 0 (nvalues - 1) (λ i _,
      c ← at_index (cols ij) i;
      always_assert (bool_decide (c >= 0) && bool_decide (c < nnodes_total))
        "Assertion `cols[i] >= 0 && cols[i] < nnodes_total' failed") ()
  else Ok ().

(** Lines 200-240: the body of the assembly loop for patch [i]. *)
Definition assemble_patch (adjust : bool) (nnodes_total : Z) (i : nat) (p : Patch)
    (nrows : Z) (nid : Dim3 → Z) (s : list (list Z) * list MatrixValues)
    : Result (list (list Z) * list MatrixValues) :=
  let '(node_id_vec, A) := s in
  if bool_decide (nrows > 0) then
    let ij := fillIJMatrix linop i p nid in
    _ ← debug_check_cols ij nrows nnodes_total;
    pinned ← pin_row0 adjust (rows ij);
    mat' ← (if pinned : bool then zero_off_diagonal ij else Ok (mat ij));
    Ok (<[i := rows ij]> node_id_vec,
        A ++ [MkMatrixValues nrows (ncols ij) (rows ij) (cols ij) mat'])
  else Ok (node_id_vec, A).

(** Lines 198-242. *)
Definition assemble_matrix (adjust : bool) (nnodes_total : Z) (ps : list Patch)
    (nnodes_grid : list Z) (node_id : list (Dim3 → Z))
    : Result (list (list Z) * list MatrixValues) :=
  foldM (λ '(i, p), assemble_patch adjust nnodes_total i p
                      (nnodes_grid !!! i) (node_id !!! i))
    (imap pair ps) (replicate (length ps) [], []).

(** The constructor on process [myid]; [adjust] is what [parse_inputs] read
    for the adjust-singular-matrix option. *)
Definition construct (ebfactory adjust : bool) (world : list (list Patch))
    (myid : nat) : Result HypreNodeLap :=
  _ ← check_index_width cfg world;
  num ← number_nodes cfg ebfactory world myid;
  let ps := world !!! myid in
  let node_id := exchange_node_id (num_node_id num) in
  '(node_id_vec, A) ← assemble_matrix adjust (nnodes_total num) ps
                         (num_nnodes_grid num) node_id;
  Ok {| grids := ps;
        nnodes_grid := num_nnodes_grid num;
        node_id := node_id;
        node_id_vec := node_id_vec;
        adjustSingularMatrix := adjust;
        ilower := proc_begin num;
        iupper := Int_add cfg (proc_end num) (-1);
        A := A; b := []; x := [] |}.

(** [soln[mfi].dataPtr()]: the memory of the patch's array, ghost nodes
    included, x fastest. *)
Definition dataPtr (p : Patch) (mf : MultiFab) (i : nat) : list Real :=
  fab mf i <$> cells (grow (AMREX_SPACEDIM cfg) (ndbx p) (nGrow mf)).

(** Lines 302-319. *)
Definition gather_rhs (p : Patch) (nid : Dim3 → Z) (bfab : Dim3 → Real) : list Real :=
  for_3d (ndbx p) (λ i j k bvec,
    if bool_decide (nid (i, j, k) >= 0) && bool_decide (owner p (i, j, k) ≠ 0)
    then bvec ++ [bfab (i, j, k)] else bvec) [].

(** Lines 296-328: the body of the load loop for patch [i]. *)
Definition loadVectors_patch (st : HypreNodeLap) (soln rhs : MultiFab) (i : nat)
    (p : Patch) (s : list VectorValues * list VectorValues)
    : Result (list VectorValues * list VectorValues) :=
  let '(x, b) := s in
  let nrows := nnodes_grid st !!! i in
  if bool_decide (nrows >= 0) then
    let rows := node_id_vec st !!! i in
    let x := x ++ [MkVectorValues nrows rows (dataPtr p soln i)] in
    let bvec := gather_rhs p (node_id st !!! i) (fab rhs i) in
    pinned ← pin_row0 (adjustSingularMatrix st) rows;
    bvec ← (if pinned : bool
            then _ ← at_index bvec 0; Ok (<[0%nat := 0%Qc]> bvec)
            else Ok bvec);
    Ok (x, b ++ [MkVectorValues nrows rows bvec])
  else Ok (x, b).

(** Lines 286-330. *)
Definition loadVectors (st : HypreNodeLap) (soln rhs : MultiFab)
    : Result (MultiFab * HypreNodeLap) :=
  let soln := setVal 0%Qc soln in
  '(x', b') ← foldM (λ '(i, p), loadVectors_patch st soln rhs i p)
                (imap pair (grids st)) (x st, b st);
  Ok (soln, with_vectors st b' x').

(** [HYPRE_IJVectorGetValues]: the solver's value at each requested row. *)
Definition getValues (sol : Z → Real) (nrows : Z) (rows : list Z) : Result (list Real) :=
  for_range_R 0 (nrows - 1) (λ i xvec, r ← at_index rows i; Ok (xvec ++ [sol r])) [].

(** Lines 340-363: the body of the scatter loop for patch [i]. *)
Definition getSolution_patch (st : HypreNodeLap) (sol : Z → Real) (i : nat)
    (p : Patch) (tmpsoln : nat → Dim3 → Real) : Result (nat → Dim3 → Real) :=
  let nrows := nnodes_grid st !!! i in
  if bool_decide (nrows >= 0) then
    xvec ← getValues sol nrows (node_id_vec st !!! i);
    '(xfab, _) ← foldM (λ c '(xfab, offset),
        if bool_decide ((node_id st !!! i) c >= 0) && bool_decide (owner p c ≠ 0)
        then v ← at_index xvec offset; Ok (<[c := v]> xfab, offset + 1)
        else Ok (xfab, offset))
      (cells (ndbx p)) (tmpsoln i, 0);
    Ok (<[i := xfab]> tmpsoln)
  else Ok tmpsoln.

(** Lines 332-367. *)
Definition getSolution (st : HypreNodeLap) (sol : Z → Real) (soln : MultiFab)
    : Result MultiFab :=
  tmpsoln ← foldM (λ '(i, p), getSolution_patch st sol i p)
              (imap pair (grids st)) (λ _ _, 0%Qc);
  Ok (ParallelAdd soln (MkMultiFab 0 tmpsoln)).

(** Lines 248-265. *)
Definition solve (st : HypreNodeLap) (soln rhs : MultiFab)
    (rel_tol abs_tol : Real) (max_iter : Z) : Result (MultiFab * HypreNodeLap) :=
  let st := with_vectors st (HYPRE_IJVectorInitialize (b st))
                           (HYPRE_IJVectorInitialize (x st)) in
  '(soln, st) ← loadVectors st soln rhs;
  let st := with_vectors st (HYPRE_IJVectorAssemble (b st))
                           (HYPRE_IJVectorAssemble (x st)) in
  let sol := hypre_ij_solve (A st) (b st) (x st) rel_tol abs_tol max_iter in
  soln ← getSolution st sol soln;
  Ok (soln, st).

End Assembler.

(** ** Scenario C: one process, one patch of 4 x 4 nodes, nothing masked *)

(** A build in two dimensions without AMREX_DEBUG, AMREX_TESTING and
    AMREX_USE_EB, with a 4-byte [Int]. *)
Definition release_cfg : BuildConfig :=
  {| AMREX_SPACEDIM := 2; AMREX_DEBUG := false; AMREX_TESTING := false;
     AMREX_USE_EB := false; sizeof_Int := 4; sizeof_Long := 8 |}.

Definition scenario_C_patch : Patch :=
  {| ndbx := MkBox (0, 0, 0) (3, 3, 0);
     owner := λ _, 1;
     dirichlet := λ _, 0;
     flag_isCovered := λ _, false |}.

Definition scenario_C_world : list (list Patch) := [[scenario_C_patch]].

(** ** Inputs of the scenarios below *)

(** A stencil provider with the identity matrix on the owned, numbered
    nodes of a patch: one entry per row, on the diagonal. *)
Definition identity_rows (p : Patch) (nid : Dim3 → Z) : list Z :=
  nid <$> filter (λ c, nid c >= 0 ∧ owner p c ≠ 0) (cells (ndbx p)).

Definition identity_linop (singular : bool) : MLNodeLinOp :=
  {| fillIJMatrix := λ _ p nid,
       {| ncols := (λ _, 1) <$> identity_rows p nid;
          rows := identity_rows p nid;
          cols := identity_rows p nid;
          mat := (λ _, 1%Qc) <$> identity_rows p nid |};
     isBottomSingular := singular |}.

(** A patch with every node owned and none masked. *)
Definition plain_patch (bx : Box) : Patch :=
  {| ndbx := bx; owner := λ _, 1; dirichlet := λ _, 0; flag_isCovered := λ _, false |}.

(** One process with two patches of 32768 x 32768 nodes each: 2^31 retained
    nodes, one more than a 4-byte [Int] can hold. *)
Definition large_world : list (list Patch) :=
  [[plain_patch (MkBox (0, 0, 0) (32767, 32767, 0));
    plain_patch (MkBox (32768, 0, 0) (65535, 32767, 0))]].

(** A debug build with a 4-byte [Int]. *)
Definition debug_cfg : BuildConfig :=
  {| AMREX_SPACEDIM := 2; AMREX_DEBUG := true; AMREX_TESTING := false;
     AMREX_USE_EB := false; sizeof_Int := 4; sizeof_Long := 8 |}.

(** The adjust-singular-matrix policy in the spec's words: among the first
    [n0] entries of the patch, which are the entries of its first row [r0],
    every off-diagonal value becomes zero and a diagonal value is kept; all
    later entries are kept. *)
Definition pin_row0_values (r0 n0 : Z) (cols : list Z) (mat : list Real) : list Real :=
  imap (λ ic m,
    if bool_decide (Z.of_nat ic < n0) && negb (bool_decide (cols !! ic = Some r0))
    then 0%Qc else m) mat.

(** What a vector load passes to the solver as initial guess: for every
    patch passing the guard of line 297, its rows and a zeroed array. *)
Definition zero_guess (cfg : BuildConfig) (st : HypreNodeLap) (soln : MultiFab)
    : list VectorValues :=
  omap (λ '(i, p),
    if bool_decide (nnodes_grid st !!! i >= 0)
    then Some (MkVectorValues (nnodes_grid st !!! i) (node_id_vec st !!! i)
                 ((λ _, 0%Qc) <$> cells (grow (AMREX_SPACEDIM cfg) (ndbx p) (nGrow soln))))
    else None) (imap pair (grids st)).

(** Three patches of 2 x 2 nodes in a row, the middle one listed last: each
    of its nodes is shared with a patch listed before it, which owns it. *)
Definition sandwich_world : list (list Patch) :=
  [[plain_patch (MkBox (0, 0, 0) (1, 1, 0));
    plain_patch (MkBox (2, 0, 0) (3, 1, 0));
    {| ndbx := MkBox (1, 0, 0) (2, 1, 0); owner := λ _, 0;
       dirichlet := λ _, 0; flag_isCovered := λ _, false |}]].

(** Scenario D on one patch of two nodes: the stencil provider returns the
    singular matrix [[1, -1], [-1, 1]], rows 0 and 1, diagonal entry first
    in row 0; the adjust-singular-matrix option is on. *)
Definition scenario_D_patch : Patch := plain_patch (MkBox (0, 0, 0) (1, 0, 0)).

Definition scenario_D_linop : MLNodeLinOp :=
  {| fillIJMatrix := λ _ _ _,
       {| ncols := [2; 2]; rows := [0; 1]; cols := [0; 1; 0; 1];
          mat := [1%Qc; (-1)%Qc; (-1)%Qc; 1%Qc] |};
     isBottomSingular := true |}.

Definition scenario_D_state : HypreNodeLap :=
  {| grids := [scenario_D_patch];
     nnodes_grid := [2];
     node_id := [λ '(i, _, _), i];
     node_id_vec := [[0; 1]];
     adjustSingularMatrix := true;
     ilower := 0; iupper := 1;
     A := []; b := []; x := [] |}.

Definition scenario_D_rhs : MultiFab :=
  {| nGrow := 0; fab := λ _ '(i, _, _), if bool_decide (i = 0) then Real_of 3 1 else Real_of 5 1 |}.

Definition scenario_D_soln : MultiFab :=
  {| nGrow := 0; fab := λ _ _, Real_of 7 1 |}.


(** ** The nodes of a patch that carry a row *)

(** The nodes the load loop (line 314) and the scatter loop (line 357)
    visit: numbered and owned, in traversal order. *)
Definition selected (p : Patch) (nid : Dim3 → Z) : list Dim3 :=
  filter (λ c, nid c >= 0 ∧ owner p c ≠ 0) (cells (ndbx p)).

(** What one [HYPRE_IJMatrixSetValues] call (line 239) carries for a patch
    with [nrows] rows whose stencil provider returned [ij]: the provider's
    arrays, with the values possibly rewritten by the loop of lines 234-236,
    which runs only when the adjust-singular-matrix option is on, the bottom
    level is singular and the patch's first row is row 0. *)
Definition submits (linop : MLNodeLinOp) (adjust : bool) (nrows : Z) (ij : IJRows)
    (m : MatrixValues) : Prop :=
  mv_nrows m = nrows ∧ mv_ncols m = ncols ij
  ∧ mv_rows m = rows ij ∧ mv_cols m = cols ij
  ∧ length (mv_values m) = length (mat ij)
  ∧ (adjust && isBottomSingular linop = false ∨ rows ij !! 0%nat ≠ Some 0 →
     mv_values m = mat ij).

(** What a vector load passes to the solver as right-hand side: for every
    patch passing the guard of line 297, its rows and the values gathered
    on its owned, numbered nodes, the first of them replaced by zero when
    the patch is pinned (lines 321-325). *)
Definition rhs_entry (linop : MLNodeLinOp) (st : HypreNodeLap) (rhs : MultiFab)
    (ip : nat * Patch) : option VectorValues :=
  let '(i, p) := ip in
  if bool_decide (nnodes_grid st !!! i >= 0) then
    let rows := node_id_vec st !!! i in
    let bvec := gather_rhs p (node_id st !!! i) (fab rhs i) in
    Some (MkVectorValues (nnodes_grid st !!! i) rows
            (if adjustSingularMatrix st && isBottomSingular linop
                && bool_decide (rows !! 0%nat = Some 0)
             then <[0%nat := 0%Qc]> bvec else bvec))
  else None.

Definition rhs_load (linop : MLNodeLinOp) (st : HypreNodeLap) (rhs : MultiFab)
    : list VectorValues :=
  omap (rhs_entry linop st rhs) (imap pair (grids st)).

(** A solver for the identity matrix on the two rows of scenario D: it
    returns the right-hand side loaded there, 3 at row 0 and 5 at row 1. *)
Definition scenario_D_identity_solution (r : Z) : Real :=
  if bool_decide (r = 0) then Real_of 3 1 else Real_of 5 1.

(** Scenario D without the adjust-singular-matrix option. *)
Definition scenario_D_unpinned : HypreNodeLap :=
  {| grids := [scenario_D_patch];
     nnodes_grid := [2];
     node_id := [λ '(i, _, _), i];
     node_id_vec := [[0; 1]];
     adjustSingularMatrix := false;
     ilower := 0; iupper := 1;
     A := []; b := []; x := [] |}.

End HypreNodeLap.

(** * The operator: [MLABecLaplacian] *)

Module MLABecLaplacian.

(** [LinOpBCType]; [BCType] is an alias of it. *)
Inductive BCType :=
| interior | Dirichlet | Neumann | reflect_odd | Marshak | SanchezPomraning
| inflow | inhomogNeumann | Robin | Periodic | bogus.

#[global] Instance BCType_eq_dec : EqDecision BCType.
Proof. solve_decision. Defined.

Abbreviation IntVect := (list Z).

(** [IntVect(v)] and [IntVect::operator==(int)]. *)
Definition IntVect_of_int (dim : nat) (v : Z) : IntVect := replicate dim v.
Definition IntVect_eq_int (iv : IntVect) (v : Z) : bool :=
  forallb (λ c, bool_decide (c = v)) iv.

Record Geometry := MkGeometry {
  Domain : Box;
  CellSize : nat → Real;
  InvCellSize : nat → Real;
}.

(** An array over a patch with its components, [Array4<Real>(i,j,k,n)]. *)
Record FArrayBox := MkFArrayBox {
  validbox : Box;
  arr : Dim3 → nat → Real;
}.

Record MultiFab := MkMultiFab {
  nComp : nat;
  fabs : list FArrayBox;
}.

Abbreviation iMultiFab := (list (Dim3 → Z)).

Definition upd4 (a : Dim3 → nat → Real) (c : Dim3) (n : nat) (v : Real)
    : Dim3 → nat → Real :=
  λ c' n', if bool_decide (c' = c ∧ n' = n) then v else a c' n'.

(** Modelled from the spec: [MultiFab::setVal], absent from the sources;
    a uniform scalar is stored in every component of every patch. *)
Definition setVal (v : Real) (mf : MultiFab) : MultiFab :=
  {| nComp := nComp mf;
     fabs := (λ f, {| validbox := validbox f; arr := λ _ _, v |}) <$> fabs mf |}.

(** Modelled from the spec: [MultiFab::Copy(dst, src, srccomp, dstcomp, 1, 0)],
    absent from the sources; one component of a field is copied on the
    valid cells. *)
Definition Copy (dst src : MultiFab) (srccomp dstcomp : nat) : MultiFab :=
  {| nComp := nComp dst;
     fabs := zip_with (λ d s,
       {| validbox := validbox d;
          arr := λ c n, if bool_decide (n = dstcomp) && contains_cell (validbox d) c
                        then arr s c srccomp else arr d c n |})
       (fabs dst) (fabs src) |}.

(** Modelled from the spec: [MultiFab::sum] and [MultiFab::norm0], absent
    from the sources; the sum and the maximum magnitude of component 0 over
    the valid cells of all patches. *)
Definition sum (mf : MultiFab) : Real :=
  foldl (λ acc f, foldl (λ acc c, (acc + arr f c 0%nat)%Qc) acc (cells (validbox f)))
    0%Qc (fabs mf).

Definition norm0 (mf : MultiFab) : Real :=
  foldl (λ acc f, foldl (λ acc c, Rmax acc (Rabs (arr f c 0%nat))) acc
                    (cells (validbox f)))
    0%Qc (fabs mf).

(** Modelled from the spec: the [Box] helpers [adjCellLo], [adjCellHi] and
    [contains], absent from the sources; the one-cell-thick boxes adjacent
    to a box on its low and high side in a direction, and box inclusion. *)
Definition dim_get (c : Dim3) (idim : nat) : Z :=
  let '(i, j, k) := c in
  match idim with O => i | S O => j | _ => k end.

Definition dim_set (c : Dim3) (idim : nat) (v : Z) : Dim3 :=
  let '(i, j, k) := c in
  match idim with O => (v, j, k) | S O => (i, v, k) | _ => (i, j, v) end.

Definition shift (c : Dim3) (idim : nat) (n : Z) : Dim3 :=
  dim_set c idim (dim_get c idim + n).

Definition adjCellLo (bx : Box) (idim : nat) : Box :=
  let e := dim_get (smallEnd bx) idim - 1 in
  MkBox (dim_set (smallEnd bx) idim e) (dim_set (bigEnd bx) idim e).

Definition adjCellHi (bx : Box) (idim : nat) : Box :=
  let e := dim_get (bigEnd bx) idim + 1 in
  MkBox (dim_set (smallEnd bx) idim e) (dim_set (bigEnd bx) idim e).

Definition contains (bx inner : Box) : bool :=
  contains_cell bx (smallEnd inner) && contains_cell bx (bigEnd inner).

(** The three relaxation kernels [Fsmooth] chooses from. *)
Inductive SmoothKernel :=
| abec_gsrb
| abec_gsrb_os
| abec_gsrb_with_line_solve.

#[global] Instance SmoothKernel_eq_dec : EqDecision SmoothKernel.
Proof. solve_decision. Defined.

Record MLABecLaplacian := MkMLABecLaplacian {
  m_ncomp : nat;
  m_num_amr_levels : nat;
  m_num_mg_levels : list nat;
  m_geom : list (list Geometry);
  m_a_scalar : Real;
  m_b_scalar : Real;
  m_a_coeffs : list (list MultiFab);
  m_b_coeffs : list (list (list MultiFab));
  m_needs_update : bool;
  m_is_singular : list bool;
  m_lobc : list (list BCType);
  m_hibc : list (list BCType);
  m_lobc_orig : list (list BCType);
  m_hibc_orig : list (list BCType);
  m_domain_covered : list bool;
  m_overset_mask : list (list (option iMultiFab));
  m_robin_bcval : list (option MultiFab);
  mg_coarsen_ratio : Z;
  mg_coarsen_ratio_vec : list IntVect;
}.

(** Assignments to the members the operator mutates. *)
Definition set_scalars (st : MLABecLaplacian) (m_a_scalar' : Real) (m_b_scalar' : Real) : MLABecLaplacian :=
  {| m_ncomp := m_ncomp st;
     m_num_amr_levels := m_num_amr_levels st;
     m_num_mg_levels := m_num_mg_levels st;
     m_geom := m_geom st;
     m_a_scalar := m_a_scalar';
     m_b_scalar := m_b_scalar';
     m_a_coeffs := m_a_coeffs st;
     m_b_coeffs := m_b_coeffs st;
     m_needs_update := m_needs_update st;
     m_is_singular := m_is_singular st;
     m_lobc := m_lobc st;
     m_hibc := m_hibc st;
     m_lobc_orig := m_lobc_orig st;
     m_hibc_orig := m_hibc_orig st;
     m_domain_covered := m_domain_covered st;
     m_overset_mask := m_overset_mask st;
     m_robin_bcval := m_robin_bcval st;
     mg_coarsen_ratio := mg_coarsen_ratio st;
     mg_coarsen_ratio_vec := mg_coarsen_ratio_vec st |}.

Definition set_a_scalar (st : MLABecLaplacian) (m_a_scalar' : Real) : MLABecLaplacian :=
  {| m_ncomp := m_ncomp st;
     m_num_amr_levels := m_num_amr_levels st;
     m_num_mg_levels := m_num_mg_levels st;
     m_geom := m_geom st;
     m_a_scalar := m_a_scalar';
     m_b_scalar := m_b_scalar st;
     m_a_coeffs := m_a_coeffs st;
     m_b_coeffs := m_b_coeffs st;
     m_needs_update := m_needs_update st;
     m_is_singular := m_is_singular st;
     m_lobc := m_lobc st;
     m_hibc := m_hibc st;
     m_lobc_orig := m_lobc_orig st;
     m_hibc_orig := m_hibc_orig st;
     m_domain_covered := m_domain_covered st;
     m_overset_mask := m_overset_mask st;
     m_robin_bcval := m_robin_bcval st;
     mg_coarsen_ratio := mg_coarsen_ratio st;
     mg_coarsen_ratio_vec := mg_coarsen_ratio_vec st |}.

Definition set_a_coeffs (st : MLABecLaplacian) (m_a_coeffs' : list (list MultiFab)) : MLABecLaplacian :=
  {| m_ncomp := m_ncomp st;
     m_num_amr_levels := m_num_amr_levels st;
     m_num_mg_levels := m_num_mg_levels st;
     m_geom := m_geom st;
     m_a_scalar := m_a_scalar st;
     m_b_scalar := m_b_scalar st;
     m_a_coeffs := m_a_coeffs';
     m_b_coeffs := m_b_coeffs st;
     m_needs_update := m_needs_update st;
     m_is_singular := m_is_singular st;
     m_lobc := m_lobc st;
     m_hibc := m_hibc st;
     m_lobc_orig := m_lobc_orig st;
     m_hibc_orig := m_hibc_orig st;
     m_domain_covered := m_domain_covered st;
     m_overset_mask := m_overset_mask st;
     m_robin_bcval := m_robin_bcval st;
     mg_coarsen_ratio := mg_coarsen_ratio st;
     mg_coarsen_ratio_vec := mg_coarsen_ratio_vec st |}.

Definition set_b_coeffs (st : MLABecLaplacian) (m_b_coeffs' : list (list (list MultiFab))) : MLABecLaplacian :=
  {| m_ncomp := m_ncomp st;
     m_num_amr_levels := m_num_amr_levels st;
     m_num_mg_levels := m_num_mg_levels st;
     m_geom := m_geom st;
     m_a_scalar := m_a_scalar st;
     m_b_scalar := m_b_scalar st;
     m_a_coeffs := m_a_coeffs st;
     m_b_coeffs := m_b_coeffs';
     m_needs_update := m_needs_update st;
     m_is_singular := m_is_singular st;
     m_lobc := m_lobc st;
     m_hibc := m_hibc st;
     m_lobc_orig := m_lobc_orig st;
     m_hibc_orig := m_hibc_orig st;
     m_domain_covered := m_domain_covered st;
     m_overset_mask := m_overset_mask st;
     m_robin_bcval := m_robin_bcval st;
     mg_coarsen_ratio := mg_coarsen_ratio st;
     mg_coarsen_ratio_vec := mg_coarsen_ratio_vec st |}.

Definition set_needs_update (st : MLABecLaplacian) (m_needs_update' : bool) : MLABecLaplacian :=
  {| m_ncomp := m_ncomp st;
     m_num_amr_levels := m_num_amr_levels st;
     m_num_mg_levels := m_num_mg_levels st;
     m_geom := m_geom st;
     m_a_scalar := m_a_scalar st;
     m_b_scalar := m_b_scalar st;
     m_a_coeffs := m_a_coeffs st;
     m_b_coeffs := m_b_coeffs st;
     m_needs_update := m_needs_update';
     m_is_singular := m_is_singular st;
     m_lobc := m_lobc st;
     m_hibc := m_hibc st;
     m_lobc_orig := m_lobc_orig st;
     m_hibc_orig := m_hibc_orig st;
     m_domain_covered := m_domain_covered st;
     m_overset_mask := m_overset_mask st;
     m_robin_bcval := m_robin_bcval st;
     mg_coarsen_ratio := mg_coarsen_ratio st;
     mg_coarsen_ratio_vec := mg_coarsen_ratio_vec st |}.

Definition set_is_singular (st : MLABecLaplacian) (m_is_singular' : list bool) : MLABecLaplacian :=
  {| m_ncomp := m_ncomp st;
     m_num_amr_levels := m_num_amr_levels st;
     m_num_mg_levels := m_num_mg_levels st;
     m_geom := m_geom st;
     m_a_scalar := m_a_scalar st;
     m_b_scalar := m_b_scalar st;
     m_a_coeffs := m_a_coeffs st;
     m_b_coeffs := m_b_coeffs st;
     m_needs_update := m_needs_update st;
     m_is_singular := m_is_singular';
     m_lobc := m_lobc st;
     m_hibc := m_hibc st;
     m_lobc_orig := m_lobc_orig st;
     m_hibc_orig := m_hibc_orig st;
     m_domain_covered := m_domain_covered st;
     m_overset_mask := m_overset_mask st;
     m_robin_bcval := m_robin_bcval st;
     mg_coarsen_ratio := mg_coarsen_ratio st;
     mg_coarsen_ratio_vec := mg_coarsen_ratio_vec st |}.

Definition at_nat {A} (v : list A) (i : nat) : Result A :=
  from_option Ok OutOfBounds (v !! i).

(** [v[i][j]] *)
Definition at2 {A} (v : list (list A)) (i j : nat) : Result A :=
  l ← at_nat v i; at_nat l j.

(** [f(v[i])] for an [f] that works in place. *)
Definition modify_at {A} (v : list A) (i : nat) (f : A → Result A) : Result (list A) :=
  a ← at_nat v i; a' ← f a; Ok (<[i := a']> v).

(** [v.back()] *)
Definition back {A} (v : list A) : Result A := from_option Ok OutOfBounds (list.last v).

(** Modelled from the spec: [MLLinOp::hasRobinBC], absent from the sources;
    some face of some component is configured with a Robin condition. *)
Definition hasRobinBC (st : MLABecLaplacian) : bool :=
  existsb (existsb (λ t, bool_decide (t = Robin))) (m_lobc_orig st)
  || existsb (existsb (λ t, bool_decide (t = Robin))) (m_hibc_orig st).

Section Operator.
Context (AMREX_SPACEDIM : nat).
(** The base class, the metric terms of curvilinear coordinates and the
    restriction kernels are outside this file. *)
Context (MLCellABecLap_prepareForSolve : MLABecLaplacian → MLABecLaplacian).
Context (MLCellABecLap_needsUpdate : MLABecLaplacian → bool).
Context (MLCellABecLap_update : MLABecLaplacian → MLABecLaplacian).
Context (applyMetricTerm : nat → nat → MultiFab → MultiFab).
Context (average_down : MultiFab → MultiFab → IntVect → MultiFab).
Context (average_down_faces : list MultiFab → list MultiFab → IntVect → list MultiFab).
Context (overset_rescale_bcoef : nat → MultiFab → iMultiFab → nat → Real → MultiFab).

(** Lines 85-97. *)
Definition setScalars (st : MLABecLaplacian) (a b : Real) : Result MLABecLaplacian :=
  let st := set_scalars st a b in
  if bool_decide (a = 0%Qc) then
    a_coeffs ← foldM (λ amrlev a_coeffs,
        modify_at a_coeffs amrlev (λ lvl,
          modify_at lvl 0 (λ mf, Ok (setVal 0%Qc mf))))
      (seq 0 (m_num_amr_levels st)) (m_a_coeffs st);
    Ok (set_a_coeffs st a_coeffs)
  else Ok st.

(** Lines 99-106. *)
Definition setACoeffs (st : MLABecLaplacian) (amrlev : nat) (alpha : MultiFab)
    : Result MLABecLaplacian :=
  _ ← always_assert (bool_decide (nComp alpha = 1%nat))
        "MLABecLaplacian::setACoeffs: alpha is supposed to be single component.";
  a_coeffs ← modify_at (m_a_coeffs st) amrlev (λ lvl,
                modify_at lvl 0 (λ mf, Ok (Copy mf alpha 0 0)));
  Ok (set_needs_update (set_a_coeffs st a_coeffs) true).

(** Lines 108-113. *)
Definition setACoeffs_scalar (st : MLABecLaplacian) (amrlev : nat) (alpha : Real)
    : Result MLABecLaplacian :=
  a_coeffs ← modify_at (m_a_coeffs st) amrlev (λ lvl,
                modify_at lvl 0 (λ mf, Ok (setVal alpha mf)));
  Ok (set_needs_update (set_a_coeffs st a_coeffs) true).

(** Lines 115-134. *)
Definition setBCoeffs (st : MLABecLaplacian) (amrlev : nat) (beta : list MultiFab)
    : Result MLABecLaplacian :=
  let ncomp := m_ncomp st in
  beta0 ← at_nat beta 0;
  _ ← always_assert (bool_decide (nComp beta0 = 1%nat)
                     || bool_decide (nComp beta0 = ncomp))
        "Assertion `beta[0]->nComp() == 1 || beta[0]->nComp() == ncomp' failed";
  b_coeffs ← modify_at (m_b_coeffs st) amrlev (λ lvl,
    modify_at lvl 0 (λ b,
      foldM (λ idim b,
        foldM (λ icomp b,
          modify_at b idim (λ mf,
            src ← at_nat beta idim;
            Ok (if bool_decide (nComp beta0 = ncomp)
                then Copy mf src icomp icomp
                else Copy mf src 0 icomp)))
          (seq 0 ncomp) b)
        (seq 0 AMREX_SPACEDIM) b));
  Ok (set_needs_update (set_b_coeffs st b_coeffs) true).

(** Lines 136-143. *)
Definition setBCoeffs_scalar (st : MLABecLaplacian) (amrlev : nat) (beta : Real)
    : Result MLABecLaplacian :=
  b_coeffs ← modify_at (m_b_coeffs st) amrlev (λ lvl,
    modify_at lvl 0 (λ b,
      foldM (λ idim b, modify_at b idim (λ mf, Ok (setVal beta mf)))
        (seq 0 AMREX_SPACEDIM) b));
  Ok (set_needs_update (set_b_coeffs st b_coeffs) true).

(** Lines 145-155. *)
Definition setBCoeffs_vector (st : MLABecLaplacian) (amrlev : nat) (beta : list Real)
    : Result MLABecLaplacian :=
  let ncomp := m_ncomp st in
  b_coeffs ← modify_at (m_b_coeffs st) amrlev (λ lvl,
    modify_at lvl 0 (λ b,
      foldM (λ idim b,
        foldM (λ icomp b,
          modify_at b idim (λ mf, v ← at_nat beta icomp; Ok (setVal v mf)))
          (seq 0 ncomp) b)
        (seq 0 AMREX_SPACEDIM) b));
  Ok (set_needs_update (set_b_coeffs st b_coeffs) true).

(** Lines 174-236. *)
Definition averageDownCoeffsSameAmrLevel (st : MLABecLaplacian) (amrlev : nat)
    : Result MLABecLaplacian :=
  a ← at_nat (m_a_coeffs st) amrlev;
  b ← at_nat (m_b_coeffs st) amrlev;
  let nmglevs := length a in
  '(a, b) ← foldM (λ mglev '(a, b),
      ratio ← (if bool_decide (0 < amrlev)%nat
               then Ok (IntVect_of_int AMREX_SPACEDIM (mg_coarsen_ratio st))
               else at_nat (mg_coarsen_ratio_vec st) (mglev - 1));
      afine ← at_nat a (mglev - 1);
      acrse ← at_nat a mglev;
      let acrse := if bool_decide (m_a_scalar st = 0%Qc) then setVal 0%Qc acrse
                   else average_down afine acrse ratio in
      bfine ← at_nat b (mglev - 1);
      bcrse ← at_nat b mglev;
      Ok (<[mglev := acrse]> a, <[mglev := average_down_faces bfine bcrse ratio]> b))
    (seq 1 (nmglevs - 1)) (a, b);
  b ← foldM (λ mglev b,
      osm ← at2 (m_overset_mask st) amrlev mglev;
      match osm with
      | Some mask =>
          let fac := Real_of (2 ^ Z.of_nat mglev) 1 in
          let osfac := (Real_of 2 1 * fac / (fac + 1))%Qc in
          modify_at b mglev (λ bl,
            Ok (imap (λ idim bf, overset_rescale_bcoef idim bf mask (m_ncomp st) osfac) bl))
      | None => Ok b
      end)
    (seq 1 (nmglevs - 1)) b;
  Ok (set_b_coeffs (set_a_coeffs st (<[amrlev := a]> (m_a_coeffs st)))
        (<[amrlev := b]> (m_b_coeffs st))).

(** Lines 238-255. *)
Definition averageDownCoeffsToCoarseAmrLevel (st : MLABecLaplacian) (flev : nat)
    : Result MLABecLaplacian :=
  fine_a ← at_nat (m_a_coeffs st) flev ≫= back;
  fine_b ← at_nat (m_b_coeffs st) flev ≫= back;
  crse_a ← at2 (m_a_coeffs st) (flev - 1) 0;
  crse_b ← at2 (m_b_coeffs st) (flev - 1) 0;
  let ratio := IntVect_of_int AMREX_SPACEDIM (mg_coarsen_ratio st) in
  let crse_a := if bool_decide (m_a_scalar st ≠ 0%Qc)
                then average_down fine_a crse_a ratio else crse_a in
  let crse_b := average_down_faces fine_b crse_b ratio in
  a_coeffs ← modify_at (m_a_coeffs st) (flev - 1) (λ lvl, Ok (<[0%nat := crse_a]> lvl));
  b_coeffs ← modify_at (m_b_coeffs st) (flev - 1) (λ lvl, Ok (<[0%nat := crse_b]> lvl));
  Ok (set_b_coeffs (set_a_coeffs st a_coeffs) b_coeffs).

(** Lines 157-172. *)
Definition averageDownCoeffs (st : MLABecLaplacian) : Result MLABecLaplacian :=
  st ← foldM (λ amrlev st,
      st ← averageDownCoeffsSameAmrLevel st amrlev;
      averageDownCoeffsToCoarseAmrLevel st amrlev)
    (reverse (seq 1 (m_num_amr_levels st - 1))) st;
  averageDownCoeffsSameAmrLevel st 0.

(** Lines 257-271. *)
Definition applyMetricTermsCoeffs (st : MLABecLaplacian) : Result MLABecLaplacian :=
  if bool_decide (AMREX_SPACEDIM ≠ 3%nat) then
    foldM (λ alev st,
        a_coeffs ← modify_at (m_a_coeffs st) alev (λ lvl,
                      modify_at lvl 0 (λ mf, Ok (applyMetricTerm alev 0 mf)));
        b_coeffs ← modify_at (m_b_coeffs st) alev (λ lvl,
          modify_at lvl 0 (λ b,
            foldM (λ idim b, modify_at b idim (λ mf, Ok (applyMetricTerm alev 0 mf)))
              (seq 0 AMREX_SPACEDIM) b));
        Ok (set_b_coeffs (set_a_coeffs st a_coeffs) b_coeffs))
      (seq 0 (m_num_amr_levels st)) st
  else Ok st.

(** Lines 341-343 and the five kernels like it: the contribution of the
    boundary cell [bc] to the coefficient at the cell [ac] inside, with the
    face coefficient read at [fc]. *)
Definition robin_fold_cell (d fac : Real) (rbc : Dim3 → nat → Real)
    (bfab : Dim3 → nat → Real) (icomp : nat) (bc ac fc : Dim3)
    (afab : Dim3 → nat → Real) : Dim3 → nat → Real :=
  let B := ((rbc bc 1%nat * d - rbc bc 0%nat * Real_of 1 2)
            / (rbc bc 1%nat * d + rbc bc 0%nat * Real_of 1 2))%Qc in
  upd4 afab ac icomp (afab ac icomp + fac * bfab fc icomp * (1 - B))%Qc.

(** Lines 324-392: one patch. *)
Definition applyRobinBCTermsCoeffs_fab (st : MLABecLaplacian) (amrlev : nat)
    (domain : Box) (dxi dyi dzi bovera : Real) (mfi : nat) (a : FArrayBox)
    : Result FArrayBox :=
  let vbx := validbox a in
  afab ← foldM (λ idim afab,
      bmf ← at2 (m_b_coeffs st) amrlev 0;
      bdim ← at_nat bmf idim;
      bfab ← at_nat (fabs bdim) mfi;
      let blo := adjCellLo vbx idim in
      let bhi := adjCellHi vbx idim in
      let outside_domain_lo := negb (contains domain blo) in
      let outside_domain_hi := negb (contains domain bhi) in
      if negb outside_domain_lo && negb outside_domain_hi then Ok afab
      else
        foldM (λ icomp afab,
            robin ← at_nat (m_robin_bcval st) amrlev;
            rmf ← from_option Ok OutOfBounds robin;
            rfab ← at_nat (fabs rmf) mfi;
            let rbc := λ c n, arr rfab c (icomp * 3 + n)%nat in
            let d := match idim with O => dxi | S O => dyi | _ => dzi end in
            let fac := (bovera * d * d)%Qc in
            lo ← at2 (m_lobc_orig st) icomp idim;
            let afab :=
              if bool_decide (lo = Robin) && outside_domain_lo
              then foldl (λ afab c,
                     robin_fold_cell d fac rbc (arr bfab) icomp
                       c (shift c idim 1) (shift c idim 1) afab)
                     afab (cells blo)
              else afab in
            hi ← at2 (m_hibc_orig st) icomp idim;
            let afab :=
              if bool_decide (hi = Robin) && outside_domain_hi
              then foldl (λ afab c,
                     robin_fold_cell d fac rbc (arr bfab) icomp
                       c (shift c idim (-1)) c afab)
                     afab (cells bhi)
              else afab in
            Ok afab)
          (seq 0 (m_ncomp st)) afab)
    (seq 0 AMREX_SPACEDIM) (arr a);
  Ok {| validbox := vbx; arr := afab |}.

(** Lines 300-395. *)
Definition applyRobinBCTermsCoeffs (st : MLABecLaplacian) : Result MLABecLaplacian :=
  if negb (hasRobinBC st) then Ok st
  else
    let st := if bool_decide (m_a_scalar st = 0%Qc) then set_a_scalar st 1%Qc else st in
    let bovera := (m_b_scalar st / m_a_scalar st)%Qc in
    a_coeffs ← foldM (λ amrlev a_coeffs,
        geom ← at2 (m_geom st) amrlev 0;
        let dxi := InvCellSize geom 0 in
        let dyi := if bool_decide (2 ≤ AMREX_SPACEDIM)%nat then InvCellSize geom 1
                   else 1%Qc in
        let dzi := if bool_decide (AMREX_SPACEDIM = 3)%nat then InvCellSize geom 2
                   else 1%Qc in
        modify_at a_coeffs amrlev (λ lvl,
          modify_at lvl 0 (λ amf,
            fabs' ← foldM (λ mfi fs,
                modify_at fs mfi
                  (applyRobinBCTermsCoeffs_fab st amrlev (Domain geom) dxi dyi dzi
                     bovera mfi))
              (seq 0 (length (fabs amf))) (fabs amf);
            Ok {| nComp := nComp amf; fabs := fabs' |})))
      (seq 0 (m_num_amr_levels st)) (m_a_coeffs st);
    Ok (set_a_coeffs st a_coeffs).

(** Lines 420-433 of [prepareForSolve] and, word for word, lines 760-773 of
    [update]: the body of the loop over the AMR levels. *)
Definition singular_step (st : MLABecLaplacian) (alev : nat) (is_singular : list bool)
    : Result (list bool) :=
  covered ← at_nat (m_domain_covered st) alev;
  if covered : bool then
    osm ← at2 (m_overset_mask st) alev 0;
    if negb (bool_decide (is_Some osm)) then
      if bool_decide (m_a_scalar st = 0%Qc) then Ok (<[alev := true]> is_singular)
      else
        amf ← at_nat (m_a_coeffs st) alev ≫= back;
        let asum := sum amf in
        let amax := norm0 amf in
        Ok (<[alev := bool_decide (asum ≤ amax * Real_of 1 (10 ^ 12))%Qc]> is_singular)
    else Ok is_singular
  else Ok is_singular.

(** Lines 412-435 of [prepareForSolve] and lines 752-775 of [update]: the
    singularity check. *)
Definition detect_singular (st : MLABecLaplacian) : Result MLABecLaplacian :=
  let cleared := replicate (m_num_amr_levels st) false in
  lobc0 ← at_nat (m_lobc st) 0;
  hibc0 ← at_nat (m_hibc st) 0;
  if bool_decide (Dirichlet ∉ lobc0) && bool_decide (Dirichlet ∉ hibc0) then
    is_singular ← foldM (singular_step st) (seq 0 (m_num_amr_levels st)) cleared;
    Ok (set_is_singular st is_singular)
  else Ok (set_is_singular st cleared).

(** Lines 397-438. *)
Definition prepareForSolve (st : MLABecLaplacian) : Result MLABecLaplacian :=
  let st := MLCellABecLap_prepareForSolve st in
  st ← applyMetricTermsCoeffs st;
  st ← applyRobinBCTermsCoeffs st;
  st ← averageDownCoeffs st;
  st ← detect_singular st;
  Ok (set_needs_update st false).

(** Lines 741-778. *)
Definition update (st : MLABecLaplacian) : Result MLABecLaplacian :=
  let st := if MLCellABecLap_needsUpdate st then MLCellABecLap_update st else st in
  st ← applyMetricTermsCoeffs st;
  st ← averageDownCoeffs st;
  st ← detect_singular st;
  Ok (set_needs_update st false).

(** Lines 528-531. *)
Definition regular_coarsening (st : MLABecLaplacian) (amrlev mglev : nat) : Result bool :=
  if bool_decide (amrlev = 0%nat) && bool_decide (0 < mglev)%nat
  then ratio ← at_nat (mg_coarsen_ratio_vec st) (mglev - 1);
       Ok (IntVect_eq_int ratio (mg_coarsen_ratio st))
  else Ok true.

(** Lines 611-650: the kernel [Fsmooth] launches on every tile. *)
Definition Fsmooth_kernel (st : MLABecLaplacian) (amrlev mglev : nat)
    : Result SmoothKernel :=
  regular ← regular_coarsening st amrlev mglev;
  osm ← at2 (m_overset_mask st) amrlev mglev;
  Ok (if bool_decide (is_Some osm) then abec_gsrb_os
      else if regular : bool then abec_gsrb
      else abec_gsrb_with_line_solve).

End Operator.

(** ** Scenarios *)

(** Modelled from the spec: [amrex::average_down] for cell-centred data,
    absent from the sources; volume averaging, a coarse cell holds the mean
    of the fine cells it covers. *)
Definition volume_average (fine crse : MultiFab) (ratio : IntVect) : MultiFab :=
  let rx := default 1 (ratio !! 0%nat) in
  let ry := default 1 (ratio !! 1%nat) in
  let rz := default 1 (ratio !! 2%nat) in
  {| nComp := nComp crse;
     fabs := zip_with (λ c f,
       {| validbox := validbox c;
          arr := λ '(i, j, k) n,
            let covered := MkBox (i * rx, j * ry, k * rz)
                             (i * rx + rx - 1, j * ry + ry - 1, k * rz + rz - 1) in
            let total := foldl (λ acc o, acc + arr f o n)%Qc 0%Qc (cells covered) in
            (total / Real_of (rx * ry * rz) 1)%Qc |})
       (fabs crse) (fabs fine) |}.

(** A field on one patch of the cells [0 .. n-1] of a line, from its values. *)
Definition line_field (n : Z) (vals : list Real) : MultiFab :=
  {| nComp := 1;
     fabs := [{| validbox := MkBox (0, 0, 0) (n - 1, 0, 0);
                 arr := λ '(i, _, _) _, default 0%Qc (vals !! Z.to_nat i) |}] |}.

Definition unit_geometry (n : Z) : Geometry :=
  {| Domain := MkBox (0, 0, 0) (n - 1, 0, 0);
     CellSize := λ _, Real_of 1 (Z.to_pos n);
     InvCellSize := λ _, Real_of n 1 |}.

(** One AMR level, two relaxation levels of 4 and 2 cells on a line, all
    boundaries Neumann, [a_scalar = b_scalar = 1], and a cell coefficient
    with the values 1, -1, 2^-50, 2^-50 on the finest relaxation level. *)
Definition cancelling_operator : MLABecLaplacian :=
  {| m_ncomp := 1;
     m_num_amr_levels := 1;
     m_num_mg_levels := [2%nat];
     m_geom := [[unit_geometry 4; unit_geometry 2]];
     m_a_scalar := 1%Qc;
     m_b_scalar := 1%Qc;
     m_a_coeffs := [[line_field 4 [1%Qc; (-1)%Qc; Real_of 1 (2 ^ 50); Real_of 1 (2 ^ 50)];
                     line_field 2 [0%Qc; 0%Qc]]];
     m_b_coeffs := [[[line_field 5 [1%Qc; 1%Qc; 1%Qc; 1%Qc; 1%Qc]];
                     [line_field 3 [1%Qc; 1%Qc; 1%Qc]]]];
     m_needs_update := true;
     m_is_singular := [];
     m_lobc := [[Neumann]];
     m_hibc := [[Neumann]];
     m_lobc_orig := [[Neumann]];
     m_hibc_orig := [[Neumann]];
     m_domain_covered := [true];
     m_overset_mask := [[None; None]];
     m_robin_bcval := [None];
     mg_coarsen_ratio := 2;
     mg_coarsen_ratio_vec := [[2]] |}.

(** Scenario A: a line of 8 cells, [a_scalar = b_scalar = 1], A = 1, B = 1,
    a Robin condition with a = 0, b = 1 at the high end. *)
Definition scenario_A : MLABecLaplacian :=
  {| m_ncomp := 1;
     m_num_amr_levels := 1;
     m_num_mg_levels := [1%nat];
     m_geom := [[unit_geometry 8]];
     m_a_scalar := 1%Qc;
     m_b_scalar := 1%Qc;
     m_a_coeffs := [[line_field 8 (replicate 8 1%Qc)]];
     m_b_coeffs := [[[line_field 9 (replicate 9 1%Qc)]]];
     m_needs_update := true;
     m_is_singular := [];
     m_lobc := [[Neumann]];
     m_hibc := [[Neumann]];
     m_lobc_orig := [[Neumann]];
     m_hibc_orig := [[Robin]];
     m_domain_covered := [true];
     m_overset_mask := [[None]];
     m_robin_bcval :=
       [Some {| nComp := 3;
                fabs := [{| validbox := MkBox (0, 0, 0) (7, 0, 0);
                            arr := λ _ n, match n with
                                          | O => 0%Qc
                                          | S O => 1%Qc
                                          | _ => Real_of 5 1
                                          end |}] |}];
     mg_coarsen_ratio := 2;
     mg_coarsen_ratio_vec := [] |}.

(** A base level coarsened by 2 in x only between its two relaxation levels,
    with an overset mask on both. *)
Definition semicoarsened_overset : MLABecLaplacian :=
  {| m_ncomp := 1;
     m_num_amr_levels := 1;
     m_num_mg_levels := [2%nat];
     m_geom := [];
     m_a_scalar := 1%Qc;
     m_b_scalar := 1%Qc;
     m_a_coeffs := [];
     m_b_coeffs := [];
     m_needs_update := false;
     m_is_singular := [false];
     m_lobc := [[Neumann; Neumann]];
     m_hibc := [[Neumann; Neumann]];
     m_lobc_orig := [[Neumann; Neumann]];
     m_hibc_orig := [[Neumann; Neumann]];
     m_domain_covered := [true];
     m_overset_mask := [[Some [λ _, 1]; Some [λ _, 1]]];
     m_robin_bcval := [None];
     mg_coarsen_ratio := 2;
     mg_coarsen_ratio_vec := [[2; 1]] |}.


(** ** Coefficient stores after restriction with [a_scalar = 0] *)

(** A level whose coarser relaxation levels are zero-filled (line 185). *)
Definition zero_coarse (lvl : list MultiFab) : list MultiFab :=
  imap (λ mglev mf, if bool_decide (mglev = 0%nat) then mf else setVal 0%Qc mf) lvl.

(** A level whose finest relaxation level is zero-filled (line 94). *)
Definition zero_finest (lvl : list MultiFab) : list MultiFab :=
  imap (λ mglev mf, if bool_decide (mglev = 0%nat) then setVal 0%Qc mf else mf) lvl.

(** Two coefficient stores of the same shape: the same number of AMR levels
    and the same number of relaxation levels on each. *)
Definition same_shape {A} (v v' : list (list A)) : Prop :=
  Forall2 (λ l l', length l' = length l) v v'.

(** What restriction changes: only the two coefficient stores, without
    resizing them, and never the finest relaxation level of AMR level [top]. *)
Definition restricted (top : nat) (st st' : MLABecLaplacian) : Prop :=
  ∃ A' B',
    st' = set_b_coeffs (set_a_coeffs st A') B'
    ∧ same_shape (m_a_coeffs st) A' ∧ same_shape (m_b_coeffs st) B'
    ∧ (A' !! top) ≫= (.!! 0%nat) = (m_a_coeffs st !! top) ≫= (.!! 0%nat)
    ∧ (B' !! top) ≫= (.!! 0%nat) = (m_b_coeffs st !! top) ≫= (.!! 0%nat).

(** ** A line of cells with a Robin condition at its ends *)



(** ** The stencil application *)

(** The two stencil kernels [Fapply] chooses from. *)
Inductive ApplyKernel :=
| mlabeclap_adotx
| mlabeclap_adotx_os.

#[global] Instance ApplyKernel_eq_dec : EqDecision ApplyKernel.
Proof. solve_decision. Defined.

(** Lines 441-484: [Fapply] binds the coefficients and the geometry of the
    level entry, then launches on every tile the kernel chosen at lines
    469-482. *)
Definition Fapply_kernel (AMREX_SPACEDIM : nat) (st : MLABecLaplacian)
    (amrlev mglev : nat) : Result ApplyKernel :=
  acoef ← at2 (m_a_coeffs st) amrlev mglev;
  bcoef ← at2 (m_b_coeffs st) amrlev mglev;
  _ ← foldM (λ idim _, _ ← at_nat bcoef idim; Ok ()) (seq 0 AMREX_SPACEDIM) ();
  geom ← at2 (m_geom st) amrlev mglev;
  osm ← at2 (m_overset_mask st) amrlev mglev;
  Ok (if bool_decide (is_Some osm) then mlabeclap_adotx_os else mlabeclap_adotx).

(** ** Face coefficients from fields *)

(** The source component [setBCoeffs] copies into component [icomp]
    (lines 121-132). *)
Definition beta_component (ncomp : nat) (beta0 : MultiFab) (icomp : nat) : nat :=
  if bool_decide (nComp beta0 = ncomp) then icomp else 0%nat.

(** ** The reach of the Robin folding *)

(** Component [n] of cell [c] lies just inside the valid box [vbx] across a
    face of direction [idim] whose row of outside neighbours is not inside
    the domain and which carries a Robin condition for that component. *)
Definition robin_target (AMREX_SPACEDIM : nat) (st : MLABecLaplacian)
    (domain vbx : Box) (c : Dim3) (n : nat) : Prop :=
  (n < m_ncomp st)%nat
  ∧ ∃ idim, (idim < AMREX_SPACEDIM)%nat
      ∧ ((contains domain (adjCellLo vbx idim) = false
          ∧ at2 (m_lobc_orig st) n idim = Ok Robin
          ∧ ∃ bc, bc ∈ cells (adjCellLo vbx idim) ∧ c = shift bc idim 1)
         ∨ (contains domain (adjCellHi vbx idim) = false
            ∧ at2 (m_hibc_orig st) n idim = Ok Robin
            ∧ ∃ bc, bc ∈ cells (adjCellHi vbx idim) ∧ c = shift bc idim (-1))).

(** One AMR level with one relaxation level of 4 cells on a line and two
    components; component [n] of the face coefficient holds [n + 1]. *)
Definition two_component_operator : MLABecLaplacian :=
  {| m_ncomp := 2;
     m_num_amr_levels := 1;
     m_num_mg_levels := [1%nat];
     m_geom := [[unit_geometry 4]];
     m_a_scalar := 1%Qc;
     m_b_scalar := 1%Qc;
     m_a_coeffs := [[line_field 4 (replicate 4 1%Qc)]];
     m_b_coeffs := [[[{| nComp := 2;
                         fabs := [{| validbox := MkBox (0, 0, 0) (4, 0, 0);
                                     arr := λ _ n, Real_of (Z.of_nat n + 1) 1 |}] |}]]];
     m_needs_update := false;
     m_is_singular := [false];
     m_lobc := [[Neumann]; [Neumann]];
     m_hibc := [[Neumann]; [Neumann]];
     m_lobc_orig := [[Neumann]; [Neumann]];
     m_hibc_orig := [[Neumann]; [Neumann]];
     m_domain_covered := [true];
     m_overset_mask := [[None]];
     m_robin_bcval := [None];
     mg_coarsen_ratio := 2;
     mg_coarsen_ratio_vec := [] |}.

End MLABecLaplacian.

(** * Proofs *)

Lemma wrap_id bits v :
  0 < bits → - 2 ^ (bits - 1) ≤ v < 2 ^ (bits - 1) → wrap bits v = v.
Proof.
  intros Hb Hv. unfold wrap.
  assert (2 ^ bits = 2 * 2 ^ (bits - 1)) as ->.
  { replace bits with (Z.succ (bits - 1)) at 1 by lia.
    rewrite Z.pow_succ_r; lia. }
  rewrite Z.mod_small; lia.
Qed.

Lemma wrap_range bits v :
  0 < bits → - 2 ^ (bits - 1) ≤ wrap bits v < 2 ^ (bits - 1).
Proof.
  intros Hb. unfold wrap.
  assert (2 ^ bits = 2 * 2 ^ (bits - 1)) as Hp.
  { replace bits with (Z.succ (bits - 1)) at 1 by lia.
    rewrite Z.pow_succ_r; lia. }
  assert (0 < 2 ^ (bits - 1)) by (apply Z.pow_pos_nonneg; lia).
  pose proof (Z.mod_pos_bound (v + 2 ^ (bits - 1)) (2 ^ bits)). lia.
Qed.

Lemma wrap_wrap_add bits a b :
  0 < bits → wrap bits (wrap bits a + b) = wrap bits (a + b).
Proof.
  intros Hb. unfold wrap.
  assert (0 < 2 ^ bits) by (apply Z.pow_pos_nonneg; lia).
  f_equal.
  replace ((a + 2 ^ (bits - 1)) mod 2 ^ bits - 2 ^ (bits - 1) + b + 2 ^ (bits - 1))
    with ((a + 2 ^ (bits - 1)) mod 2 ^ bits + b) by lia.
  rewrite Zplus_mod_idemp_l. f_equal. lia.
Qed.

Lemma wrap_add_wrap bits a b :
  0 < bits → wrap bits (a + wrap bits b) = wrap bits (a + b).
Proof.
  intros Hb. rewrite (Z.add_comm a), wrap_wrap_add by done. f_equal. lia.
Qed.

Lemma bind_Ok {A B} (m : Result A) (f : A → Result B) (b : B) :
  m ≫= f = Ok b ↔ ∃ a, m = Ok a ∧ f a = Ok b.
Proof.
  destruct m; simpl; split; try done; try (by intros (? & ? & ?)).
  - intros H. eauto.
  - intros (a' & [= ->] & H). done.
Qed.

Lemma foldl_ext {A St} (f g : St → A → St) (l : list A) (s : St) :
  (∀ s a, f s a = g s a) → foldl f s l = foldl g s l.
Proof.
  intros Hfg. revert s. induction l as [|a l IH]; intros s; [done|].
  simpl. rewrite Hfg. apply IH.
Qed.

Lemma foldl_bind {A B St} (f : St → B → St) (g : A → list B) (l : list A) (s : St) :
  foldl f s (l ≫= g) = foldl (λ s a, foldl f s (g a)) s l.
Proof.
  revert s. induction l as [|a l IH]; intros s; [done|].
  rewrite bind_cons, foldl_app. apply IH.
Qed.

Lemma for_3d_cells {St} (bx : Box) (body : Z → Z → Z → St → St) (s : St) :
  for_3d bx body s = foldl (λ s '(i, j, k), body i j k s) s (cells bx).
Proof.
  unfold for_3d, cells, for_range.
  destruct (smallEnd bx) as [[lox loy] loz], (bigEnd bx) as [[hix hiy] hiz].
  rewrite foldl_bind. apply foldl_ext. intros s1 k.
  rewrite foldl_bind. apply foldl_ext. intros s2 j.
  rewrite foldl_bind. apply foldl_ext. intros s3 i. done.
Qed.

Lemma elem_of_range (lo hi i : Z) : i ∈ range lo hi ↔ lo ≤ i ≤ hi.
Proof. unfold range. rewrite elem_of_seqZ. lia. Qed.

Lemma length_range (lo hi : Z) : Z.of_nat (length (range lo hi)) = Z.max 0 (hi - lo + 1).
Proof. unfold range. rewrite length_seqZ. lia. Qed.

Lemma elem_of_cells (bx : Box) (c : Dim3) : c ∈ cells bx ↔ contains_cell bx c = true.
Proof.
  unfold cells, contains_cell.
  destruct (smallEnd bx) as [[lox loy] loz], (bigEnd bx) as [[hix hiy] hiz].
  destruct c as [[i j] k].
  rewrite !andb_true_iff, !bool_decide_eq_true.
  rewrite list_elem_of_bind. split.
  - intros (k' & Hc & Hk). apply list_elem_of_bind in Hc as (j' & Hc & Hj).
    apply list_elem_of_bind in Hc as (i' & Hc & Hi).
    apply list_elem_of_singleton in Hc. simplify_eq.
    rewrite elem_of_range in Hk, Hj, Hi. done.
  - intros [[Hi Hj] Hk]. exists k. split; [|by apply elem_of_range].
    apply list_elem_of_bind. exists j. split; [|by apply elem_of_range].
    apply list_elem_of_bind. exists i. split; [|by apply elem_of_range].
    by apply list_elem_of_singleton.
Qed.

Lemma NoDup_bind {A B} (f : A → list B) (l : list A) :
  NoDup l → (∀ a, a ∈ l → NoDup (f a)) →
  (∀ a1 a2 y, a1 ∈ l → a2 ∈ l → y ∈ f a1 → y ∈ f a2 → a1 = a2) →
  NoDup (l ≫= f).
Proof.
  induction 1 as [|a l Hnin Hnd IH]; intros Hf Hinj; [constructor|].
  rewrite bind_cons. apply list.NoDup_app. split_and!.
  - apply Hf. left.
  - intros y Hy Hy'. apply list_elem_of_bind in Hy' as (a' & Hy' & Ha').
    assert (a = a') as -> by (eapply Hinj; eauto; [left | by right]). done.
  - apply IH.
    + intros a' Ha'. apply Hf. by right.
    + intros a1 a2 y H1 H2. apply Hinj; by right.
Qed.

Lemma NoDup_cells (bx : Box) : NoDup (cells bx).
Proof.
  unfold cells.
  destruct (smallEnd bx) as [[lox loy] loz], (bigEnd bx) as [[hix hiy] hiz].
  apply NoDup_bind; [apply NoDup_seqZ| |].
  - intros k _. apply NoDup_bind; [apply NoDup_seqZ| |].
    + intros j _. apply NoDup_bind; [apply NoDup_seqZ| |].
      * intros i _. apply NoDup_singleton.
      * intros i1 i2 y _ _ H1 H2.
        apply list_elem_of_singleton in H1, H2. congruence.
    + intros j1 j2 y _ _ H1 H2.
      apply list_elem_of_bind in H1 as (i1 & H1 & _).
      apply list_elem_of_bind in H2 as (i2 & H2 & _).
      apply list_elem_of_singleton in H1, H2. congruence.
  - intros k1 k2 y _ _ H1 H2.
    apply list_elem_of_bind in H1 as (j1 & H1 & _).
    apply list_elem_of_bind in H2 as (j2 & H2 & _).
    apply list_elem_of_bind in H1 as (i1 & H1 & _).
    apply list_elem_of_bind in H2 as (i2 & H2 & _).
    apply list_elem_of_singleton in H1, H2. congruence.
Qed.

Lemma length_bind_const {A B} (f : A → list B) (l : list A) (n : nat) :
  (∀ a, length (f a) = n) → length (l ≫= f) = (length l * n)%nat.
Proof.
  intros Hf. induction l as [|a l IH]; [done|].
  rewrite bind_cons, length_app, Hf, IH. simpl. lia.
Qed.

Lemma length_cells (bx : Box) : Z.of_nat (length (cells bx)) = numPts bx.
Proof.
  unfold cells, numPts.
  destruct (smallEnd bx) as [[lox loy] loz], (bigEnd bx) as [[hix hiy] hiz].
  rewrite (length_bind_const _ _ (length (range loy hiy) * length (range lox hix))%nat).
  - rewrite !Nat2Z.inj_mul, !length_range. lia.
  - intros k. rewrite (length_bind_const _ _ (length (range lox hix))); [done|].
    intros j. rewrite (length_bind_const _ _ 1%nat); [lia|done].
Qed.

Lemma contains_cell_grow (dim : Z) (bx : Box) (n : Z) (c : Dim3) :
  0 ≤ n → contains_cell bx c = true → contains_cell (grow dim bx n) c = true.
Proof.
  intros Hn. unfold contains_cell, grow.
  destruct (smallEnd bx) as [[lox loy] loz], (bigEnd bx) as [[hix hiy] hiz].
  destruct c as [[i j] k]. simpl.
  rewrite !andb_true_iff, !bool_decide_eq_true.
  repeat case_bool_decide; lia.
Qed.

Lemma sumZ_app (l k : list Z) : foldr Z.add 0 (l ++ k) = foldr Z.add 0 l + foldr Z.add 0 k.
Proof. induction l as [|a l IH]; [done|]. simpl. rewrite IH. lia. Qed.

Lemma sumZ_nonneg (l : list Z) : (∀ n, n ∈ l → 0 ≤ n) → 0 ≤ foldr Z.add 0 l.
Proof.
  induction l as [|a l IH]; intros H; simpl; [lia|].
  assert (0 ≤ a) by (apply H; left).
  assert (0 ≤ foldr Z.add 0 l) by (apply IH; intros; apply H; by right). lia.
Qed.

Lemma sumZ_take_le (l : list Z) (i : nat) :
  (∀ n, n ∈ l → 0 ≤ n) → 0 ≤ foldr Z.add 0 (take i l) ≤ foldr Z.add 0 l.
Proof.
  intros H. rewrite <- (take_drop i l) at 3. rewrite sumZ_app.
  assert (0 ≤ foldr Z.add 0 (take i l)).
  { apply sumZ_nonneg. intros n Hn. apply H. eapply subseteq_take, Hn. }
  assert (0 ≤ foldr Z.add 0 (drop i l)).
  { apply sumZ_nonneg. intros n Hn. apply H. eapply subseteq_drop, Hn. }
  lia.
Qed.

Lemma sumZ_elem_le (l : list Z) (n : Z) :
  (∀ n, n ∈ l → 0 ≤ n) → n ∈ l → n ≤ foldr Z.add 0 l.
Proof.
  induction l as [|a l IH]; intros H Hn; [by apply elem_of_nil in Hn|].
  simpl. assert (0 ≤ a) by (apply H; left).
  assert (0 ≤ foldr Z.add 0 l) by (apply sumZ_nonneg; intros; apply H; by right).
  apply elem_of_cons in Hn as [->|Hn]; [lia|].
  assert (n ≤ foldr Z.add 0 l) by (apply IH; [intros; apply H; by right|done]). lia.
Qed.

(** Blocks of consecutive integers laid end to end. *)
Lemma concat_imap_seqZ {A B} (l : list A) (blk : nat → A → list B) (f : B → Z)
    (cnt : A → Z) (start : Z) :
  (∀ a, a ∈ l → 0 ≤ cnt a) →
  (∀ i a, l !! i = Some a →
     f <$> blk i a = seqZ (start + foldr Z.add 0 (cnt <$> take i l)) (cnt a)) →
  f <$> mjoin (imap blk l) = seqZ start (foldr Z.add 0 (cnt <$> l)).
Proof.
  revert blk start. induction l as [|a l IH]; intros blk start Hc Hb; [done|].
  rewrite imap_cons. csimpl. rewrite fmap_app.
  assert (0 ≤ cnt a) by (apply Hc; left).
  assert (0 ≤ foldr Z.add 0 (cnt <$> l)).
  { apply sumZ_nonneg. intros n Hn. apply list_elem_of_fmap in Hn as (a' & -> & Ha').
    apply Hc. by right. }
  rewrite seqZ_app by done. f_equal.
  - rewrite (Hb 0%nat a) by done. csimpl. f_equal. lia.
  - apply IH.
    + intros a' Ha'. apply Hc. by right.
    + intros i a' Hi. csimpl. rewrite (Hb (S i) a') by done. csimpl. f_equal. lia.
Qed.

Module HypreNodeLapFacts.
Import HypreNodeLap.

Section NumberingFacts.
Context (cfg : BuildConfig).
Hypothesis Hsz : 0 < sizeof_Int cfg.

Lemma Int_bits_pos : 0 < Int_bits cfg.
Proof using Hsz. unfold Int_bits. lia. Qed.

Lemma Int_lowest_neg : Int_lowest cfg < 0.
Proof using Hsz.
  unfold Int_lowest. pose proof Int_bits_pos.
  assert (0 < 2 ^ (Int_bits cfg - 1)) by (apply Z.pow_pos_nonneg; lia). lia.
Qed.

Lemma Int_add_id (a b : Z) : 0 ≤ a + b ≤ Int_max cfg → Int_add cfg a b = a + b.
Proof using Hsz.
  intros H. unfold Int_add. apply wrap_id; [apply Int_bits_pos|].
  unfold Int_max in H. pose proof Int_lowest_neg. unfold Int_lowest in *. lia.
Qed.

Lemma int_add_id (a b : Z) : 0 ≤ a + b ≤ int_max → int_add a b = a + b.
Proof. intros H. unfold int_add. apply wrap_id; [done|]. unfold int_max in H. lia. Qed.

(** The numbering loop over a duplicate-free traversal. *)
Lemma foldl_number_step (skip : Dim3 → bool) (l : list Dim3) :
  NoDup l → ∀ (nid0 : Dim3 → Z) (id0 : Z),
  0 ≤ id0 →
  id0 + Z.of_nat (length (filter (λ c, skip c = false) l)) ≤ int_max →
  let r := foldl (number_step cfg skip) (nid0, id0) l in
  r.2 = id0 + Z.of_nat (length (filter (λ c, skip c = false) l))
  ∧ (∀ c, c ∉ l → r.1 c = nid0 c)
  ∧ (∀ c, c ∈ l → skip c = true → r.1 c = Int_lowest cfg)
  ∧ r.1 <$> filter (λ c, skip c = false) l
    = seqZ id0 (Z.of_nat (length (filter (λ c, skip c = false) l))).
Proof using Hsz.
  induction 1 as [|c l Hnin Hnd IH]; intros nid0 id0 Hid0 Hmax; simpl.
  { split_and!; [lia|done| |done]. intros c Hc. by apply elem_of_nil in Hc. }
  rewrite filter_cons in *. destruct (skip c) eqn:Hskip.
  - rewrite decide_False in * by done.
    destruct (IH (<[c:=Int_lowest cfg]> nid0) id0 Hid0 Hmax) as (Hn & Hout & Hin & Hl).
    split_and!; [done| | |done].
    + intros c' Hc'. apply not_elem_of_cons in Hc' as [Hne Hc'].
      rewrite Hout by done. by rewrite fn_lookup_insert_ne.
    + intros c' Hc' Hs. apply elem_of_cons in Hc' as [->|Hc']; [|by apply Hin].
      rewrite Hout by done. by rewrite fn_lookup_insert.
  - rewrite decide_True in * by done. simpl in Hmax.
    rewrite int_add_id by lia.
    destruct (IH (<[c:=id0]> nid0) (id0 + 1)) as (Hn & Hout & Hin & Hl); [lia|lia|].
    split_and!.
    + rewrite Hn. simpl. lia.
    + intros c' Hc'. apply not_elem_of_cons in Hc' as [Hne Hc'].
      rewrite Hout by done. by rewrite fn_lookup_insert_ne.
    + intros c' Hc' Hs. apply elem_of_cons in Hc' as [->|Hc']; [congruence|].
      by apply Hin.
    + rewrite fmap_cons, Hl, Hout, fn_lookup_insert by done.
      rewrite (seqZ_cons id0) by (simpl; lia). f_equal. f_equal; simpl; lia.
Qed.

(** Either numbering loop is the generic step over the traversal order. *)
Lemma number_patch_step (ebfactory : bool) (p : Patch) (nid0 : Dim3 → Z) :
  (if AMREX_USE_EB cfg && ebfactory then number_patch_eb cfg p nid0
   else number_patch cfg p nid0)
  = foldl (number_step cfg (λ c, negb (retained cfg ebfactory p c))) (nid0, 0)
      (cells (ndbx p)).
Proof.
  unfold number_patch_eb, number_patch, retained.
  destruct (AMREX_USE_EB cfg && ebfactory); rewrite for_3d_cells;
    apply foldl_ext; intros [nid id] [[i j] k]; unfold number_step; simpl;
    destruct (bool_decide (owner p (i, j, k) = 0) || bool_decide (dirichlet p (i, j, k) ≠ 0));
    simpl; try done.
  by destruct (all_covered cfg (flag_isCovered p) i j k).
Qed.

Lemma retained_cells_filter (ebfactory : bool) (p : Patch) :
  filter (λ c, negb (retained cfg ebfactory p c) = false) (cells (ndbx p))
  = retained_cells cfg ebfactory p.
Proof.
  unfold retained_cells. apply list_filter_iff. intros c.
  by destruct (retained cfg ebfactory p c).
Qed.

Lemma elem_of_retained_cells (ebfactory : bool) (p : Patch) (c : Dim3) :
  c ∈ retained_cells cfg ebfactory p
  ↔ contains_cell (ndbx p) c = true ∧ retained cfg ebfactory p c = true.
Proof.
  unfold retained_cells. rewrite list_elem_of_filter, elem_of_cells. tauto.
Qed.

Lemma retained_count_nonneg (ebfactory : bool) (p : Patch) :
  0 ≤ retained_count cfg ebfactory p.
Proof. unfold retained_count. lia. Qed.

Lemma retained_count_le_numPts (ebfactory : bool) (p : Patch) :
  retained_count cfg ebfactory p ≤ numPts (ndbx p).
Proof.
  unfold retained_count, retained_cells. rewrite <- length_cells.
  apply inj_le, length_filter.
Qed.

(** Local numbering of one patch (lines 72-108 and 124-141). *)
Lemma number_patch_spec (ebfactory : bool) (p : Patch) :
  retained_count cfg ebfactory p ≤ int_max →
  let r := (if AMREX_USE_EB cfg && ebfactory
            then number_patch_eb cfg p (λ _, Int_lowest cfg)
            else number_patch cfg p (λ _, Int_lowest cfg)) in
  r.2 = retained_count cfg ebfactory p
  ∧ (∀ c, c ∉ retained_cells cfg ebfactory p → r.1 c = Int_lowest cfg)
  ∧ r.1 <$> retained_cells cfg ebfactory p = seqZ 0 (retained_count cfg ebfactory p).
Proof using Hsz.
  intros Hmax. rewrite number_patch_step. unfold retained_count in *.
  pose proof (foldl_number_step (λ c, negb (retained cfg ebfactory p c))
    (cells (ndbx p)) (NoDup_cells _) (λ _, Int_lowest cfg) 0) as H.
  cbv beta in H. rewrite retained_cells_filter in H.
  destruct H as (Hn & Hout & Hin & Hl); [lia|lia|].
  split_and!; [by rewrite Hn | | done].
  intros c Hc. rewrite elem_of_retained_cells, <- elem_of_cells in Hc.
  destruct (decide (c ∈ cells (ndbx p))) as [Hc'|Hc']; [|by apply Hout].
  apply Hin; [done|]. destruct (retained cfg ebfactory p c); [tauto|done].
Qed.

(** [fill_node_id] on one patch numbered from zero. *)
Lemma fill_node_id_fab_spec (ebfactory : bool) (p : Patch) (os : Z) (nid : Dim3 → Z) :
  0 ≤ os → os + retained_count cfg ebfactory p ≤ Int_max cfg →
  (∀ c, c ∉ retained_cells cfg ebfactory p → nid c = Int_lowest cfg) →
  nid <$> retained_cells cfg ebfactory p = seqZ 0 (retained_count cfg ebfactory p) →
  fill_node_id_fab cfg os p nid <$> retained_cells cfg ebfactory p
    = seqZ os (retained_count cfg ebfactory p)
  ∧ (∀ c, contains_cell (grow (AMREX_SPACEDIM cfg) (ndbx p) 1) c = true →
          c ∉ retained_cells cfg ebfactory p → fill_node_id_fab cfg os p nid c = -1).
Proof using Hsz.
  intros Hos Hmax Hout Hl. split.
  - rewrite <- (Z.add_0_r os) at 2. rewrite <- fmap_add_seqZ, <- Hl, <- list_fmap_compose.
    apply list_fmap_ext. intros i c Hc. simpl.
    assert (c ∈ retained_cells cfg ebfactory p) as Hin by (eapply list_elem_of_lookup_2, Hc).
    assert (nid c ∈ seqZ 0 (retained_count cfg ebfactory p)) as Hr.
    { rewrite <- Hl. by apply list_elem_of_fmap_2. }
    apply elem_of_seqZ in Hr.
    unfold fill_node_id_fab.
    apply elem_of_retained_cells in Hin as [Hin _].
    rewrite contains_cell_grow by (done || lia).
    rewrite bool_decide_eq_true_2 by lia.
    rewrite Int_add_id by lia. lia.
  - intros c Hg Hc. unfold fill_node_id_fab. rewrite Hg, Hout by done.
    pose proof Int_lowest_neg. by rewrite bool_decide_eq_false_2 by lia.
Qed.

Lemma wrap_Int_id (v : Z) : 0 ≤ v ≤ Int_max cfg → wrap (Int_bits cfg) v = v.
Proof using Hsz. intros H. rewrite <- (Z.add_0_r v). by apply Int_add_id; lia. Qed.

(** Sums of [Int]s are exact sums reduced once. *)
Lemma sum_Int_wrap (a : Z) (l : list Z) :
  sum_Int cfg (wrap (Int_bits cfg) a) l = wrap (Int_bits cfg) (a + sumZ l).
Proof using Hsz.
  revert a. induction l as [|n l IH]; intros a; simpl.
  - f_equal. lia.
  - change (sum_Int cfg (wrap (Int_bits cfg) a) (n :: l))
      with (sum_Int cfg (Int_add cfg (wrap (Int_bits cfg) a) n) l).
    unfold Int_add. rewrite wrap_wrap_add by apply Int_bits_pos.
    rewrite IH. f_equal. unfold sumZ. simpl. lia.
Qed.

Lemma sum_Int_0 (l : list Z) : sum_Int cfg 0 l = wrap (Int_bits cfg) (sumZ l).
Proof using Hsz.
  rewrite <- (wrap_id (Int_bits cfg) 0) at 1.
  - by rewrite sum_Int_wrap.
  - apply Int_bits_pos.
  - pose proof Int_lowest_neg. unfold Int_lowest in *. lia.
Qed.

Lemma offsets_spec (a : Z) (l : list Z) :
  let r := offsets cfg (wrap (Int_bits cfg) a) l in
  r.2 = wrap (Int_bits cfg) (a + sumZ l)
  ∧ length r.1 = length l
  ∧ ∀ i, (i < length l)%nat →
      r.1 !! i = Some (wrap (Int_bits cfg) (a + sumZ (take i l))).
Proof using Hsz.
  revert a. induction l as [|n l IH]; intros a; simpl.
  { split_and!; [f_equal; lia|done|intros; lia]. }
  unfold Int_add. rewrite wrap_wrap_add by apply Int_bits_pos.
  specialize (IH (a + n)).
  destruct (offsets cfg (wrap (Int_bits cfg) (a + n)) l) as [os e].
  simpl in *. destruct IH as (He & Hlen & Hi). split_and!.
  - rewrite He. f_equal. unfold sumZ. lia.
  - by rewrite Hlen.
  - intros [|i] Hlt; simpl.
    + do 2 f_equal. lia.
    + rewrite Hi by lia. do 2 f_equal. unfold sumZ. lia.
Qed.

(** The closing assertion of the numbering (line 169) can never fire. *)
Lemma number_nodes_total (ebfactory : bool) (world : list (list Patch)) (myid : nat) :
  ∃ num, number_nodes cfg ebfactory world myid = Ok num.
Proof using Hsz.
  unfold number_nodes.
  set (g := snd <$> count_nodes cfg ebfactory (world !!! myid)).
  set (pb := sum_Int cfg 0 (take myid (MPI_Allgather cfg ebfactory world))).
  assert (pb = wrap (Int_bits cfg) (sumZ (take myid (MPI_Allgather cfg ebfactory world))))
    as Hpb by apply sum_Int_0.
  pose proof (offsets_spec (sumZ (take myid (MPI_Allgather cfg ebfactory world))) g)
    as (He & _ & _).
  rewrite <- Hpb in He. destruct (offsets cfg pb g) as [os e]. simpl in He.
  rewrite bool_decide_eq_true_2; [simpl; eauto|].
  rewrite He, sum_Int_0, Hpb. unfold Int_add.
  rewrite wrap_wrap_add, wrap_add_wrap by apply Int_bits_pos. done.
Qed.

Lemma count_nodes_snd (ebfactory : bool) (ps : list Patch) :
  (∀ p, p ∈ ps → retained_count cfg ebfactory p ≤ int_max) →
  snd <$> count_nodes cfg ebfactory ps = retained_count cfg ebfactory <$> ps.
Proof using Hsz.
  intros H. unfold count_nodes. rewrite <- list_fmap_compose.
  apply list_fmap_ext. intros i p Hp. simpl.
  apply number_patch_spec, H. eapply list_elem_of_lookup_2, Hp.
Qed.

Lemma proc_count_nonneg (ebfactory : bool) (ps : list Patch) :
  0 ≤ proc_count cfg ebfactory ps.
Proof.
  apply sumZ_nonneg. intros n Hn.
  apply list_elem_of_fmap in Hn as (p & -> & _). apply retained_count_nonneg.
Qed.

Section World.
Context (ebfactory : bool) (world : list (list Patch)).
Hypothesis H32 :
  ∀ ps p, ps ∈ world → p ∈ ps → retained_count cfg ebfactory p ≤ int_max.
Hypothesis HInt : total_count cfg ebfactory world ≤ Int_max cfg.

Lemma proc_count_le_total (ps : list Patch) :
  ps ∈ world → proc_count cfg ebfactory ps ≤ total_count cfg ebfactory world.
Proof.
  intros Hps. apply sumZ_elem_le.
  - intros n Hn. apply list_elem_of_fmap in Hn as (ps' & -> & _).
    apply proc_count_nonneg.
  - by apply list_elem_of_fmap_2.
Qed.

Lemma allgather_counts :
  MPI_Allgather cfg ebfactory world = proc_count cfg ebfactory <$> world.
Proof using Hsz H32 HInt.
  unfold MPI_Allgather. apply list_fmap_ext. intros r ps Hps.
  assert (ps ∈ world) as Hin by (eapply list_elem_of_lookup_2, Hps).
  unfold nnodes_proc_of. rewrite count_nodes_snd by (intros; by eapply H32).
  rewrite sum_Int_0. apply wrap_Int_id.
  pose proof (proc_count_nonneg ebfactory ps).
  pose proof (proc_count_le_total ps Hin). unfold proc_count in *. lia.
Qed.

Lemma take_counts_bounds (r : nat) :
  0 ≤ sumZ (take r (proc_count cfg ebfactory <$> world))
    ≤ total_count cfg ebfactory world.
Proof.
  apply sumZ_take_le. intros n Hn.
  apply list_elem_of_fmap in Hn as (ps' & -> & _). apply proc_count_nonneg.
Qed.

Lemma number_nodes_spec (r : nat) (ps : list Patch) :
  world !! r = Some ps →
  ∃ num, number_nodes cfg ebfactory world r = Ok num
    ∧ proc_begin num = sumZ (take r (proc_count cfg ebfactory <$> world))
    ∧ proc_end num = proc_begin num + proc_count cfg ebfactory ps
    ∧ num_nnodes_grid num = retained_count cfg ebfactory <$> ps
    ∧ nnodes_total num = total_count cfg ebfactory world
    ∧ ∀ i p, ps !! i = Some p →
        let os := proc_begin num + sumZ (retained_count cfg ebfactory <$> take i ps) in
        num_offset num !! i = Some os
        ∧ ∃ nid, num_node_id num !! i = Some nid
           ∧ nid <$> retained_cells cfg ebfactory p
             = seqZ os (retained_count cfg ebfactory p)
           ∧ ∀ c, contains_cell (grow (AMREX_SPACEDIM cfg) (ndbx p) 1) c = true →
                  c ∉ retained_cells cfg ebfactory p → nid c = -1.
Proof using Hsz H32 HInt.
  intros Hps.
  assert (ps ∈ world) as Hin by (eapply list_elem_of_lookup_2, Hps).
  pose proof (proc_count_le_total ps Hin) as Hle.
  pose proof (proc_count_nonneg ebfactory ps) as Hnn.
  pose proof (take_counts_bounds r) as Hpb.
  pose proof (take_counts_bounds (length world)) as Htot.
  rewrite firstn_all2 in Htot by (rewrite length_fmap; lia).
  assert (sumZ (take r (proc_count cfg ebfactory <$> world))
          + proc_count cfg ebfactory ps ≤ total_count cfg ebfactory world) as Hend.
  { rewrite <- (take_drop r (proc_count cfg ebfactory <$> world)) in Htot.
    unfold total_count. rewrite <- (take_drop_middle world r ps Hps) at 2.
    rewrite fmap_app, fmap_cons. unfold sumZ. rewrite sumZ_app. simpl.
    rewrite <- fmap_take.
    assert (0 ≤ foldr Z.add 0 (proc_count cfg ebfactory <$> drop (S r) world)).
    { apply sumZ_nonneg. intros n Hn.
      apply list_elem_of_fmap in Hn as (ps' & -> & _). apply proc_count_nonneg. }
    unfold sumZ. lia. }
  unfold number_nodes.
  rewrite (list_lookup_total_correct _ _ _ Hps).
  rewrite count_nodes_snd by (intros; by eapply H32).
  rewrite allgather_counts, !sum_Int_0.
  rewrite (wrap_Int_id (sumZ (take r _))) by lia.
  rewrite (wrap_Int_id (sumZ (proc_count cfg ebfactory <$> world)))
    by (unfold total_count in *; lia).
  rewrite (wrap_Int_id (sumZ (retained_count cfg ebfactory <$> ps)))
    by (unfold proc_count in *; lia).
  set (pb := sumZ (take r (proc_count cfg ebfactory <$> world))) in *.
  pose proof (offsets_spec pb (retained_count cfg ebfactory <$> ps)) as Hoff.
  rewrite (wrap_Int_id pb) in Hoff by lia.
  destruct (offsets cfg pb (retained_count cfg ebfactory <$> ps)) as [os e].
  simpl in Hoff. destruct Hoff as (He & Hlen & Hos).
  rewrite wrap_Int_id in He by (unfold proc_count in *; lia).
  rewrite bool_decide_eq_true_2
    by (rewrite He, Int_add_id; unfold proc_count in *; lia).
  simpl. eexists. split; [done|]. simpl. split_and!; try done.
  intros i p Hp.
  assert (i < length ps)%nat as Hi by (eapply lookup_lt_Some, Hp).
  assert (p ∈ ps) as Hpin by (eapply list_elem_of_lookup_2, Hp).
  pose proof (retained_count_nonneg ebfactory p) as Hcnt.
  assert (0 ≤ sumZ (retained_count cfg ebfactory <$> take i ps)
          ∧ sumZ (retained_count cfg ebfactory <$> take i ps)
            + retained_count cfg ebfactory p ≤ proc_count cfg ebfactory ps) as Hb.
  { unfold proc_count. rewrite <- (take_drop_middle ps i p Hp) at 3.
    rewrite fmap_app, fmap_cons. unfold sumZ. rewrite sumZ_app. simpl.
    assert (0 ≤ foldr Z.add 0 (retained_count cfg ebfactory <$> drop (S i) ps)).
    { apply sumZ_nonneg. intros n Hn.
      apply list_elem_of_fmap in Hn as (p' & -> & _). apply retained_count_nonneg. }
    assert (0 ≤ foldr Z.add 0 (retained_count cfg ebfactory <$> take i ps)).
    { apply sumZ_nonneg. intros n Hn.
      apply list_elem_of_fmap in Hn as (p' & -> & _). apply retained_count_nonneg. }
    pose proof (retained_count_nonneg ebfactory p). lia. }
  assert (os !! i = Some (pb + sumZ (retained_count cfg ebfactory <$> take i ps)))
    as Hosi.
  { rewrite Hos by (rewrite length_fmap; lia).
    rewrite <- fmap_take. f_equal. apply wrap_Int_id. lia. }
  split; [done|].
  pose proof (number_patch_spec ebfactory p (H32 ps p Hin Hpin)) as (_ & Hout & Hl).
  eexists. split.
  - unfold fill_node_id. rewrite lookup_zip_with.
    rewrite (proj2 (lookup_zip_Some _ _ _ _ _) (conj Hosi Hp)). simpl.
    rewrite list_lookup_fmap. unfold count_nodes. rewrite list_lookup_fmap, Hp.
    simpl. done.
  - apply fill_node_id_fab_spec; [lia|lia|done|done].
Qed.

End World.

Lemma node_id_at_num (ebfactory : bool) (world : list (list Patch)) (r i : nat)
    (num : Numbering) (nid : Dim3 → Z) (c : Dim3) :
  number_nodes cfg ebfactory world r = Ok num →
  num_node_id num !! i = Some nid →
  node_id_at cfg ebfactory world r i c = nid c.
Proof. intros Hn Hi. unfold node_id_at. by rewrite Hn, Hi. Qed.

Lemma elem_of_positions (ebfactory : bool) (world : list (list Patch))
    (r i : nat) (c : Dim3) :
  (r, i, c) ∈ positions cfg ebfactory world
  ↔ ∃ ps p, world !! r = Some ps ∧ ps !! i = Some p
            ∧ c ∈ retained_cells cfg ebfactory p.
Proof.
  unfold positions. rewrite list_elem_of_join. split.
  - intros (l & Hc & Hl). apply elem_of_lookup_imap in Hl as (r' & ps & -> & Hps).
    apply list_elem_of_join in Hc as (l' & Hc & Hl').
    apply elem_of_lookup_imap in Hl' as (i' & p & -> & Hp).
    apply list_elem_of_fmap in Hc as (c' & [= -> -> ->] & Hc'). eauto.
  - intros (ps & p & Hps & Hp & Hc). eexists. split.
    + apply list_elem_of_join. eexists. split.
      * by apply (list_elem_of_fmap_2 (λ c, (r, i, c))).
      * apply (elem_of_lookup_imap_2 (λ i p, (λ c, (r, i, c)) <$> retained_cells cfg ebfactory p)), Hp.
    + apply (elem_of_lookup_imap_2 (λ r ps, mjoin (imap (λ i p, (λ c, (r, i, c)) <$> retained_cells cfg ebfactory p) ps))), Hps.
Qed.

End NumberingFacts.

Lemma NoDup_fmap_inj_on {A B} (f : A → B) (l : list A) :
  NoDup (f <$> l) → ∀ a1 a2, a1 ∈ l → a2 ∈ l → f a1 = f a2 → a1 = a2.
Proof.
  induction l as [|a l IH]; intros Hnd a1 a2 H1 H2 Heq.
  { by apply elem_of_nil in H1. }
  rewrite fmap_cons in Hnd. apply list.NoDup_cons in Hnd as [Hnin Hnd].
  apply elem_of_cons in H1 as [->|H1], H2 as [->|H2]; [done| | |by apply IH].
  - exfalso. apply Hnin. rewrite Heq. by apply list_elem_of_fmap_2.
  - exfalso. apply Hnin. rewrite <- Heq. by apply list_elem_of_fmap_2.
Qed.

Lemma fmap_positions_rank (cfg : BuildConfig) (ebfactory : bool)
    (world : list (list Patch)) (r : nat) (qs : list Patch) (g : nat → nat) :
  (λ '(r, i, c), node_id_at cfg ebfactory world r i c)
    <$> mjoin (imap (λ i p, (λ c, (r, g i, c)) <$> retained_cells cfg ebfactory p) qs)
  = mjoin (imap (λ i p, node_id_at cfg ebfactory world r (g i)
                          <$> retained_cells cfg ebfactory p) qs).
Proof.
  revert g. induction qs as [|p qs IH]; intros g; [done|].
  rewrite !imap_cons. csimpl. rewrite fmap_app. f_equal.
  - by rewrite <- list_fmap_compose.
  - exact (IH (λ i, g (S i))).
Qed.

(** C6: after the numbering phase (the local loops, the gather of the
    per-process counts, the offsets and [fill_node_id]) the ids on the
    retained nodes, read in rank order, patch order and row-major traversal
    order (x fastest), are exactly 0, 1, ..., N-1, where N is the sum of the
    processes' retained counts; the retained nodes are the nodes of a
    patch's box that the patch owns, that are not Dirichlet and that are
    not covered.  Hence the id map is a bijection from the
    retained nodes onto [0, N); every process holds the contiguous block
    [proc_begin, proc_end), the blocks follow one another in rank order;
    every patch holds the consecutive ids from its offset in traversal
    order; every other position of a patch's grown box holds -1.  On one
    process with one 4 x 4 patch and no masking node (i, j) gets id i + 4 j.
    The statement is for runs without integer overflow: each patch's count
    fits [int] and N fits [Int]. *)
Theorem node_numbering_bijection (cfg : BuildConfig) (ebfactory : bool)
    (world : list (list Patch)) :
  0 < sizeof_Int cfg →
  (∀ ps p, ps ∈ world → p ∈ ps → retained_count cfg ebfactory p ≤ int_max) →
  total_count cfg ebfactory world ≤ Int_max cfg →
  let N := total_count cfg ebfactory world in
  let id_of : nat * nat * Dim3 → Z :=
    λ '(r, i, c), node_id_at cfg ebfactory world r i c in
  N = sumZ (MPI_Allgather cfg ebfactory world)
  ∧ id_of <$> positions cfg ebfactory world = seqZ 0 N
  ∧ (∀ r i c, (r, i, c) ∈ positions cfg ebfactory world
       ↔ ∃ ps p, world !! r = Some ps ∧ ps !! i = Some p
           ∧ contains_cell (ndbx p) c = true
           ∧ retained cfg ebfactory p c = true)
  ∧ (∀ q1 q2, q1 ∈ positions cfg ebfactory world →
       q2 ∈ positions cfg ebfactory world → id_of q1 = id_of q2 → q1 = q2)
  ∧ (∀ g, 0 ≤ g < N → ∃ q, q ∈ positions cfg ebfactory world ∧ id_of q = g)
  ∧ (∀ r ps, world !! r = Some ps →
       ∃ num, number_nodes cfg ebfactory world r = Ok num
         ∧ proc_begin num = sumZ (take r (MPI_Allgather cfg ebfactory world))
         ∧ proc_end num = proc_begin num + proc_count cfg ebfactory ps
         ∧ (∀ ps' num', world !! S r = Some ps' →
              number_nodes cfg ebfactory world (S r) = Ok num' →
              proc_begin num' = proc_end num)
         ∧ mjoin (imap (λ i p, node_id_at cfg ebfactory world r i
                                 <$> retained_cells cfg ebfactory p) ps)
           = seqZ (proc_begin num) (proc_count cfg ebfactory ps)
         ∧ ∀ i p, ps !! i = Some p →
             ∃ os, num_offset num !! i = Some os
               ∧ node_id_at cfg ebfactory world r i <$> retained_cells cfg ebfactory p
                 = seqZ os (retained_count cfg ebfactory p)
               ∧ ∀ c, contains_cell (grow (AMREX_SPACEDIM cfg) (ndbx p) 1) c = true →
                      c ∉ retained_cells cfg ebfactory p →
                      node_id_at cfg ebfactory world r i c = -1)
  ∧ (∀ i j, 0 ≤ i ≤ 3 → 0 ≤ j ≤ 3 →
       node_id_at release_cfg false scenario_C_world 0 0 (i, j, 0) = i + 4 * j).
Proof.
  intros Hsz H32 HInt N id_of.
  pose proof (allgather_counts cfg Hsz ebfactory world H32 HInt) as Hall.
  assert (∀ r ps i p, world !! r = Some ps → ps !! i = Some p →
    node_id_at cfg ebfactory world r i <$> retained_cells cfg ebfactory p
    = seqZ (sumZ (take r (proc_count cfg ebfactory <$> world))
            + sumZ (retained_count cfg ebfactory <$> take i ps))
        (retained_count cfg ebfactory p)) as Hpatch.
  { intros r ps i p Hps Hp.
    destruct (number_nodes_spec cfg Hsz ebfactory world H32 HInt r ps Hps)
      as (num & Hnum & Hpb & _ & _ & _ & Hi).
    destruct (Hi i p Hp) as (_ & nid & Hnid & Hl & _).
    rewrite <- Hpb, <- Hl. apply list_fmap_ext. intros k c _.
    by apply node_id_at_num with num. }
  assert (∀ r ps, world !! r = Some ps →
    mjoin (imap (λ i p, node_id_at cfg ebfactory world r i
                          <$> retained_cells cfg ebfactory p) ps)
    = seqZ (sumZ (take r (proc_count cfg ebfactory <$> world)))
        (proc_count cfg ebfactory ps)) as Hproc.
  { intros r ps Hps.
    rewrite <- (list_fmap_id (mjoin _)).
    apply (concat_imap_seqZ ps _ id (retained_count cfg ebfactory)).
    - intros p _. apply retained_count_nonneg.
    - intros i p Hp. rewrite list_fmap_id. unfold sumZ in Hpatch. by apply Hpatch. }
  assert (id_of <$> positions cfg ebfactory world = seqZ 0 N) as Hids.
  { unfold positions, N, total_count.
    apply (concat_imap_seqZ world _ id_of (proc_count cfg ebfactory)).
    - intros ps _. apply proc_count_nonneg.
    - intros r ps Hps. rewrite Z.add_0_l, fmap_take.
      etrans; [apply (fmap_positions_rank cfg ebfactory world r ps (λ i, i))|].
      by apply Hproc. }
  split_and!.
  - by rewrite Hall.
  - done.
  - intros r i c. rewrite elem_of_positions.
    by setoid_rewrite elem_of_retained_cells.
  - apply NoDup_fmap_inj_on. rewrite Hids. apply NoDup_seqZ.
  - intros g Hg. assert (g ∈ id_of <$> positions cfg ebfactory world) as Hin.
    { rewrite Hids. apply elem_of_seqZ. lia. }
    apply list_elem_of_fmap in Hin as (q & -> & Hq). eauto.
  - intros r ps Hps.
    destruct (number_nodes_spec cfg Hsz ebfactory world H32 HInt r ps Hps)
      as (num & Hnum & Hpb & Hpe & _ & _ & Hi).
    exists num. split_and!; try done.
    + by rewrite Hall.
    + intros ps' num' Hps' Hnum'.
      destruct (number_nodes_spec cfg Hsz ebfactory world H32 HInt (S r) ps' Hps')
        as (num'' & Hnum'' & Hpb' & _).
      rewrite Hnum' in Hnum''. injection Hnum'' as <-.
      rewrite Hpb', Hpe, Hpb.
      rewrite (take_S_r _ r (proc_count cfg ebfactory ps))
        by (by rewrite list_lookup_fmap, Hps).
      unfold sumZ. rewrite sumZ_app. simpl. lia.
    + rewrite Hpb. by apply Hproc.
    + intros i p Hp. destruct (Hi i p Hp) as (Hos & nid & Hnid & Hl & Hout).
      eexists. split; [done|]. split.
      * rewrite Hpb. by apply Hpatch.
      * intros c Hg Hc. rewrite (node_id_at_num cfg ebfactory world r i num nid) by done.
        by apply Hout.
  - intros i j Hi Hj.
    assert (i = 0 ∨ i = 1 ∨ i = 2 ∨ i = 3) as Hi' by lia.
    assert (j = 0 ∨ j = 1 ∨ j = 2 ∨ j = 3) as Hj' by lia.
    destruct Hi' as [->|[->|[->| ->]]], Hj' as [->|[->|[->| ->]]];
      vm_compute; reflexivity.
Qed.

Lemma foldM_ok {A St} (body : A → St → Result St) (l : list A) (s : St) :
  (∀ a s, ∃ s', body a s = Ok s') → ∃ s', foldM body l s = Ok s'.
Proof.
  intros Hb. revert s. induction l as [|a l IH]; intros s; simpl; [eauto|].
  destruct (Hb a s) as [s' ->]. simpl. apply IH.
Qed.

Lemma length_filter_all {A} (P : A → Prop) `{!∀ a, Decision (P a)} (l : list A) :
  (∀ a, a ∈ l → P a) → length (filter P l) = length l.
Proof.
  induction l as [|a l IH]; intros Hall; [done|].
  rewrite filter_cons, decide_True by (apply Hall; left).
  simpl. f_equal. apply IH. intros; apply Hall; by right.
Qed.

Section AssemblerFacts.
Context (cfg : BuildConfig).
Context (exchange_node_id : list (Dim3 → Z) → list (Dim3 → Z)).
Context (linop : MLNodeLinOp).

Lemma total_count_le_numPts (ebfactory : bool) (world : list (list Patch)) :
  total_count cfg ebfactory world
  ≤ foldr Z.add 0 ((numPts ∘ ndbx) <$> mjoin world).
Proof.
  unfold total_count, sumZ.
  induction world as [|ps world IH]; [done|].
  csimpl. rewrite fmap_app, sumZ_app.
  assert (proc_count cfg ebfactory ps ≤ foldr Z.add 0 (numPts ∘ ndbx <$> ps)).
  { unfold proc_count, sumZ. clear IH. induction ps as [|p ps IH]; [done|].
    csimpl. pose proof (retained_count_le_numPts cfg ebfactory p). lia. }
  lia.
Qed.

(** Without AMREX_DEBUG the assembly loop contains no assertion, and
    without the adjust-singular-matrix option it reads no [rows[0]]. *)
Lemma assemble_matrix_ok (nnodes_total : Z) (ps : list Patch)
    (nnodes_grid : list Z) (node_id : list (Dim3 → Z)) :
  AMREX_DEBUG cfg = false →
  ∃ r, assemble_matrix cfg linop false nnodes_total ps nnodes_grid node_id = Ok r.
Proof.
  intros Hd. unfold assemble_matrix. apply foldM_ok.
  intros [i p] [vecs A]. unfold assemble_patch, debug_check_cols, pin_row0.
  rewrite Hd. case_bool_decide; simpl; eauto.
Qed.

Lemma construct_release_ok (ebfactory : bool) (world : list (list Patch)) (myid : nat) :
  0 < sizeof_Int cfg →
  AMREX_DEBUG cfg = false → AMREX_TESTING cfg = false →
  ∃ st, construct cfg exchange_node_id linop ebfactory false world myid = Ok st.
Proof.
  intros Hsz Hd Ht. unfold construct, check_index_width. rewrite Hd, Ht. simpl.
  destruct (number_nodes_total cfg Hsz ebfactory world myid) as [num ->]. simpl.
  destruct (assemble_matrix_ok (nnodes_total num) (world !!! myid)
              (num_nnodes_grid num) (exchange_node_id (num_node_id num)) Hd)
    as [[vecs A] ->].
  simpl. eauto.
Qed.

End AssemblerFacts.

Lemma retained_count_plain (cfg : BuildConfig) (bx : Box) :
  retained_count cfg false (plain_patch bx) = numPts bx.
Proof.
  unfold retained_count, retained_cells. rewrite length_filter_all.
  - apply length_cells.
  - intros [[i j] k] _. unfold retained. simpl.
    by rewrite andb_false_r.
Qed.

(** C3, counterexample: in a build without AMREX_DEBUG and AMREX_TESTING,
    with a 4-byte [Int], a process holding 2^31 retained nodes is constructed
    without any fatal error. *)
Lemma index_overflow_undetected :
  Int_max release_cfg < total_count release_cfg false large_world
  ∧ ∃ st, construct release_cfg (λ node_id, node_id) (identity_linop false)
            false false large_world 0 = Ok st.
Proof.
  split.
  - unfold total_count, proc_count, large_world. csimpl.
    rewrite !retained_count_plain. vm_compute. done.
  - apply construct_release_ok; done.
Qed.

(** C3, as the code has it: the index-width check exists only in builds with
    AMREX_DEBUG or AMREX_TESTING and only when [Int] is narrower than [Long];
    there it measures the number of nodes of all patches of all processes,
    retained or not, and construction fails when that number is not below
    the largest [Int].  Retained nodes are among those nodes, so in these
    builds a retained total beyond the range of [Int] is fatal as well.  In
    every other build the check does nothing. *)
Theorem index_width_check (cfg : BuildConfig)
    (exchange_node_id : list (Dim3 → Z) → list (Dim3 → Z)) (linop : MLNodeLinOp)
    (ebfactory adjust : bool) (world : list (list Patch)) (myid : nat) :
  0 < sizeof_Long cfg →
  0 ≤ foldr Z.add 0 ((numPts ∘ ndbx) <$> mjoin world) < 2 ^ (Long_bits cfg - 1) →
  let nnodes_grids := foldr Z.add 0 ((numPts ∘ ndbx) <$> mjoin world) in
  let fatal : Result HypreNodeLap :=
    Abort "You might need to configure Hypre with --enable-bigint" in
  ((AMREX_DEBUG cfg || AMREX_TESTING cfg) = true →
   sizeof_Int cfg < sizeof_Long cfg →
   (Int_max cfg ≤ nnodes_grids →
      construct cfg exchange_node_id linop ebfactory adjust world myid = fatal)
   ∧ (Int_max cfg < total_count cfg ebfactory world →
      construct cfg exchange_node_id linop ebfactory adjust world myid = fatal)
   ∧ (nnodes_grids < Int_max cfg → check_index_width cfg world = Ok ()))
  ∧ ((AMREX_DEBUG cfg || AMREX_TESTING cfg) = false ∨ sizeof_Long cfg ≤ sizeof_Int cfg →
     check_index_width cfg world = Ok ()).
Proof.
  intros HL Hfit nnodes_grids fatal.
  assert (nba_numPts cfg world = nnodes_grids) as Hnba.
  { unfold nba_numPts. apply wrap_id; [unfold Long_bits; lia|].
    fold nnodes_grids. lia. }
  split.
  - intros Hdbg Hlt.
    assert (Int_max cfg ≤ nnodes_grids →
      construct cfg exchange_node_id linop ebfactory adjust world myid = fatal) as Hfatal.
    { intros Hge. unfold construct, check_index_width.
      rewrite Hdbg, bool_decide_eq_true_2, Hnba by done. simpl.
      by rewrite bool_decide_eq_false_2 by lia. }
    split_and!; [done| |].
    + intros Hover. apply Hfatal.
      pose proof (total_count_le_numPts cfg ebfactory world) as Hle.
      fold nnodes_grids in Hle. lia.
    + intros Hok. unfold check_index_width.
      rewrite Hdbg, bool_decide_eq_true_2, Hnba by done. simpl.
      by rewrite bool_decide_eq_true_2 by lia.
  - intros [Hrel|Hwide]; unfold check_index_width.
    + by rewrite Hrel.
    + rewrite (bool_decide_eq_false_2 (sizeof_Int cfg < sizeof_Long cfg)) by lia.
      by rewrite andb_false_r.
Qed.

Lemma foldM_app {A St} (body : A → St → Result St) (l1 l2 : list A) (s : St) :
  foldM body (l1 ++ l2) s = foldM body l1 s ≫= foldM body l2.
Proof.
  revert s. induction l1 as [|a l1 IH]; intros s; simpl; [done|].
  destruct (body a s); simpl; [apply IH|done|done].
Qed.

Lemma at_index_Some {A} (v : list A) (i : nat) (a : A) :
  v !! i = Some a → at_index v (Z.of_nat i) = Ok a.
Proof.
  intros H. unfold at_index. rewrite bool_decide_eq_true_2 by lia.
  by rewrite Nat2Z.id, H.
Qed.

Section PinningFacts.
Context (cfg : BuildConfig) (linop : MLNodeLinOp).

(** The loop of lines 235-236 after [k] iterations. *)
Lemma zero_off_diagonal_loop (ij : IJRows) (r0 : Z) (rs : list Z) (k : nat) :
  rows ij = r0 :: rs →
  (k ≤ length (cols ij))%nat → (k ≤ length (mat ij))%nat →
  foldM (λ ic mat,
      c ← at_index (cols ij) ic;
      r0 ← at_index (rows ij) 0;
      m ← at_index mat ic;
      Ok (<[Z.to_nat ic := if bool_decide (c = r0) then m else 0%Qc]> mat))
    (seqZ 0 (Z.of_nat k)) (mat ij)
  = Ok (pin_row0_values r0 (Z.of_nat k) (cols ij) (mat ij)).
Proof.
  intros Hrows. induction k as [|k IH]; intros Hc Hm.
  { simpl. f_equal. unfold pin_row0_values. apply list_eq. intros i.
    rewrite list_lookup_imap. destruct (mat ij !! i); [|done]. simpl.
    by rewrite bool_decide_eq_false_2 by lia. }
  rewrite seqZ_S, foldM_app, IH by lia. simpl. rewrite Z.add_0_l.
  destruct (lookup_lt_is_Some_2 (cols ij) k) as [c Hck]; [lia|].
  destruct (lookup_lt_is_Some_2 (mat ij) k) as [m Hmk]; [lia|].
  rewrite (at_index_Some _ k c) by done. simpl.
  rewrite Hrows. change (at_index (r0 :: rs) 0) with (Ok r0). simpl.
  rewrite (at_index_Some _ k m).
  2:{ unfold pin_row0_values. rewrite list_lookup_imap, Hmk. simpl.
      by rewrite bool_decide_eq_false_2 by lia. }
  simpl. f_equal. rewrite Nat2Z.id. unfold pin_row0_values.
  apply list_eq. intros i. destruct (decide (i = k)) as [->|Hne].
  - rewrite list_lookup_insert_eq by (rewrite length_imap; lia).
    rewrite list_lookup_imap, Hmk. simpl.
    rewrite (bool_decide_eq_true_2 (_ < _)) by lia. rewrite Hck. simpl.
    repeat case_bool_decide; simplify_eq; done.
  - rewrite list_lookup_insert_ne by done.
    rewrite !list_lookup_imap. destruct (mat ij !! i); [|done]. simpl.
    destruct (decide (i < k)%nat).
    + by rewrite !(bool_decide_eq_true_2 (_ < _)) by lia.
    + by rewrite !(bool_decide_eq_false_2 (_ < _)) by lia.
Qed.

Lemma zero_off_diagonal_spec (ij : IJRows) (r0 n0 : Z) (rs ns : list Z) :
  rows ij = r0 :: rs → ncols ij = n0 :: ns →
  n0 ≤ Z.of_nat (length (cols ij)) → n0 ≤ Z.of_nat (length (mat ij)) →
  zero_off_diagonal ij = Ok (pin_row0_values r0 n0 (cols ij) (mat ij)).
Proof.
  intros Hrows Hncols Hc Hm. unfold zero_off_diagonal.
  rewrite Hncols. unfold at_index at 1. simpl.
  unfold for_range_R, range. replace (n0 - 1 - 0 + 1) with n0 by lia.
  destruct (decide (0 ≤ n0)) as [Hn|Hn].
  - rewrite <- (Z2Nat.id n0) by done.
    rewrite (zero_off_diagonal_loop ij r0 rs) by (done || lia). done.
  - rewrite seqZ_nil by lia. simpl. f_equal. unfold pin_row0_values.
    apply list_eq. intros i. rewrite list_lookup_imap.
    destruct (mat ij !! i); [|done]. simpl.
    by rewrite bool_decide_eq_false_2 by lia.
Qed.

End PinningFacts.

(** C5: when the adjust-singular-matrix option is on, the bottom level is
    singular and the patch's first row is global row 0, the values the patch
    submits for the matrix have every off-diagonal entry of row 0 zeroed and
    its diagonal entry kept, and the value it submits for the right-hand
    side of row 0 is zero; in every other case the values from the stencil
    provider and the gathered right-hand side are submitted unchanged.  The
    patch has at least one row, and the stencil provider filled the
    [ncols[0]] entries of its first row. *)
Theorem singular_row_pinning (cfg : BuildConfig) (linop : MLNodeLinOp)
    (nnodes_total : Z) (i : nat) (p : Patch) (nrows : Z) (nid : Dim3 → Z)
    (vecs : list (list Z)) (A0 : list MatrixValues)
    (st : HypreNodeLap) (soln rhs : MultiFab) (x0 b0 : list VectorValues)
    (r0 n0 : Z) (rs ns : list Z) (v0 : Real) (vs : list Real) :
  let ij := fillIJMatrix linop i p nid in
  let adjust := adjustSingularMatrix st in
  nrows > 0 →
  rows ij = r0 :: rs → ncols ij = n0 :: ns →
  n0 ≤ Z.of_nat (length (cols ij)) → n0 ≤ Z.of_nat (length (mat ij)) →
  debug_check_cols cfg ij nrows nnodes_total = Ok () →
  nnodes_grid st !!! i = nrows → node_id_vec st !!! i = rows ij →
  gather_rhs p (node_id st !!! i) (fab rhs i) = v0 :: vs →
  let active := adjust && isBottomSingular linop && bool_decide (r0 = 0) in
  assemble_patch cfg linop adjust nnodes_total i p nrows nid (vecs, A0)
  = Ok (<[i := rows ij]> vecs,
        A0 ++ [MkMatrixValues nrows (ncols ij) (rows ij) (cols ij)
                 (if active then pin_row0_values 0 n0 (cols ij) (mat ij)
                  else mat ij)])
  ∧ loadVectors_patch cfg linop st soln rhs i p (x0, b0)
    = Ok (x0 ++ [MkVectorValues nrows (rows ij) (dataPtr cfg p soln i)],
          b0 ++ [MkVectorValues nrows (rows ij)
                   (if active then 0%Qc :: vs else v0 :: vs)])
  ∧ (∀ ic c m, cols ij !! ic = Some c → mat ij !! ic = Some m →
       pin_row0_values 0 n0 (cols ij) (mat ij) !! ic
       = Some (if bool_decide (Z.of_nat ic < n0 ∧ c ≠ 0) then 0%Qc else m))
  ∧ (∀ st' i' p' x1 b1,
       adjustSingularMatrix st' && isBottomSingular linop = false →
       nnodes_grid st' !!! i' >= 0 →
       loadVectors_patch cfg linop st' soln rhs i' p' (x1, b1)
       = Ok (x1 ++ [MkVectorValues (nnodes_grid st' !!! i') (node_id_vec st' !!! i')
                      (dataPtr cfg p' soln i')],
             b1 ++ [MkVectorValues (nnodes_grid st' !!! i') (node_id_vec st' !!! i')
                      (gather_rhs p' (node_id st' !!! i') (fab rhs i'))])).
Proof.
  intros ij adjust Hn Hrows Hncols Hc Hm Hdbg Hgrid Hvec Hb active.
  assert (pin_row0 linop adjust (rows ij) = Ok active) as Hpin.
  { unfold pin_row0, active.
    destruct (adjust && isBottomSingular linop); [|done].
    rewrite Hrows. done. }
  split_and!.
  - unfold assemble_patch. rewrite bool_decide_eq_true_2 by done.
    fold ij. rewrite Hdbg. simpl. rewrite Hpin. simpl.
    destruct active eqn:Hact; [|done].
    assert (r0 = 0) as Hr0.
    { unfold active in Hact. apply andb_true_iff in Hact as [_ Hact].
      by apply bool_decide_eq_true in Hact. }
    rewrite (zero_off_diagonal_spec ij r0 n0 rs ns) by done.
    by rewrite Hr0.
  - unfold loadVectors_patch. rewrite Hgrid, bool_decide_eq_true_2 by lia.
    rewrite Hvec. fold adjust. rewrite Hpin. simpl. rewrite Hb.
    by destruct active.
  - intros ic c m Hic Hmc. unfold pin_row0_values.
    rewrite list_lookup_imap, Hmc. simpl. f_equal. rewrite Hic.
    destruct (decide (c = 0)) as [->|Hc0].
    + rewrite (bool_decide_eq_true_2 (Some 0 = Some 0)) by done.
      rewrite (bool_decide_eq_false_2 (_ ∧ _)) by (intros [_ ?]; done).
      by rewrite andb_false_r.
    + rewrite (bool_decide_eq_false_2 (Some c = Some 0)) by congruence.
      rewrite andb_true_r. by repeat case_bool_decide; try done; tauto.
  - intros st' i' p' x1 b1 Hoff Hge. unfold loadVectors_patch, pin_row0.
    by rewrite bool_decide_eq_true_2, Hoff by done.
Qed.

Lemma foldM_OutOfBounds {A St} (body : A → St → Result St) (l : list A) (a0 : A) (s : St) :
  (∀ a s msg, body a s ≠ Abort msg) → a0 ∈ l → (∀ s, body a0 s = OutOfBounds) →
  foldM body l s = OutOfBounds.
Proof.
  intros Hna Hin Hoob. revert s. induction l as [|a l IH]; intros s.
  { by apply elem_of_nil in Hin. }
  simpl. apply elem_of_cons in Hin as [<-|Hin].
  - by rewrite Hoob.
  - destruct (body a s) as [s'|msg|] eqn:Hb; simpl; [by apply IH| |done].
    by apply Hna in Hb.
Qed.

Section LoadFacts.
Context (cfg : BuildConfig) (linop : MLNodeLinOp).

Lemma pin_row0_not_Abort (adjust : bool) (rows : list Z) (msg : string) :
  pin_row0 linop adjust rows ≠ Abort msg.
Proof.
  unfold pin_row0. destruct (adjust && isBottomSingular linop); [|done].
  by destruct rows.
Qed.

Lemma loadVectors_patch_not_Abort (st : HypreNodeLap) (soln rhs : MultiFab)
    (i : nat) (p : Patch) (s : list VectorValues * list VectorValues) (msg : string) :
  loadVectors_patch cfg linop st soln rhs i p s ≠ Abort msg.
Proof.
  unfold loadVectors_patch. destruct s as [x0 b0]. case_bool_decide; [|done].
  pose proof (pin_row0_not_Abort (adjustSingularMatrix st) (node_id_vec st !!! i) msg)
    as Hpin.
  destruct (pin_row0 _ _ _) as [[]| |]; simpl; try done.
  - by destruct (gather_rhs _ _ _).
  - intros [= ->]. by apply Hpin.
Qed.

(** The initial-guess submissions of a load. *)
Lemma loadVectors_fold_x (st : HypreNodeLap) (soln rhs : MultiFab)
    (l : list (nat * Patch)) (x0 b0 x' b' : list VectorValues) :
  foldM (λ '(i, p), loadVectors_patch cfg linop st (setVal 0%Qc soln) rhs i p)
    l (x0, b0) = Ok (x', b') →
  x' = x0 ++ omap (λ '(i, p),
    if bool_decide (nnodes_grid st !!! i >= 0)
    then Some (MkVectorValues (nnodes_grid st !!! i) (node_id_vec st !!! i)
                 ((λ _, 0%Qc) <$> cells (grow (AMREX_SPACEDIM cfg) (ndbx p) (nGrow soln))))
    else None) l.
Proof.
  revert x0 b0. induction l as [|[i p] l IH]; intros x0 b0 H; simpl in H.
  { injection H as <- <-. simpl. by rewrite app_nil_r. }
  apply bind_Ok in H as ([x1 b1] & Hstep & H). apply IH in H. subst x'.
  unfold loadVectors_patch in Hstep. csimpl.
  case_bool_decide; [|by injection Hstep as <- <-].
  apply bind_Ok in Hstep as (pinned & _ & Hstep).
  apply bind_Ok in Hstep as (bvec & _ & Hstep).
  injection Hstep as <- <-. by rewrite <- app_assoc.
Qed.

End LoadFacts.

(** C9 (defect): with the adjust-singular-matrix option on and a singular
    bottom level, a patch with no retained row passes the guard [nrows >= 0]
    of [loadVectors], and the read of [rows[0]] then falls outside the empty
    [rows]. *)
Theorem loadVectors_empty_patch_out_of_bounds (cfg : BuildConfig)
    (linop : MLNodeLinOp) (st : HypreNodeLap) (soln rhs : MultiFab)
    (i : nat) (p : Patch) :
  adjustSingularMatrix st = true → isBottomSingular linop = true →
  grids st !! i = Some p →
  nnodes_grid st !!! i = 0 → node_id_vec st !!! i = [] →
  loadVectors cfg linop st soln rhs = OutOfBounds.
Proof.
  intros Hadj Hsing Hp Hn Hrows. unfold loadVectors.
  rewrite (foldM_OutOfBounds _ _ (i, p)); [done| | |].
  - intros [i' p'] s msg. apply loadVectors_patch_not_Abort.
  - apply (elem_of_lookup_imap_2 pair), Hp.
  - intros [x0 b0]. unfold loadVectors_patch, pin_row0.
    by rewrite Hn, Hrows, Hadj, Hsing.
Qed.

(** C10: a vector load zeroes the solution field first; what it passes to
    the solver as initial guess is, for every patch, an all-zero array; the
    outcome of the load and of the whole solve does not depend on the values
    of the incoming solution field. *)
Theorem loadVectors_zero_initial_guess (cfg : BuildConfig) (linop : MLNodeLinOp)
    (HYPRE_IJVectorInitialize HYPRE_IJVectorAssemble : list VectorValues → list VectorValues)
    (hypre_ij_solve : list MatrixValues → list VectorValues → list VectorValues →
                      Real → Real → Z → Z → Real)
    (ParallelAdd : MultiFab → MultiFab → MultiFab)
    (st : HypreNodeLap) (soln rhs : MultiFab) :
  (∀ soln2, nGrow soln2 = nGrow soln →
     loadVectors cfg linop st soln2 rhs = loadVectors cfg linop st soln rhs
     ∧ ∀ rel_tol abs_tol max_iter,
         solve cfg linop HYPRE_IJVectorInitialize HYPRE_IJVectorAssemble
           hypre_ij_solve ParallelAdd st soln2 rhs rel_tol abs_tol max_iter
         = solve cfg linop HYPRE_IJVectorInitialize HYPRE_IJVectorAssemble
             hypre_ij_solve ParallelAdd st soln rhs rel_tol abs_tol max_iter)
  ∧ (∀ soln' st', loadVectors cfg linop st soln rhs = Ok (soln', st') →
       (∀ i c, fab soln' i c = 0%Qc)
       ∧ x st' = x st ++ zero_guess cfg st soln)
  ∧ (∀ v, v ∈ zero_guess cfg st soln →
       Forall (λ a, a = 0%Qc) (vv_values v)
       ∧ ∃ i, vv_indices v = node_id_vec st !!! i ∧ vv_nvalues v = nnodes_grid st !!! i)
  ∧ (adjustSingularMatrix st && isBottomSingular linop = false →
     ∃ soln' st', loadVectors cfg linop st soln rhs = Ok (soln', st')).
Proof.
  split_and!.
  - intros soln2 Hg.
    assert (setVal 0%Qc soln2 = setVal 0%Qc soln) as Hz.
    { unfold setVal. by rewrite Hg. }
    split.
    + unfold loadVectors. by rewrite Hz.
    + intros rel_tol abs_tol max_iter. unfold solve, loadVectors. by rewrite Hz.
  - intros soln' st' H. unfold loadVectors in H.
    apply bind_Ok in H as ([x' b'] & Hfold & H). injection H as <- <-.
    split; [done|]. simpl. by apply loadVectors_fold_x in Hfold.
  - intros v Hv. unfold zero_guess in Hv.
    apply list_elem_of_omap in Hv as ([i p] & _ & Hv).
    case_bool_decide; [|done]. injection Hv as <-. simpl. split.
    + apply Forall_fmap, Forall_true. done.
    + eauto.
  - intros Hoff. unfold loadVectors.
    destruct (foldM_ok (λ '(i, p), loadVectors_patch cfg linop st (setVal 0%Qc soln) rhs i p)
                (imap pair (grids st)) (x st, b st)) as [[x' b'] ->]; [|simpl; eauto].
    intros [i p] [x0 b0]. unfold loadVectors_patch, pin_row0. rewrite Hoff.
    case_bool_decide; simpl; eauto.
Qed.

(** ** The theorems at concrete inputs *)

Lemma node_numbering_bijection_witness :
  (λ '(r, i, c), node_id_at release_cfg false scenario_C_world r i c)
    <$> positions release_cfg false scenario_C_world
  = seqZ 0 16.
Proof.
  refine (proj1 (proj2 (node_numbering_bijection release_cfg false
                          scenario_C_world _ _ _))).
  - vm_compute. reflexivity.
  - intros ps p Hps Hp. unfold scenario_C_world in Hps.
    apply list_elem_of_singleton in Hps. subst ps.
    apply list_elem_of_singleton in Hp. subst p.
    vm_compute. discriminate.
  - vm_compute. discriminate.
Defined.

Lemma index_width_check_witness :
  construct debug_cfg (λ node_id, node_id) (identity_linop false) false false
    large_world 0
  = Abort "You might need to configure Hypre with --enable-bigint".
Proof.
  refine (proj1 (proj1 (index_width_check debug_cfg (λ node_id, node_id)
    (identity_linop false) false false large_world 0 _ _) _ _) _).
  - vm_compute. reflexivity.
  - vm_compute. split; [discriminate|reflexivity].
  - reflexivity.
  - vm_compute. reflexivity.
  - vm_compute. discriminate.
Defined.

Lemma singular_row_pinning_witness :
  assemble_patch release_cfg scenario_D_linop true 2 0 scenario_D_patch 2
    (λ '(i, _, _), i) ([[]], [])
  = Ok ([[0; 1]],
        [MkMatrixValues 2 [2; 2] [0; 1] [0; 1; 0; 1]
           [1%Qc; 0%Qc; (-1)%Qc; 1%Qc]])
  ∧ loadVectors_patch release_cfg scenario_D_linop scenario_D_state
      (setVal 0%Qc scenario_D_soln) scenario_D_rhs 0 scenario_D_patch ([], [])
    = Ok ([MkVectorValues 2 [0; 1] [0%Qc; 0%Qc]],
          [MkVectorValues 2 [0; 1] [0%Qc; Real_of 5 1]]).
Proof.
  pose proof (singular_row_pinning release_cfg scenario_D_linop 2 0
    scenario_D_patch 2 (λ '(i, _, _), i) [[]] [] scenario_D_state
    (setVal 0%Qc scenario_D_soln) scenario_D_rhs [] []
    0 2 [1] [2] (Real_of 3 1) [Real_of 5 1]) as H.
  destruct H as (Hm & Hv & _); try reflexivity.
  - vm_compute. discriminate.
  - vm_compute. discriminate.
  - split; [exact Hm|exact Hv].
Defined.

Lemma loadVectors_empty_patch_witness :
  ∃ st,
    construct release_cfg (λ node_id, node_id) (identity_linop true) false true
      sandwich_world 0 = Ok st
    ∧ nnodes_grid st = [4; 4; 0]
    ∧ node_id_vec st = [[0; 1; 2; 3]; [4; 5; 6; 7]; []]
    ∧ ∀ soln rhs,
        loadVectors release_cfg (identity_linop true) st soln rhs = OutOfBounds.
Proof.
  eexists. split; [reflexivity|]. split; [reflexivity|]. split; [reflexivity|].
  intros soln rhs.
  eapply (loadVectors_empty_patch_out_of_bounds _ _ _ _ _ 2%nat); reflexivity.
Defined.

Lemma loadVectors_zero_initial_guess_witness :
  ∃ soln' st',
    loadVectors release_cfg scenario_D_linop scenario_D_state
      scenario_D_soln scenario_D_rhs = Ok (soln', st')
    ∧ (∀ i c, fab soln' i c = 0%Qc)
    ∧ x st' = x scenario_D_state
              ++ zero_guess release_cfg scenario_D_state scenario_D_soln.
Proof.
  destruct (loadVectors release_cfg scenario_D_linop scenario_D_state
              scenario_D_soln scenario_D_rhs) as [[soln' st']| |] eqn:Hrun;
    [|exfalso; vm_compute in Hrun; discriminate..].
  exists soln', st'. split; [reflexivity|].
  exact (proj1 (proj2 (loadVectors_zero_initial_guess release_cfg
    scenario_D_linop (λ v, v) (λ v, v) (λ _ _ _ _ _ _ _, 0%Qc) (λ dst _, dst)
    scenario_D_state scenario_D_soln scenario_D_rhs)) soln' st' Hrun).
Defined.

End HypreNodeLapFacts.

Module MLABecLaplacianFacts.
Import MLABecLaplacian.

Lemma Qc_1_neq_0 : 1%Qc ≠ 0%Qc.
Proof. intros H. apply (f_equal this) in H. discriminate. Qed.

Lemma forallb_false_elem {A} (f : A → bool) (l : list A) :
  forallb f l = false ↔ ∃ a, a ∈ l ∧ f a = false.
Proof.
  induction l as [|a l IH]; simpl.
  - split; [done|]. intros (a & Ha & _). by apply elem_of_nil in Ha.
  - rewrite andb_false_iff, IH. split.
    + intros [Ha|(a' & Ha' & Hf)]; [exists a; split; [left|done]|].
      exists a'. split; [by right|done].
    + intros (a' & Ha' & Hf). apply elem_of_cons in Ha' as [->|Ha']; eauto.
Qed.

Section SetterFacts.
Context (AMREX_SPACEDIM : nat).

(** [setScalars] never writes the update flag. *)
Lemma setScalars_flag (st st' : MLABecLaplacian) (a b : Real) :
  setScalars st a b = Ok st' → m_needs_update st' = m_needs_update st.
Proof.
  unfold setScalars. intros Hset. case_bool_decide; [|by injection Hset as <-].
  apply bind_Ok in Hset as (coeffs & _ & Hset). by injection Hset as <-.
Qed.

(** The five other setters end with [m_needs_update = true]. *)
Lemma other_setters_mark_dirty (st st' : MLABecLaplacian) (amrlev : nat) :
  (∀ alpha, setACoeffs st amrlev alpha = Ok st' → m_needs_update st' = true)
  ∧ (∀ alpha, setACoeffs_scalar st amrlev alpha = Ok st' → m_needs_update st' = true)
  ∧ (∀ beta, setBCoeffs AMREX_SPACEDIM st amrlev beta = Ok st' →
       m_needs_update st' = true)
  ∧ (∀ beta, setBCoeffs_scalar AMREX_SPACEDIM st amrlev beta = Ok st' →
       m_needs_update st' = true)
  ∧ (∀ beta, setBCoeffs_vector AMREX_SPACEDIM st amrlev beta = Ok st' →
       m_needs_update st' = true).
Proof.
  split_and!; intros v H.
  - unfold setACoeffs in H. apply bind_Ok in H as (? & _ & H).
    apply bind_Ok in H as (? & _ & H). by injection H as <-.
  - unfold setACoeffs_scalar in H. apply bind_Ok in H as (? & _ & H).
    by injection H as <-.
  - unfold setBCoeffs in H. apply bind_Ok in H as (? & _ & H).
    apply bind_Ok in H as (? & _ & H). apply bind_Ok in H as (? & _ & H).
    by injection H as <-.
  - unfold setBCoeffs_scalar in H. apply bind_Ok in H as (? & _ & H).
    by injection H as <-.
  - unfold setBCoeffs_vector in H. apply bind_Ok in H as (? & _ & H).
    by injection H as <-.
Qed.

End SetterFacts.

(** C2 (defect): [setScalars] returns without marking the store dirty: the
    flag it finds is the flag it leaves, so a store refreshed by
    [prepareForSolve] stays Clean although [setScalars] has replaced the
    scalars and, for [a = 0], zero-filled the cell coefficient of every AMR
    level.  The five other setters end with the flag set. *)
Theorem setScalars_leaves_store_clean (st st' : MLABecLaplacian) (a b : Real) :
  m_needs_update st = false →
  setScalars st a b = Ok st' →
  m_needs_update st' = false
  ∧ m_a_scalar st' = a ∧ m_b_scalar st' = b.
Proof.
  intros Hclean Hset. split; [by rewrite (setScalars_flag st st' a b Hset)|].
  unfold setScalars in Hset. case_bool_decide; [|by injection Hset as <-].
  apply bind_Ok in Hset as (coeffs & _ & Hset). by injection Hset as <-.
Qed.

(** C4, counterexample: on the base level, between relaxation levels 0 and 1
    coarsened by (2, 1) where the standard ratio is 2, with an overset mask
    present, [Fsmooth] launches the overset kernel, not the line solve. *)
Lemma line_solve_not_selected_with_overset :
  regular_coarsening semicoarsened_overset 0 1 = Ok false
  ∧ Fsmooth_kernel semicoarsened_overset 0 1 = Ok abec_gsrb_os.
Proof. split; reflexivity. Qed.

(** C4, as the code has it: the overset mask is tested first.  The plain
    kernel is launched exactly when there is no overset mask at the level
    entry and coarsening is regular; the line solve exactly when there is no
    overset mask and coarsening is not regular; the overset kernel exactly
    when a mask is present.  Coarsening is not regular exactly on the base
    AMR level, below relaxation level 0, where the ratio to the next finer
    relaxation level is not the standard ratio in every direction. *)
Theorem Fsmooth_kernel_selection (st : MLABecLaplacian) (amrlev mglev : nat)
    (regular : bool) (osm : option iMultiFab) :
  regular_coarsening st amrlev mglev = Ok regular →
  at2 (m_overset_mask st) amrlev mglev = Ok osm →
  ∃ kernel, Fsmooth_kernel st amrlev mglev = Ok kernel
    ∧ (kernel = abec_gsrb ↔ regular = true ∧ osm = None)
    ∧ (kernel = abec_gsrb_with_line_solve ↔ regular = false ∧ osm = None)
    ∧ (kernel = abec_gsrb_os ↔ is_Some osm)
    ∧ (regular = false ↔
         amrlev = 0%nat ∧ (0 < mglev)%nat
         ∧ ∃ ratio, mg_coarsen_ratio_vec st !! (mglev - 1)%nat = Some ratio
                    ∧ ∃ c, c ∈ ratio ∧ c ≠ mg_coarsen_ratio st).
Proof.
  intros Hreg Hosm. unfold Fsmooth_kernel. rewrite Hreg, Hosm. simpl.
  eexists. split; [done|]. split_and!.
  - destruct osm, regular; simpl; split; try done; intros [? ?]; done.
  - destruct osm, regular; simpl; split; try done; intros [? ?]; done.
  - destruct osm; simpl.
    + split; [eauto|done].
    + split; [by destruct regular|]. by intros [? ?].
  - unfold regular_coarsening, at_nat in Hreg.
    destruct (bool_decide (amrlev = 0%nat) && bool_decide (0 < mglev)%nat) eqn:Hbase.
    + apply andb_true_iff in Hbase as [H0 Hm].
      apply bool_decide_eq_true in H0, Hm.
      destruct (mg_coarsen_ratio_vec st !! (mglev - 1)%nat) as [ratio|]; [|done].
      simpl in Hreg. injection Hreg as <-. unfold IntVect_eq_int. split.
      * intros Hf. split_and!; [done..|]. exists ratio. split; [done|].
        apply forallb_false_elem in Hf as (c & Hc & Hne).
        exists c. split; [done|]. by apply bool_decide_eq_false in Hne.
      * intros (_ & _ & ratio' & [= <-] & c & Hc & Hne).
        apply forallb_false_elem. exists c. split; [done|].
        by apply bool_decide_eq_false.
    + injection Hreg as <-. split; [done|]. intros (H0 & Hm & _).
      apply andb_false_iff in Hbase as [Hb|Hb];
        apply bool_decide_eq_false in Hb; done.
Qed.

Lemma Fsmooth_kernel_selection_witness :
  ∃ kernel, Fsmooth_kernel semicoarsened_overset 0 1 = Ok kernel
    ∧ (kernel = abec_gsrb_with_line_solve
       ↔ false = false ∧ Some [λ _ : Dim3, 1] = None)
    ∧ (kernel = abec_gsrb_os ↔ is_Some (Some [λ _ : Dim3, 1])).
Proof.
  destruct (Fsmooth_kernel_selection semicoarsened_overset 0 1 false
              (Some [λ _, 1])) as (kernel & Hk & _ & Hline & Hos & _).
  - reflexivity.
  - reflexivity.
  - exists kernel. split; [exact Hk|]. split; [exact Hline|exact Hos].
Defined.

Section RobinFacts.
Context (AMREX_SPACEDIM : nat).

Lemma hasRobinBC_set_a_scalar (st : MLABecLaplacian) (a : Real) :
  hasRobinBC (set_a_scalar st a) = hasRobinBC st.
Proof. done. Qed.

Lemma applyRobinBCTermsCoeffs_fields (st st' : MLABecLaplacian) :
  applyRobinBCTermsCoeffs AMREX_SPACEDIM st = Ok st' →
  m_a_scalar st'
    = (if hasRobinBC st && bool_decide (m_a_scalar st = 0%Qc) then 1%Qc
       else m_a_scalar st)
  ∧ m_b_scalar st' = m_b_scalar st
  ∧ m_b_coeffs st' = m_b_coeffs st
  ∧ m_needs_update st' = m_needs_update st
  ∧ m_is_singular st' = m_is_singular st.
Proof.
  unfold applyRobinBCTermsCoeffs. destruct (hasRobinBC st); simpl.
  - intros H. apply bind_Ok in H as (coeffs & _ & H). injection H as <-.
    by case_bool_decide.
  - by intros [= <-].
Qed.

End RobinFacts.

(** C8: without a Robin condition [applyRobinBCTermsCoeffs] returns the
    state it was given; with one, and with [a_scalar = 0] on entry, it runs
    as it does on the state whose [a_scalar] is 1, and the state it leaves
    has [a_scalar = 1]. *)
Theorem applyRobinBCTermsCoeffs_sets_a_scalar (AMREX_SPACEDIM : nat)
    (st : MLABecLaplacian) :
  (hasRobinBC st = false → applyRobinBCTermsCoeffs AMREX_SPACEDIM st = Ok st)
  ∧ (hasRobinBC st = true → m_a_scalar st = 0%Qc →
     applyRobinBCTermsCoeffs AMREX_SPACEDIM st
     = applyRobinBCTermsCoeffs AMREX_SPACEDIM (set_a_scalar st 1%Qc)
     ∧ ∀ st', applyRobinBCTermsCoeffs AMREX_SPACEDIM st = Ok st' →
              m_a_scalar st' = 1%Qc).
Proof.
  split.
  - intros Hno. unfold applyRobinBCTermsCoeffs. by rewrite Hno.
  - intros Hrobin Ha. split.
    + unfold applyRobinBCTermsCoeffs.
      rewrite hasRobinBC_set_a_scalar, Hrobin.
      rewrite (bool_decide_eq_true_2 (m_a_scalar st = 0%Qc)) by done.
      by rewrite (bool_decide_eq_false_2 (m_a_scalar (set_a_scalar st 1%Qc) = 0%Qc))
        by apply Qc_1_neq_0.
    + intros st' H. apply applyRobinBCTermsCoeffs_fields in H as (-> & _).
      by rewrite Hrobin, bool_decide_eq_true_2.
Qed.

Lemma foldl_id {A St} (f : St → A → St) (l : list A) (s : St) :
  (∀ s a, f s a = s) → foldl f s l = s.
Proof. intros Hf. induction l as [|a l IH]; simpl; [done|]. by rewrite Hf. Qed.

Lemma foldM_id {A St} (body : A → St → Result St) (l : list A) (s s' : St) :
  (∀ a s s', a ∈ l → body a s = Ok s' → s' = s) → foldM body l s = Ok s' → s' = s.
Proof.
  revert s. induction l as [|a l IH]; intros s Hb H; simpl in H.
  { by injection H as <-. }
  apply bind_Ok in H as (s1 & H1 & H).
  apply Hb in H1 as ->; [|left]. apply IH; [|done].
  intros a' s2 s3 Ha'. apply Hb. by right.
Qed.

Lemma modify_at_id {A} (v v' : list A) (i : nat) (f : A → Result A) :
  (∀ a a', f a = Ok a' → a' = a) → modify_at v i f = Ok v' → v' = v.
Proof.
  intros Hf H. unfold modify_at, at_nat in H.
  destruct (v !! i) as [a|] eqn:Hi; [|done]. simpl in H.
  apply bind_Ok in H as (a' & Ha & H). injection H as <-.
  apply Hf in Ha as ->. by apply list_insert_id.
Qed.

Section NeumannLimit.
Context (AMREX_SPACEDIM : nat).

(** With [a = 0] and [b ≠ 0] the extrapolation factor B is 1 and the
    kernel adds nothing. *)
Lemma robin_fold_cell_neumann (d fac : Real) (rbc bfab afab : Dim3 → nat → Real)
    (icomp : nat) (bc ac fc : Dim3) :
  rbc bc 0%nat = 0%Qc → rbc bc 1%nat ≠ 0%Qc → d ≠ 0%Qc →
  robin_fold_cell d fac rbc bfab icomp bc ac fc afab = afab.
Proof.
  intros Ha Hb Hd. unfold robin_fold_cell, upd4.
  apply functional_extensionality. intros c'.
  apply functional_extensionality. intros n'.
  case_bool_decide as Hc; [|done]. destruct Hc as [-> ->].
  rewrite Ha. field. done.
Qed.

Lemma applyRobinBCTermsCoeffs_fab_neumann (st : MLABecLaplacian) (amrlev : nat)
    (domain : Box) (dxi dyi dzi bovera : Real) (mfi : nat) (a a' : FArrayBox) :
  (∀ mf f c icomp,
     m_robin_bcval st !! amrlev = Some (Some mf) → fabs mf !! mfi = Some f →
     (icomp < m_ncomp st)%nat →
     arr f c (icomp * 3 + 0)%nat = 0%Qc ∧ arr f c (icomp * 3 + 1)%nat ≠ 0%Qc) →
  dxi ≠ 0%Qc → dyi ≠ 0%Qc → dzi ≠ 0%Qc →
  applyRobinBCTermsCoeffs_fab AMREX_SPACEDIM st amrlev domain dxi dyi dzi bovera mfi a
  = Ok a' →
  a' = a.
Proof.
  intros Hrobin Hx Hy Hz H. unfold applyRobinBCTermsCoeffs_fab in H.
  apply bind_Ok in H as (afab & Hfold & H). injection H as <-.
  apply foldM_id in Hfold.
  { rewrite Hfold. by destruct a. }
  intros idim afab0 afab' _ H.
  apply bind_Ok in H as (bmf & _ & H).
  apply bind_Ok in H as (bdim & _ & H).
  apply bind_Ok in H as (bfab & _ & H).
  destruct (negb _ && negb _); [by injection H as <-|].
  apply foldM_id in H; [done|].
  clear H. intros icomp s s' Hicomp H.
  apply elem_of_seq in Hicomp.
  apply bind_Ok in H as (o & Ho & H).
  apply bind_Ok in H as (mf & Hmf & H).
  apply bind_Ok in H as (rfab & Hf & H).
  apply bind_Ok in H as (lo & _ & H).
  apply bind_Ok in H as (hi & _ & H). injection H as <-.
  unfold at_nat in Ho, Hf.
  destruct (m_robin_bcval st !! amrlev) as [o'|] eqn:Hlev; [|done].
  injection Ho as ->. destruct o as [mf'|]; [|done]. injection Hmf as ->.
  destruct (fabs mf !! mfi) as [f|] eqn:Hfab; [|done]. injection Hf as ->.
  assert (match idim with O => dxi | S O => dyi | _ => dzi end ≠ 0%Qc) as Hd.
  { by destruct idim as [|[|]]. }
  assert (∀ c, arr rfab c (icomp * 3 + 0)%nat = 0%Qc
               ∧ arr rfab c (icomp * 3 + 1)%nat ≠ 0%Qc) as Hbc.
  { intros c. eapply Hrobin; [done..|lia]. }
  rewrite !(foldl_id _ _ _).
  - by repeat destruct (_ && _).
  - intros s0 c. apply robin_fold_cell_neumann; [apply Hbc..|done].
  - intros s0 c. apply robin_fold_cell_neumann; [apply Hbc..|done].
Qed.

End NeumannLimit.

(** C7: when every Robin boundary value has [a = 0] and [b ≠ 0] and the
    inverse cell sizes are not zero, [applyRobinBCTermsCoeffs] leaves every
    cell coefficient as it was.  In scenario A (a line of 8 cells, scalars,
    A and B all 1, Robin [a = 0], [b = 1] at the high end) the coefficient of
    the last cell, and of every cell, is 1 afterwards. *)
Theorem robin_pure_neumann_keeps_diagonal (AMREX_SPACEDIM : nat)
    (st st' : MLABecLaplacian) :
  (∀ amrlev mf mfi f c icomp,
     m_robin_bcval st !! amrlev = Some (Some mf) → fabs mf !! mfi = Some f →
     (icomp < m_ncomp st)%nat →
     arr f c (icomp * 3 + 0)%nat = 0%Qc ∧ arr f c (icomp * 3 + 1)%nat ≠ 0%Qc) →
  (∀ amrlev geom d, at2 (m_geom st) amrlev 0 = Ok geom → InvCellSize geom d ≠ 0%Qc) →
  applyRobinBCTermsCoeffs AMREX_SPACEDIM st = Ok st' →
  m_a_coeffs st' = m_a_coeffs st
  ∧ ∃ stA amf f,
      applyRobinBCTermsCoeffs 1 scenario_A = Ok stA
      ∧ at2 (m_a_coeffs stA) 0 0 = Ok amf
      ∧ fabs amf = [f]
      ∧ arr f (7, 0, 0) 0%nat = 1%Qc
      ∧ ∀ i, 0 ≤ i ≤ 7 → arr f (i, 0, 0) 0%nat = 1%Qc.
Proof.
  assert (∀ dim s s',
    (∀ amrlev mf mfi f c icomp,
       m_robin_bcval s !! amrlev = Some (Some mf) → fabs mf !! mfi = Some f →
       (icomp < m_ncomp s)%nat →
       arr f c (icomp * 3 + 0)%nat = 0%Qc ∧ arr f c (icomp * 3 + 1)%nat ≠ 0%Qc) →
    (∀ amrlev geom d, at2 (m_geom s) amrlev 0 = Ok geom → InvCellSize geom d ≠ 0%Qc) →
    applyRobinBCTermsCoeffs dim s = Ok s' →
    m_a_coeffs s' = m_a_coeffs s) as Hgen.
  { clear. intros dim s s' Hbc Hgeom H. unfold applyRobinBCTermsCoeffs in H.
    destruct (hasRobinBC s); simpl in H; [|by injection H as <-].
    apply bind_Ok in H as (coeffs & Hfold & H). injection H as <-.
    set (s1 := if bool_decide (m_a_scalar s = 0%Qc) then set_a_scalar s 1%Qc else s) in *.
    assert (m_a_coeffs s1 = m_a_coeffs s ∧ m_geom s1 = m_geom s
            ∧ m_robin_bcval s1 = m_robin_bcval s
            ∧ m_ncomp s1 = m_ncomp s) as (Ha & Hg & Hr & Hn).
    { unfold s1. by destruct (bool_decide (m_a_scalar s = 0%Qc)). }
    simpl. rewrite Ha in Hfold.
    apply foldM_id in Hfold; [done|].
    intros amrlev v v' _ Hstep.
    apply bind_Ok in Hstep as (geom & Hgeo & Hstep). rewrite Hg in Hgeo.
    apply modify_at_id in Hstep; [done|].
    intros lvl lvl' Hlvl. apply modify_at_id in Hlvl; [done|].
    intros amf amf' Hamf.
    apply bind_Ok in Hamf as (fs & Hfs & Hamf). injection Hamf as <-.
    apply foldM_id in Hfs; [rewrite Hfs; by destruct amf|].
    intros mfi fs1 fs2 _ Hmod. apply modify_at_id in Hmod; [done|].
    intros a a' Hfab.
    eapply applyRobinBCTermsCoeffs_fab_neumann in Hfab; [done| | | |].
    - intros mf f c icomp Hmf Hf Hlt. rewrite Hn in Hlt. rewrite Hr in Hmf.
      by eapply Hbc.
    - by eapply Hgeom.
    - destruct (bool_decide (2 ≤ dim)%nat); [by eapply Hgeom|apply Qc_1_neq_0].
    - destruct (bool_decide (dim = 3%nat)); [by eapply Hgeom|apply Qc_1_neq_0]. }
  intros Hbc Hgeom H. split; [by eapply Hgen|].
  destruct (applyRobinBCTermsCoeffs 1 scenario_A) as [stA| |] eqn:HA;
    [|by vm_compute in HA..].
  assert (m_a_coeffs stA = m_a_coeffs scenario_A) as Heq.
  { eapply Hgen; [| |exact HA].
    - intros [|[|]] mf [|[|]] f c icomp [= <-] [= <-] Hlt; simpl in *.
      assert (icomp = 0%nat) as -> by lia. simpl.
      split; [reflexivity|apply Qc_1_neq_0].
    - intros [|[|]] geom d [= <-]; simpl. intros Hd.
      apply (f_equal this) in Hd. discriminate. }
  eexists stA, _, _. split; [done|]. rewrite Heq.
  split; [reflexivity|]. split; [reflexivity|]. split; [reflexivity|].
  intros i Hi.
  assert (i = 0 ∨ i = 1 ∨ i = 2 ∨ i = 3 ∨ i = 4 ∨ i = 5 ∨ i = 6 ∨ i = 7)
    as Hcases by lia.
  destruct Hcases as [->|[->|[->|[->|[->|[->|[->| ->]]]]]]]; reflexivity.
Qed.

Lemma robin_pure_neumann_witness :
  ∃ stA, applyRobinBCTermsCoeffs 1 scenario_A = Ok stA
         ∧ m_a_coeffs stA = m_a_coeffs scenario_A.
Proof.
  destruct (applyRobinBCTermsCoeffs 1 scenario_A) as [stA| |] eqn:HA;
    [|exfalso; vm_compute in HA; discriminate..].
  exists stA. split; [reflexivity|].
  refine (proj1 (robin_pure_neumann_keeps_diagonal 1 scenario_A stA _ _ HA)).
  - intros [|[|]] mf [|[|]] f c icomp [= <-] [= <-] Hlt; simpl in *.
    assert (icomp = 0%nat) as -> by lia. simpl.
    split; [reflexivity|apply Qc_1_neq_0].
  - intros [|[|]] geom d [= <-]; simpl. intros Hd.
    apply (f_equal this) in Hd. discriminate.
Defined.

Section SingularityFacts.

Lemma singular_step_length (st : MLABecLaplacian) (alev : nat) (fl fl' : list bool) :
  singular_step st alev fl = Ok fl' → length fl' = length fl.
Proof.
  unfold singular_step. intros H.
  apply bind_Ok in H as ([] & _ & H); [|by injection H as <-].
  apply bind_Ok in H as (osm & _ & H).
  destruct (negb _); [|by injection H as <-].
  destruct (bool_decide (m_a_scalar st = 0%Qc)).
  - injection H as <-. apply length_insert.
  - apply bind_Ok in H as (amf & _ & H). injection H as <-. apply length_insert.
Qed.

Lemma singular_step_other (st : MLABecLaplacian) (alev k : nat) (fl fl' : list bool) :
  singular_step st alev fl = Ok fl' → k ≠ alev → fl' !! k = fl !! k.
Proof.
  unfold singular_step. intros H Hne.
  apply bind_Ok in H as ([] & _ & H); [|by injection H as <-].
  apply bind_Ok in H as (osm & _ & H).
  destruct (negb _); [|by injection H as <-].
  destruct (bool_decide (m_a_scalar st = 0%Qc)).
  - injection H as <-. by apply list_lookup_insert_ne.
  - apply bind_Ok in H as (amf & _ & H). injection H as <-.
    by apply list_lookup_insert_ne.
Qed.

Lemma singular_loop (st : MLABecLaplacian) (l : list nat) (fl fl' : list bool) :
  NoDup l → foldM (singular_step st) l fl = Ok fl' →
  length fl' = length fl
  ∧ (∀ k, k ∉ l → fl' !! k = fl !! k)
  ∧ (∀ k, k ∈ l → ∃ flk flk', singular_step st k flk = Ok flk'
                    ∧ length flk = length fl ∧ fl' !! k = flk' !! k).
Proof.
  intros Hnd. revert fl. induction Hnd as [|a l Hnin Hnd IH]; intros fl H; simpl in H.
  { injection H as <-. split_and!; [done..|]. intros k Hk. by apply elem_of_nil in Hk. }
  apply bind_Ok in H as (fl1 & Hstep & H).
  destruct (IH fl1 H) as (Hlen & Hout & Hin).
  pose proof (singular_step_length _ _ _ _ Hstep) as Hlen1.
  split_and!.
  - congruence.
  - intros k Hk. apply not_elem_of_cons in Hk as [Hne Hk].
    rewrite Hout by done. by eapply singular_step_other.
  - intros k Hk. apply elem_of_cons in Hk as [->|Hk].
    + exists fl, fl1. split_and!; [done..|]. by apply Hout.
    + destruct (Hin k Hk) as (flk & flk' & H1 & H2 & H3).
      exists flk, flk'. split_and!; [done|congruence|done].
Qed.

(** The check reads the coarsest relaxation level, [m_a_coeffs[alev].back()]. *)
Lemma detect_singular_spec (st st' : MLABecLaplacian) :
  detect_singular st = Ok st' →
  (m_a_coeffs st' = m_a_coeffs st ∧ m_a_scalar st' = m_a_scalar st
   ∧ m_lobc st' = m_lobc st ∧ m_hibc st' = m_hibc st
   ∧ m_domain_covered st' = m_domain_covered st
   ∧ m_overset_mask st' = m_overset_mask st
   ∧ m_num_amr_levels st' = m_num_amr_levels st)
  ∧ ∀ lobc0 hibc0 alev,
      m_lobc st !! 0%nat = Some lobc0 → m_hibc st !! 0%nat = Some hibc0 →
      Dirichlet ∉ lobc0 → Dirichlet ∉ hibc0 →
      (alev < m_num_amr_levels st)%nat →
      m_domain_covered st !! alev = Some true →
      at2 (m_overset_mask st) alev 0 = Ok None →
      m_a_scalar st ≠ 0%Qc →
      ∃ coarsest, at_nat (m_a_coeffs st) alev ≫= back = Ok coarsest
        ∧ m_is_singular st' !! alev
          = Some (bool_decide (sum coarsest
                               ≤ norm0 coarsest * Real_of 1 (10 ^ 12))%Qc).
Proof.
  intros H. unfold detect_singular in H.
  apply bind_Ok in H as (lobc0' & Hlo & H). apply bind_Ok in H as (hibc0' & Hhi & H).
  destruct (bool_decide (Dirichlet ∉ lobc0') && bool_decide (Dirichlet ∉ hibc0')) eqn:Hnd.
  - apply bind_Ok in H as (flags & Hloop & H). injection H as <-.
    split; [done|]. simpl.
    intros lobc0 hibc0 alev Hlo' Hhi' _ _ Hlt Hcov Hosm Ha.
    apply singular_loop in Hloop as (Hlen & _ & Hin); [|apply NoDup_seq].
    destruct (Hin alev) as (flk & flk' & Hstep & Hlenk & ->);
      [apply elem_of_seq; lia|].
    rewrite length_replicate in Hlenk.
    unfold singular_step in Hstep.
    apply bind_Ok in Hstep as (covered & Hc & Hstep).
    unfold at_nat in Hc. rewrite Hcov in Hc. injection Hc as <-.
    rewrite Hosm in Hstep. simpl in Hstep.
    rewrite bool_decide_eq_false_2 in Hstep by done.
    apply bind_Ok in Hstep as (amf & Hamf & Hstep). injection Hstep as <-.
    exists amf. split; [done|]. apply list_lookup_insert_eq. lia.
  - injection H as <-. split; [done|].
    intros lobc0 hibc0 alev Hlo' Hhi' Hd1 Hd2. exfalso.
    unfold at_nat in Hlo, Hhi. rewrite Hlo' in Hlo. rewrite Hhi' in Hhi.
    injection Hlo as <-. injection Hhi as <-.
    apply andb_false_iff in Hnd as [Hnd|Hnd];
      apply bool_decide_eq_false in Hnd; done.
Qed.

End SingularityFacts.

(** [prepareForSolve] on the operator with the cancelling coefficient. *)
Lemma cancelling_operator_run :
  ∃ st' finest,
    prepareForSolve 1 (λ st, st) (λ _ _ mf, mf) volume_average
      (λ _ crse _, crse) (λ _ bf _ _ _, bf) cancelling_operator = Ok st'
    ∧ m_lobc st' = [[Neumann]] ∧ m_hibc st' = [[Neumann]]
    ∧ m_domain_covered st' = [true]
    ∧ m_overset_mask st' = [[None; None]]
    ∧ m_a_scalar st' = 1%Qc
    ∧ m_num_amr_levels st' = 1%nat
    ∧ at2 (m_a_coeffs st') 0 0 = Ok finest
    ∧ (sum finest ≤ norm0 finest * Real_of 1 (10 ^ 12))%Qc
    ∧ m_is_singular st' = [false].
Proof.
  eexists _, _. split; [reflexivity|].
  split_and!; try reflexivity.
  apply (bool_decide_unpack _). vm_compute. exact I.
Qed.

(** C1, counterexample: one AMR level with two relaxation levels whose cell
    coefficient is 1, -1, 2^-50, 2^-50 on the finest; restriction leaves
    0, 2^-50 on the coarsest.  No Dirichlet condition, domain covered, no
    overset mask, [a_scalar = 1].  The sum over the finest relaxation level,
    2^-49, is below 1e-12 times its maximum magnitude 1, and yet
    [prepareForSolve] does not mark the level singular. *)
Lemma finest_level_sum_does_not_decide :
  ∃ st' finest,
    prepareForSolve 1 (λ st, st) (λ _ _ mf, mf) volume_average
      (λ _ crse _, crse) (λ _ bf _ _ _, bf) cancelling_operator = Ok st'
    ∧ m_lobc st' = [[Neumann]] ∧ m_hibc st' = [[Neumann]]
    ∧ m_domain_covered st' = [true]
    ∧ m_overset_mask st' = [[None; None]]
    ∧ m_a_scalar st' ≠ 0%Qc
    ∧ at2 (m_a_coeffs st') 0 0 = Ok finest
    ∧ (sum finest ≤ norm0 finest * Real_of 1 (10 ^ 12))%Qc
    ∧ m_is_singular st' = [false].
Proof.
  destruct cancelling_operator_run
    as (st' & finest & Hrun & Hlo & Hhi & Hcov & Hosm & Ha & _ & Hfin & Hle & Hsing).
  exists st', finest. split_and!; try done.
  rewrite Ha. apply Qc_1_neq_0.
Qed.

(** C1, as the code has it: after [prepareForSolve] and after [update], for
    an AMR level of a configuration without Dirichlet condition whose domain
    is covered and which has no overset mask, with [a_scalar ≠ 0], the level
    is marked singular exactly when the sum of the cell coefficient on the
    level's coarsest relaxation level ([m_a_coeffs[alev].back()]) is at
    most 1e-12 times that field's maximum magnitude. *)
Theorem singular_iff_coarsest_sum_negligible (AMREX_SPACEDIM : nat)
    (MLCellABecLap_prepareForSolve : MLABecLaplacian → MLABecLaplacian)
    (MLCellABecLap_needsUpdate : MLABecLaplacian → bool)
    (MLCellABecLap_update : MLABecLaplacian → MLABecLaplacian)
    (applyMetricTerm : nat → nat → MultiFab → MultiFab)
    (average_down : MultiFab → MultiFab → IntVect → MultiFab)
    (average_down_faces : list MultiFab → list MultiFab → IntVect → list MultiFab)
    (overset_rescale_bcoef : nat → MultiFab → iMultiFab → nat → Real → MultiFab)
    (st st' : MLABecLaplacian) (lobc0 hibc0 : list BCType) (alev : nat) :
  prepareForSolve AMREX_SPACEDIM MLCellABecLap_prepareForSolve applyMetricTerm
    average_down average_down_faces overset_rescale_bcoef st = Ok st'
  ∨ update AMREX_SPACEDIM MLCellABecLap_needsUpdate MLCellABecLap_update
      applyMetricTerm average_down average_down_faces overset_rescale_bcoef st
    = Ok st' →
  m_lobc st' !! 0%nat = Some lobc0 → m_hibc st' !! 0%nat = Some hibc0 →
  Dirichlet ∉ lobc0 → Dirichlet ∉ hibc0 →
  (alev < m_num_amr_levels st')%nat →
  m_domain_covered st' !! alev = Some true →
  at2 (m_overset_mask st') alev 0 = Ok None →
  m_a_scalar st' ≠ 0%Qc →
  m_needs_update st' = false
  ∧ ∃ coarsest,
      at_nat (m_a_coeffs st') alev ≫= back = Ok coarsest
      ∧ (m_is_singular st' !! alev = Some true
         ↔ (sum coarsest ≤ norm0 coarsest * Real_of 1 (10 ^ 12))%Qc)
      ∧ (m_is_singular st' !! alev = Some false
         ↔ ¬ (sum coarsest ≤ norm0 coarsest * Real_of 1 (10 ^ 12))%Qc).
Proof.
  intros Hrun Hlo Hhi Hd1 Hd2 Hlt Hcov Hosm Ha.
  assert (∃ st3 st4, detect_singular st3 = Ok st4 ∧ st' = set_needs_update st4 false)
    as (st3 & st4 & Hdet & ->).
  { destruct Hrun as [H|H].
    - unfold prepareForSolve in H.
      apply bind_Ok in H as (s1 & _ & H). apply bind_Ok in H as (s2 & _ & H).
      apply bind_Ok in H as (s3 & _ & H). apply bind_Ok in H as (s4 & Hdet & H).
      injection H as <-. eauto.
    - unfold update in H.
      apply bind_Ok in H as (s1 & _ & H). apply bind_Ok in H as (s2 & _ & H).
      apply bind_Ok in H as (s4 & Hdet & H). injection H as <-. eauto. }
  split; [done|]. simpl in *.
  apply detect_singular_spec in Hdet as ((E1 & E2 & E3 & E4 & E5 & E6 & E7) & Hspec).
  rewrite E1, E2, E3, E4, E5, E6, E7 in *.
  destruct (Hspec lobc0 hibc0 alev) as (coarsest & Hc & Hflag); try done.
  exists coarsest. split; [done|]. rewrite Hflag. split.
  - split.
    + intros [= Hb]. by apply bool_decide_eq_true in Hb.
    + intros Hle. f_equal. by apply bool_decide_eq_true.
  - split.
    + intros [= Hb]. by apply bool_decide_eq_false in Hb.
    + intros Hnle. f_equal. by apply bool_decide_eq_false.
Qed.

Lemma singular_iff_coarsest_sum_negligible_witness :
  ∃ st' coarsest,
    prepareForSolve 1 (λ st, st) (λ _ _ mf, mf) volume_average
      (λ _ crse _, crse) (λ _ bf _ _ _, bf) cancelling_operator = Ok st'
    ∧ at_nat (m_a_coeffs st') 0 ≫= back = Ok coarsest
    ∧ (m_is_singular st' !! 0%nat = Some false
       ↔ ¬ (sum coarsest ≤ norm0 coarsest * Real_of 1 (10 ^ 12))%Qc).
Proof.
  destruct cancelling_operator_run
    as (st' & finest & Hrun & Hlo & Hhi & Hcov & Hosm & Ha & Hn & _).
  destruct (singular_iff_coarsest_sum_negligible 1 (λ st, st) (λ _, false)
              (λ st, st) (λ _ _ mf, mf) volume_average (λ _ crse _, crse)
              (λ _ bf _ _ _, bf) cancelling_operator st' [Neumann] [Neumann] 0%nat)
    as (_ & coarsest & Hc & _ & Hflag).
  - left. exact Hrun.
  - rewrite Hlo. reflexivity.
  - rewrite Hhi. reflexivity.
  - intros Hin. apply list_elem_of_singleton in Hin. discriminate.
  - intros Hin. apply list_elem_of_singleton in Hin. discriminate.
  - rewrite Hn. lia.
  - rewrite Hcov. reflexivity.
  - rewrite Hosm. reflexivity.
  - rewrite Ha. apply Qc_1_neq_0.
  - exists st', coarsest. split; [exact Hrun|]. split; [exact Hc|exact Hflag].
Defined.

(** A store refreshed by [prepareForSolve], then [setScalars(0, 1)]: the
    finest relaxation level is zero-filled, the coarsest keeps the value
    restricted before, and the flag still says Clean. *)
Lemma cancelling_operator_setScalars :
  match prepareForSolve 1 (λ st, st) (λ _ _ mf, mf) volume_average
          (λ _ crse _, crse) (λ _ bf _ _ _, bf) cancelling_operator with
  | Ok st1 =>
      m_needs_update st1 = false
      ∧ match setScalars st1 0%Qc 1%Qc with
        | Ok st2 =>
            (λ mf, (λ f, this (arr f (0, 0, 0) 0%nat)) <$> fabs mf)
              <$> (m_a_coeffs st2 !! 0%nat ≫= (.!! 0%nat)) = Some [0%Q]
            ∧ (λ mf, (λ f, this (arr f (1, 0, 0) 0%nat)) <$> fabs mf)
                <$> (m_a_coeffs st2 !! 0%nat ≫= (.!! 1%nat)) = Some [(1 # 2 ^ 50)%Q]
        | _ => False
        end
  | _ => False
  end.
Proof. vm_compute. split; [reflexivity|]. split; reflexivity. Qed.

Lemma setScalars_leaves_store_clean_witness :
  ∃ st1 st2,
    prepareForSolve 1 (λ st, st) (λ _ _ mf, mf) volume_average
      (λ _ crse _, crse) (λ _ bf _ _ _, bf) cancelling_operator = Ok st1
    ∧ setScalars st1 0%Qc 1%Qc = Ok st2
    ∧ m_needs_update st2 = false
    ∧ m_a_scalar st2 = 0%Qc ∧ m_b_scalar st2 = 1%Qc.
Proof.
  pose proof cancelling_operator_setScalars as M.
  destruct (prepareForSolve 1 (λ st, st) (λ _ _ mf, mf) volume_average
              (λ _ crse _, crse) (λ _ bf _ _ _, bf) cancelling_operator)
    as [st1| |]; [|destruct M..].
  destruct M as [Hclean M].
  destruct (setScalars st1 0%Qc 1%Qc) as [st2| |] eqn:Hset; [|destruct M..].
  exists st1, st2. split; [reflexivity|]. split; [exact Hset|].
  exact (setScalars_leaves_store_clean st1 st2 0%Qc 1%Qc Hclean Hset).
Defined.

Lemma applyRobinBCTermsCoeffs_sets_a_scalar_witness :
  ∃ st', applyRobinBCTermsCoeffs 1 (set_a_scalar scenario_A 0%Qc) = Ok st'
         ∧ m_a_scalar st' = 1%Qc.
Proof.
  destruct (applyRobinBCTermsCoeffs 1 (set_a_scalar scenario_A 0%Qc))
    as [st'| |] eqn:Hrun; [|exfalso; vm_compute in Hrun; discriminate..].
  exists st'. split; [reflexivity|].
  refine (proj2 (proj2 (applyRobinBCTermsCoeffs_sets_a_scalar 1
                          (set_a_scalar scenario_A 0%Qc)) _ _) st' Hrun);
    reflexivity.
Defined.

End MLABecLaplacianFacts.

(** * Further properties of the distributed assembler *)

Module NodeSolveFacts.
Import HypreNodeLap HypreNodeLapFacts.

(** X1: the closing assertion of the numbering (lines 169-170) can never fire:
    [Int] addition is modular, so the running offset after the last patch is
    the process's first id plus its node count whatever the counts are, and
    the numbering phase always returns. *)
Theorem numbering_assertion_never_fires (cfg : BuildConfig) (ebfactory : bool)
    (world : list (list Patch)) (myid : nat) :
  0 < sizeof_Int cfg →
  ∃ num, number_nodes cfg ebfactory world myid = Ok num
    ∧ proc_end num
      = Int_add cfg (proc_begin num) (nnodes_proc_of cfg ebfactory (world !!! myid))
    ∧ length (num_offset num) = length (world !!! myid)
    ∧ length (num_nnodes_grid num) = length (world !!! myid).
Proof.
  intros Hsz.
  destruct (number_nodes_total cfg Hsz ebfactory world myid) as [num Hnum].
  exists num. split; [done|].
  unfold number_nodes in Hnum.
  pose proof (offsets_spec cfg Hsz
    (sumZ (take myid (MPI_Allgather cfg ebfactory world)))
    (snd <$> count_nodes cfg ebfactory (world !!! myid))) as (_ & Hlen & _).
  rewrite <- sum_Int_0 in Hlen by done.
  destruct (offsets cfg _ _) as [os e] eqn:Hoff.
  apply bind_Ok in Hnum as ([] & Hassert & Hnum). injection Hnum as <-. simpl.
  unfold always_assert in Hassert. case_bool_decide as He; [|done].
  split; [exact He|]. simpl in Hlen.
  unfold count_nodes in *. rewrite !length_fmap in *. done.
Qed.


Lemma numPts_nonneg (bx : Box) : 0 ≤ numPts bx.
Proof.
  unfold numPts.
  destruct (smallEnd bx) as [[lox loy] loz], (bigEnd bx) as [[hix hiy] hiz]. nia.
Qed.

(** X2: in a build that has the index-width check (AMREX_DEBUG or AMREX_TESTING,
    [Int] narrower than [Long] and not wider than [int]), a check that
    passes rules out every overflow of the numbering: each patch's count
    fits [int], the machine-wide count is below the largest [Int], and on
    every process the counts, the id range and the total are the exact
    numbers of retained nodes. *)
Theorem index_width_check_suffices (cfg : BuildConfig) (ebfactory : bool)
    (world : list (list Patch)) :
  (AMREX_DEBUG cfg || AMREX_TESTING cfg) = true →
  0 < sizeof_Int cfg ≤ 4 → sizeof_Int cfg < sizeof_Long cfg →
  foldr Z.add 0 ((numPts ∘ ndbx) <$> mjoin world) < 2 ^ (Long_bits cfg - 1) →
  check_index_width cfg world = Ok () →
  total_count cfg ebfactory world < Int_max cfg
  ∧ (∀ ps p, ps ∈ world → p ∈ ps → retained_count cfg ebfactory p ≤ int_max)
  ∧ ∀ r ps, world !! r = Some ps →
      ∃ num, number_nodes cfg ebfactory world r = Ok num
        ∧ num_nnodes_grid num = retained_count cfg ebfactory <$> ps
        ∧ proc_end num = proc_begin num + proc_count cfg ebfactory ps
        ∧ nnodes_total num = total_count cfg ebfactory world.
Proof.
  intros Hdbg Hsz Hlt HLong Hcheck.
  set (total := foldr Z.add 0 ((numPts ∘ ndbx) <$> mjoin world)) in *.
  assert (∀ n, n ∈ (numPts ∘ ndbx) <$> mjoin world → 0 ≤ n) as Hnn.
  { intros n Hn. apply list_elem_of_fmap in Hn as (p & -> & _). apply numPts_nonneg. }
  assert (0 ≤ total) as Htot by (by apply sumZ_nonneg).
  assert (total < Int_max cfg) as Hfit.
  { unfold check_index_width in Hcheck.
    rewrite Hdbg, bool_decide_eq_true_2 in Hcheck by done. simpl in Hcheck.
    unfold always_assert in Hcheck. case_bool_decide as Hc; [|done].
    unfold nba_numPts in Hc. fold total in Hc.
    rewrite wrap_id in Hc; [done|unfold Long_bits; lia|lia]. }
  assert (Int_max cfg ≤ int_max) as Hmax.
  { unfold Int_max, int_max, Int_bits.
    assert (2 ^ (8 * sizeof_Int cfg - 1) ≤ 2 ^ 31); [|lia].
    apply Z.pow_le_mono_r; lia. }
  pose proof (total_count_le_numPts cfg ebfactory world) as Hle. fold total in Hle.
  assert (∀ ps p, ps ∈ world → p ∈ ps → retained_count cfg ebfactory p ≤ int_max)
    as H32.
  { intros ps p Hps Hp.
    pose proof (retained_count_le_numPts cfg ebfactory p).
    assert (numPts (ndbx p) ≤ total); [|lia].
    apply sumZ_elem_le; [done|].
    apply (list_elem_of_fmap_2 (numPts ∘ ndbx)).
    apply list_elem_of_join. eauto. }
  split_and!; [lia|done|].
  intros r ps Hps.
  destruct (number_nodes_spec cfg (proj1 Hsz) ebfactory world H32 ltac:(lia) r ps Hps)
    as (num & Hnum & _ & Hpe & Hg & Ht & _).
  eauto.
Qed.

Section ConstructFacts.
Context (cfg : BuildConfig).
Context (exchange_node_id : list (Dim3 → Z) → list (Dim3 → Z)).
Context (linop : MLNodeLinOp).

Lemma construct_inv (ebfactory adjust : bool) (world : list (list Patch))
    (myid : nat) (st : HypreNodeLap) :
  construct cfg exchange_node_id linop ebfactory adjust world myid = Ok st →
  ∃ num,
    check_index_width cfg world = Ok ()
    ∧ number_nodes cfg ebfactory world myid = Ok num
    ∧ assemble_matrix cfg linop adjust (nnodes_total num) (world !!! myid)
        (num_nnodes_grid num) (exchange_node_id (num_node_id num))
      = Ok (node_id_vec st, A st)
    ∧ grids st = world !!! myid
    ∧ nnodes_grid st = num_nnodes_grid num
    ∧ node_id st = exchange_node_id (num_node_id num)
    ∧ adjustSingularMatrix st = adjust
    ∧ ilower st = proc_begin num
    ∧ iupper st = Int_add cfg (proc_end num) (-1)
    ∧ b st = [] ∧ x st = [].
Proof.
  unfold construct. intros H.
  apply bind_Ok in H as ([] & Hcheck & H).
  apply bind_Ok in H as (num & Hnum & H).
  apply bind_Ok in H as ([vecs A'] & Hasm & H). injection H as <-.
  exists num. simpl. split_and!; done.
Qed.

(** The insertions of the loop of lines 235-236 keep the length of [mat]. *)
Lemma zero_off_diagonal_length (ij : IJRows) (mat' : list Real) :
  zero_off_diagonal ij = Ok mat' → length mat' = length (mat ij).
Proof.
  unfold zero_off_diagonal. intros H.
  apply bind_Ok in H as (num_cols & _ & H). unfold for_range_R in H.
  revert H. generalize (range 0 (num_cols - 1)) (mat ij).
  intros l. induction l as [|ic l IH]; intros m H; simpl in H.
  { by injection H as <-. }
  apply bind_Ok in H as (m1 & Hstep & H). apply IH in H. rewrite H.
  apply bind_Ok in Hstep as (c & _ & Hstep).
  apply bind_Ok in Hstep as (r0 & _ & Hstep).
  apply bind_Ok in Hstep as (v & _ & Hstep). injection Hstep as <-.
  apply length_insert.
Qed.

(** What one pass of the assembly loop body leaves behind. *)
Lemma assemble_patch_spec (adjust : bool) (total : Z) (i : nat) (p : Patch)
    (nrows : Z) (nid : Dim3 → Z) (vecs vecs' : list (list Z))
    (A0 A' : list MatrixValues) :
  assemble_patch cfg linop adjust total i p nrows nid (vecs, A0) = Ok (vecs', A') →
  let ij := fillIJMatrix linop i p nid in
  if bool_decide (0 < nrows) then
    vecs' = <[i := rows ij]> vecs
    ∧ ∃ m, A' = A0 ++ [m] ∧ submits linop adjust nrows ij m
  else vecs' = vecs ∧ A' = A0.
Proof.
  intros H ij. unfold assemble_patch in H. fold ij in H.
  destruct (decide (0 < nrows)) as [Hn|Hn].
  - rewrite (bool_decide_eq_true_2 (0 < nrows)) by done.
    rewrite (bool_decide_eq_true_2 (nrows > 0)) in H by lia.
    apply bind_Ok in H as ([] & _ & H).
    apply bind_Ok in H as (pinned & Hpin & H).
    apply bind_Ok in H as (mat' & Hmat & H). injection H as <- <-.
    split; [done|]. eexists. split; [done|]. unfold submits. simpl.
    split_and!; try done.
    + destruct pinned; [by apply zero_off_diagonal_length|by injection Hmat as <-].
    + intros Hoff. destruct pinned; [|by injection Hmat as <-]. exfalso.
      unfold pin_row0 in Hpin.
      destruct (adjust && isBottomSingular linop); [|done].
      destruct Hoff as [Hoff|Hoff]; [done|].
      apply bind_Ok in Hpin as (r0 & Hr0 & Hpin). injection Hpin as Hpin.
      apply bool_decide_eq_true in Hpin. subst r0.
      unfold at_index in Hr0. simpl in Hr0. change (Z.to_nat 0) with 0%nat in Hr0.
      destruct (rows ij !! 0%nat) as [r|]; [|done]. simpl in Hr0.
      injection Hr0 as ->. done.
  - rewrite (bool_decide_eq_false_2 (0 < nrows)) by done.
    rewrite (bool_decide_eq_false_2 (nrows > 0)) in H by lia. by injection H as <- <-.
Qed.


(** The assembly loop over the patches of a process. *)
Lemma assemble_matrix_spec (adjust : bool) (total : Z) (ps : list Patch)
    (ng : list Z) (nid : list (Dim3 → Z)) (vecs0 vecs' : list (list Z))
    (A0 A' : list MatrixValues) :
  foldM (λ '(i, p), assemble_patch cfg linop adjust total i p (ng !!! i) (nid !!! i))
    (imap pair ps) (vecs0, A0) = Ok (vecs', A') →
  length vecs' = length vecs0
  ∧ (∀ i, (length ps ≤ i)%nat → vecs' !! i = vecs0 !! i)
  ∧ (∀ i p, ps !! i = Some p → (i < length vecs0)%nat →
       vecs' !! i = Some (if bool_decide (0 < ng !!! i)
                          then rows (fillIJMatrix linop i p (nid !!! i))
                          else vecs0 !!! i))
  ∧ ∃ new, A' = A0 ++ new
      ∧ Forall2 (λ m ip, submits linop adjust (ng !!! ip.1)
                           (fillIJMatrix linop ip.1 ip.2 (nid !!! ip.1)) m)
          new (filter (λ ip, 0 < ng !!! ip.1) (imap pair ps)).
Proof.
  revert vecs' A'. induction ps as [|p ps IH] using rev_ind; intros vecs' A' H.
  { simpl in H. injection H as <- <-. split_and!; [done..|].
    exists []. split; [by rewrite app_nil_r|constructor]. }
  rewrite imap_app, foldM_app in H. simpl in H. rewrite Nat.add_0_r in H.
  apply bind_Ok in H as ([vecs1 A1] & Hpre & H).
  destruct (IH _ _ Hpre) as (Hlen & Hout & Hin & new & -> & Hnew).
  apply bind_Ok in H as ([vecs2 A2] & Hstep & H). injection H as <- <-.
  apply assemble_patch_spec in Hstep.
  rewrite imap_app, list.filter_app. simpl. rewrite Nat.add_0_r.
  rewrite filter_cons, filter_nil. simpl.
  destruct (decide (0 < ng !!! length ps)) as [Hn|Hn].
  - rewrite (bool_decide_eq_true_2 (0 < _)) in Hstep by done.
    destruct Hstep as (-> & m & -> & Hm).
    split_and!.
    + by rewrite length_insert.
    + intros i Hi. rewrite length_app in Hi. simpl in Hi.
      rewrite list_lookup_insert_ne by lia. apply Hout. lia.
    + intros i q Hq Hlt. destruct (decide (i = length ps)) as [->|Hne].
      * rewrite list_lookup_insert_eq by lia.
        rewrite lookup_app_r, Nat.sub_diag in Hq by lia. injection Hq as <-.
        by rewrite bool_decide_eq_true_2.
      * rewrite list_lookup_insert_ne by done. apply Hin; [|done].
        rewrite lookup_app_l in Hq; [done|].
        apply lookup_lt_Some in Hq. rewrite length_app in Hq. simpl in Hq. lia.
    + exists (new ++ [m]). split; [by rewrite app_assoc|].
      apply Forall2_app; [done|]. by constructor.
  - rewrite (bool_decide_eq_false_2 (0 < _)) in Hstep by done.
    destruct Hstep as [-> ->]. split_and!.
    + done.
    + intros i Hi. rewrite length_app in Hi. simpl in Hi. apply Hout. lia.
    + intros i q Hq Hlt. destruct (decide (i = length ps)) as [->|Hne].
      * rewrite Hout by lia.
        rewrite (bool_decide_eq_false_2 (0 < _)) by done.
        by apply list_lookup_lookup_total_lt.
      * apply Hin; [|done].
        rewrite lookup_app_l in Hq; [done|].
        apply lookup_lt_Some in Hq. rewrite length_app in Hq. simpl in Hq. lia.
    + exists new. split; [done|]. by rewrite app_nil_r.
Qed.

End ConstructFacts.

(** X3: every patch with retained nodes passes exactly one block of rows to the
    matrix, in patch order, carrying the arrays of the stencil provider; a
    patch without retained nodes passes nothing and its row list stays
    empty.  The values are the provider's unless the patch is pinned (the
    adjust-singular-matrix option on, the bottom level singular and its first
    row equal to 0). *)
Theorem construct_matrix_calls (cfg : BuildConfig)
    (exchange_node_id : list (Dim3 → Z) → list (Dim3 → Z)) (linop : MLNodeLinOp)
    (ebfactory adjust : bool) (world : list (list Patch)) (myid : nat)
    (st : HypreNodeLap) :
  construct cfg exchange_node_id linop ebfactory adjust world myid = Ok st →
  length (node_id_vec st) = length (grids st)
  ∧ (∀ i p, grids st !! i = Some p →
       node_id_vec st !! i
       = Some (if bool_decide (0 < nnodes_grid st !!! i)
               then rows (fillIJMatrix linop i p (node_id st !!! i)) else []))
  ∧ Forall2 (λ m ip, submits linop adjust (nnodes_grid st !!! ip.1)
                       (fillIJMatrix linop ip.1 ip.2 (node_id st !!! ip.1)) m)
      (A st) (filter (λ ip, 0 < nnodes_grid st !!! ip.1) (imap pair (grids st))).
Proof.
  intros H.
  apply construct_inv in H
    as (num & _ & _ & Hasm & Hg & Hn & Hid & _).
  unfold assemble_matrix in Hasm.
  apply assemble_matrix_spec in Hasm as (Hlen & _ & Hin & new & HA & Hnew).
  rewrite length_replicate in Hlen, Hin. rewrite Hg, Hn, Hid. split_and!.
  - done.
  - intros i p Hp. rewrite (Hin i p Hp) by (by eapply lookup_lt_Some).
    f_equal. case_bool_decide; [done|].
    rewrite list_lookup_total_alt, lookup_replicate_2; [done|].
    by eapply lookup_lt_Some.
  - rewrite HA. done.
Qed.

(** The loop of lines 311-319 appends one value per owned, numbered node, in
    traversal order. *)
Lemma gather_rhs_selected (p : Patch) (nid : Dim3 → Z) (bfab : Dim3 → Real) :
  gather_rhs p nid bfab = bfab <$> selected p nid.
Proof.
  unfold gather_rhs, selected. rewrite for_3d_cells.
  assert (∀ l acc,
    foldl (λ (s : list Real) '(i, j, k),
             if bool_decide (nid (i, j, k) >= 0) && bool_decide (owner p (i, j, k) ≠ 0)
             then s ++ [bfab (i, j, k)] else s) acc l
    = acc ++ (bfab <$> filter (λ c, nid c >= 0 ∧ owner p c ≠ 0) l)) as Hgen.
  { induction l as [|[[i j] k] l IH]; intros acc; cbn [foldl].
    { by rewrite filter_nil, app_nil_r. }
    rewrite IH, filter_cons.
    destruct (decide (nid (i, j, k) >= 0 ∧ owner p (i, j, k) ≠ 0)) as [[H1 H2]|Hn].
    - rewrite !bool_decide_eq_true_2 by done. simpl. by rewrite <- app_assoc.
    - destruct (decide (nid (i, j, k) >= 0)); destruct (decide (owner p (i, j, k) ≠ 0));
        try tauto;
        rewrite ?(bool_decide_eq_false_2 (nid (i, j, k) >= 0)) by done;
        rewrite ?(bool_decide_eq_false_2 (owner p (i, j, k) ≠ 0)) by done;
        rewrite ?andb_false_r; done. }
  by rewrite Hgen.
Qed.



Lemma filter_ext_in {A} (P Q : A → Prop) `{!∀ a, Decision (P a)}
    `{!∀ a, Decision (Q a)} (l : list A) :
  (∀ a, a ∈ l → P a ↔ Q a) → filter P l = filter Q l.
Proof.
  induction l as [|a l IH]; intros Hpq; [done|].
  rewrite !filter_cons.
  assert (P a ↔ Q a) as Ha by (apply Hpq; left).
  rewrite IH by (intros; apply Hpq; by right).
  destruct (decide (P a)), (decide (Q a)); tauto || done.
Qed.

(** X4: the row range the constructor hands to the solver (lines 182-185): on
    a run without overflow the patch counts are the numbers of retained
    nodes, [ilower] is the number of retained nodes of the lower ranks and
    [iupper - ilower + 1] the number of this process, so that a process
    without retained nodes announces the empty range [ilower, ilower - 1]. *)
Theorem construct_row_range (cfg : BuildConfig)
    (exchange_node_id : list (Dim3 → Z) → list (Dim3 → Z)) (linop : MLNodeLinOp)
    (ebfactory adjust : bool) (world : list (list Patch)) (myid : nat)
    (ps : list Patch) (st : HypreNodeLap) :
  0 < sizeof_Int cfg →
  (∀ ps p, ps ∈ world → p ∈ ps → retained_count cfg ebfactory p ≤ int_max) →
  total_count cfg ebfactory world ≤ Int_max cfg →
  world !! myid = Some ps →
  construct cfg exchange_node_id linop ebfactory adjust world myid = Ok st →
  grids st = ps
  ∧ nnodes_grid st = retained_count cfg ebfactory <$> ps
  ∧ ilower st = sumZ (proc_count cfg ebfactory <$> take myid world)
  ∧ iupper st = ilower st + proc_count cfg ebfactory ps - 1
  ∧ 0 ≤ ilower st ∧ iupper st < total_count cfg ebfactory world.
Proof.
  intros Hsz H32 HInt Hps H.
  apply construct_inv in H as (num & _ & Hnum & _ & Hg & Hn & _ & _ & Hlo & Hhi & _).
  destruct (number_nodes_spec cfg Hsz ebfactory world H32 HInt myid ps Hps)
    as (num' & Hnum' & Hpb & Hpe & Hgrid & _).
  rewrite Hnum in Hnum'. injection Hnum' as <-.
  pose proof (take_counts_bounds cfg ebfactory world myid) as Hb.
  pose proof (take_counts_bounds cfg ebfactory world (S myid)) as Hb'.
  rewrite (take_S_r _ myid (proc_count cfg ebfactory ps)) in Hb'
    by (by rewrite list_lookup_fmap, Hps).
  unfold sumZ in Hb'. rewrite sumZ_app in Hb'. simpl in Hb'.
  pose proof (proc_count_nonneg cfg ebfactory ps) as Hpc.
  rewrite (list_lookup_total_correct _ _ _ Hps) in Hg.
  assert (iupper st = proc_end num - 1) as Hup.
  { rewrite Hhi. unfold Int_add. apply wrap_id; [by apply Int_bits_pos|].
    pose proof (Int_lowest_neg cfg Hsz). unfold Int_lowest, Int_max, sumZ in *. lia. }
  rewrite fmap_take. unfold sumZ in *. split_and!; try done; try lia.
  congruence.
Qed.

(** After construction the nodes that the vector load and the scatter visit
    in a patch (numbered and owned) are the retained nodes counted for it. *)
Lemma constructed_selected (cfg : BuildConfig)
    (exchange_node_id : list (Dim3 → Z) → list (Dim3 → Z)) (linop : MLNodeLinOp)
    (ebfactory adjust : bool) (world : list (list Patch)) (myid : nat)
    (ps : list Patch) (st : HypreNodeLap) :
  0 < sizeof_Int cfg →
  (∀ ps p, ps ∈ world → p ∈ ps → retained_count cfg ebfactory p ≤ int_max) →
  total_count cfg ebfactory world ≤ Int_max cfg →
  world !! myid = Some ps →
  (∀ ids i p c, ps !! i = Some p → contains_cell (ndbx p) c = true →
     owner p c ≠ 0 → (exchange_node_id ids !!! i) c = (ids !!! i) c) →
  construct cfg exchange_node_id linop ebfactory adjust world myid = Ok st →
  ∀ i p, grids st !! i = Some p →
    selected p (node_id st !!! i) = retained_cells cfg ebfactory p
    ∧ nnodes_grid st !!! i = retained_count cfg ebfactory p
    ∧ (node_id st !!! i) <$> retained_cells cfg ebfactory p
      = seqZ (ilower st + sumZ (take i (nnodes_grid st)))
          (retained_count cfg ebfactory p).
Proof.
  intros Hsz H32 HInt Hps Hexch H i p Hp.
  apply construct_inv in H as (num & _ & Hnum & _ & Hg & Hn & Hid & _ & Hlo & _).
  destruct (number_nodes_spec cfg Hsz ebfactory world H32 HInt myid ps Hps)
    as (num' & Hnum' & Hpb & Hpe & Hgrid & _ & Hpatch).
  rewrite Hnum in Hnum'. injection Hnum' as <-.
  rewrite (list_lookup_total_correct _ _ _ Hps) in Hg. rewrite Hg in Hp.
  destruct (Hpatch i p Hp) as (Hos & nid & Hnid & Hseq & Hout).
  pose proof (take_counts_bounds cfg ebfactory world myid) as Hb.
  assert (0 ≤ sumZ (retained_count cfg ebfactory <$> take i ps)) as Hpre.
  { apply sumZ_nonneg. intros n Hin.
    apply list_elem_of_fmap in Hin as (q & -> & _). apply retained_count_nonneg. }
  assert (∀ c, c ∈ cells (ndbx p) → owner p c ≠ 0 → (node_id st !!! i) c = nid c)
    as Hown.
  { intros c Hc Ho. rewrite Hid, (Hexch _ i p c Hp) by (by apply elem_of_cells || done).
    by rewrite (list_lookup_total_correct _ _ _ Hnid). }
  assert (∀ c, retained cfg ebfactory p c = true → owner p c ≠ 0) as Hro.
  { intros [[ci cj] ck] Hr. unfold retained in Hr.
    apply andb_true_iff in Hr as [Hr _]. apply negb_true_iff in Hr.
    apply orb_false_iff in Hr as [Hr _]. by apply bool_decide_eq_false in Hr. }
  split_and!.
  - unfold selected, retained_cells. apply filter_ext_in. intros c Hc. split.
    + intros [Hge Ho]. rewrite Hown in Hge by done.
      destruct (retained cfg ebfactory p c) eqn:Hr; [done|]. exfalso.
      rewrite Hout in Hge; [lia| |].
      * apply contains_cell_grow; [lia|by apply elem_of_cells].
      * rewrite elem_of_retained_cells. intros [_ Hr']. congruence.
    + intros Hr. split; [|by apply Hro]. rewrite Hown by (done || by apply Hro).
      assert (nid c ∈ nid <$> retained_cells cfg ebfactory p) as Hin.
      { apply list_elem_of_fmap_2, elem_of_retained_cells.
        split; [by apply elem_of_cells|done]. }
      rewrite Hseq in Hin. apply elem_of_seqZ in Hin. unfold sumZ in *. lia.
  - rewrite Hn, Hgrid. apply list_lookup_total_correct.
    by rewrite list_lookup_fmap, Hp.
  - rewrite Hlo, Hn, Hgrid, <- fmap_take, <- Hseq.
    apply list_fmap_ext. intros k c Hc.
    apply list_elem_of_lookup_2, elem_of_retained_cells in Hc as [Hc Hr].
    apply Hown; [by apply elem_of_cells|by apply Hro].
Qed.

(** X5: after construction the right-hand side gathered for a patch holds
    exactly [nrows] values, the value of the k-th retained node at position
    k, and the ids found on the nodes it is gathered from are the patch's
    consecutive row ids.  The statement is for runs without overflow and for
    an exchange of shared and ghost ids that leaves the ids on owned nodes as
    they are. *)
Theorem rhs_has_one_value_per_row (cfg : BuildConfig)
    (exchange_node_id : list (Dim3 → Z) → list (Dim3 → Z)) (linop : MLNodeLinOp)
    (ebfactory adjust : bool) (world : list (list Patch)) (myid : nat)
    (ps : list Patch) (st : HypreNodeLap) :
  0 < sizeof_Int cfg →
  (∀ ps p, ps ∈ world → p ∈ ps → retained_count cfg ebfactory p ≤ int_max) →
  total_count cfg ebfactory world ≤ Int_max cfg →
  world !! myid = Some ps →
  (∀ ids i p c, ps !! i = Some p → contains_cell (ndbx p) c = true →
     owner p c ≠ 0 → (exchange_node_id ids !!! i) c = (ids !!! i) c) →
  construct cfg exchange_node_id linop ebfactory adjust world myid = Ok st →
  ∀ i p rhs, grids st !! i = Some p →
    let bvec := gather_rhs p (node_id st !!! i) (fab rhs i) in
    Z.of_nat (length bvec) = nnodes_grid st !!! i
    ∧ bvec = fab rhs i <$> retained_cells cfg ebfactory p
    ∧ (node_id st !!! i) <$> selected p (node_id st !!! i)
      = seqZ (ilower st + sumZ (take i (nnodes_grid st))) (nnodes_grid st !!! i).
Proof.
  intros Hsz H32 HInt Hps Hexch H i p rhs Hp bvec.
  destruct (constructed_selected cfg exchange_node_id linop ebfactory adjust world
              myid ps st Hsz H32 HInt Hps Hexch H i p Hp) as (Hsel & Hcnt & Hids).
  unfold bvec. rewrite gather_rhs_selected, Hsel, Hcnt, length_fmap.
  split_and!; [done|done|exact Hids].
Qed.

Lemma at_index_ge {A} (v : list A) (i : Z) :
  Z.of_nat (length v) ≤ i → at_index v i = OutOfBounds.
Proof.
  intros Hi. unfold at_index. rewrite bool_decide_eq_true_2 by lia.
  rewrite lookup_ge_None_2; [done|lia].
Qed.

(** [HYPRE_IJVectorGetValues] reads the first [nrows] entries of [rows]. *)
Lemma getValues_loop (sol : Z → Real) (rows : list Z) (k : nat) :
  (k ≤ length rows)%nat →
  foldM (λ i xvec, r ← at_index rows i; Ok (xvec ++ [sol r]))
    (seqZ 0 (Z.of_nat k)) []
  = Ok (sol <$> take k rows).
Proof.
  induction k as [|k IH]; intros Hk; [done|].
  rewrite seqZ_S, foldM_app, IH by lia. simpl. rewrite Z.add_0_l.
  destruct (lookup_lt_is_Some_2 rows k) as [r Hr]; [lia|].
  rewrite (at_index_Some _ k r) by done. simpl.
  by rewrite (take_S_r _ _ r), fmap_app by done.
Qed.

Lemma getValues_spec (sol : Z → Real) (nrows : Z) (rows : list Z) :
  0 ≤ nrows →
  getValues sol nrows rows
  = if bool_decide (nrows ≤ Z.of_nat (length rows))
    then Ok (sol <$> take (Z.to_nat nrows) rows) else OutOfBounds.
Proof.
  intros Hn. unfold getValues, for_range_R, range.
  replace (nrows - 1 - 0 + 1) with nrows by lia.
  case_bool_decide as Hle.
  - rewrite <- (Z2Nat.id nrows) at 1 by done. apply getValues_loop. lia.
  - replace nrows with (Z.of_nat (length rows) + (nrows - Z.of_nat (length rows)))
      at 1 by lia.
    rewrite seqZ_app, foldM_app, getValues_loop by lia. simpl.
    rewrite seqZ_cons by lia. simpl.
    by rewrite at_index_ge by lia.
Qed.

(** The scatter loop of lines 354-362 from position [k0] of [xvec]. *)
Lemma scatter_loop (P : Dim3 → bool) (xvec : list Real) (l : list Dim3) :
  NoDup l → ∀ (xfab0 : Dim3 → Real) (k0 : nat),
  (k0 ≤ length xvec)%nat →
  let sel := filter (λ c, P c = true) l in
  let run := foldM (λ c '(xfab, offset),
                 if P c then v ← at_index xvec offset; Ok (<[c := v]> xfab, offset + 1)
                 else Ok (xfab, offset))
               l (xfab0, Z.of_nat k0) in
  if bool_decide (k0 + length sel ≤ length xvec)%nat then
    ∃ xfab, run = Ok (xfab, Z.of_nat (k0 + length sel))
      ∧ xfab <$> sel = take (length sel) (drop k0 xvec)
      ∧ ∀ c, c ∉ sel → xfab c = xfab0 c
  else run = OutOfBounds.
Proof.
  induction 1 as [|c l Hnin Hnd IH]; intros xfab0 k0 Hk0; simpl.
  { rewrite bool_decide_eq_true_2 by lia. exists xfab0.
    rewrite Nat.add_0_r. by rewrite take_0. }
  rewrite filter_cons. destruct (P c) eqn:HP.
  - rewrite decide_True by done. simpl.
    destruct (decide (k0 < length xvec)%nat) as [Hlt|Hge].
    + destruct (lookup_lt_is_Some_2 xvec k0 Hlt) as [v Hv].
      rewrite (at_index_Some _ _ v Hv). simpl.
      specialize (IH (<[c := v]> xfab0) (S k0) ltac:(lia)).
      replace (Z.of_nat k0 + 1) with (Z.of_nat (S k0)) by lia.
      replace (k0 + S (length (filter (λ c, P c = true) l)))%nat
        with (S k0 + length (filter (λ c, P c = true) l))%nat by lia.
      simpl in IH. simpl.
      destruct (bool_decide (S (k0 + length (filter (λ c, P c = true) l))
                             ≤ length xvec)%nat); [|done].
      destruct IH as (xfab & -> & Hsel & Hout). exists xfab. split; [done|].
      assert (c ∉ filter (λ c, P c = true) l) as Hc.
      { rewrite list_elem_of_filter. tauto. }
      split.
      * rewrite Hout, fn_lookup_insert by done.
        rewrite (drop_S _ v) by done. simpl. f_equal. exact Hsel.
      * intros c' Hc'. apply not_elem_of_cons in Hc' as [Hne Hc'].
        rewrite Hout by done. by rewrite fn_lookup_insert_ne.
    + rewrite bool_decide_eq_false_2 by lia.
      by rewrite at_index_ge by lia.
  - rewrite decide_False by congruence. by apply IH.
Qed.

Section ScatterFacts.
Context (cfg : BuildConfig) (linop : MLNodeLinOp).

(** One pass of the scatter loop body over patch [i]. *)
Lemma getSolution_patch_spec (st : HypreNodeLap) (sol : Z → Real) (i : nat)
    (p : Patch) (tmp : nat → Dim3 → Real) :
  let nrows := nnodes_grid st !!! i in
  let rows := node_id_vec st !!! i in
  let sel := selected p (node_id st !!! i) in
  if bool_decide (nrows < 0) then getSolution_patch st sol i p tmp = Ok tmp
  else if bool_decide (nrows ≤ Z.of_nat (length rows))
          && bool_decide (Z.of_nat (length sel) ≤ nrows)
  then ∃ xfab, getSolution_patch st sol i p tmp = Ok (<[i := xfab]> tmp)
         ∧ xfab <$> sel = sol <$> take (length sel) rows
         ∧ ∀ c, c ∉ sel → xfab c = tmp i c
  else getSolution_patch st sol i p tmp = OutOfBounds.
Proof.
  intros nrows rows sel. unfold getSolution_patch. fold nrows rows.
  destruct (decide (nrows < 0)) as [Hneg|Hnn].
  { rewrite (bool_decide_eq_true_2 (nrows < 0)) by done.
    by rewrite (bool_decide_eq_false_2 (nrows >= 0)) by lia. }
  rewrite (bool_decide_eq_false_2 (nrows < 0)) by done.
  rewrite (bool_decide_eq_true_2 (nrows >= 0)) by lia.
  rewrite getValues_spec by lia.
  destruct (decide (nrows ≤ Z.of_nat (length rows))) as [Hle|Hgt].
  2:{ by rewrite !(bool_decide_eq_false_2 (nrows ≤ _)) by done. }
  rewrite !(bool_decide_eq_true_2 (nrows ≤ _)) by done. simpl.
  pose proof (scatter_loop
    (λ c, bool_decide (node_id st !!! i $ c >= 0) && bool_decide (owner p c ≠ 0))
    (sol <$> take (Z.to_nat nrows) rows) (cells (ndbx p)) (NoDup_cells _)
    (tmp i) 0%nat ltac:(lia)) as Hloop.
  cbv beta zeta in Hloop.
  assert (filter (λ c, bool_decide (node_id st !!! i $ c >= 0)
                       && bool_decide (owner p c ≠ 0) = true) (cells (ndbx p))
          = sel) as Hsel.
  { unfold sel, selected. apply list_filter_iff. intros c.
    rewrite andb_true_iff, !bool_decide_eq_true. done. }
  rewrite Hsel in Hloop. change (Z.of_nat 0) with 0 in Hloop.
  rewrite !Nat.add_0_l in Hloop.
  rewrite length_fmap, length_take in Hloop.
  destruct (decide (Z.of_nat (length sel) ≤ nrows)) as [Hfit|Hover].
  - rewrite (bool_decide_eq_true_2 (Z.of_nat (length sel) ≤ nrows)) by done.
    rewrite bool_decide_eq_true_2 in Hloop by lia.
    destruct Hloop as (xfab & Hrun & Hvals & Hout).
    exists xfab. rewrite Hrun. simpl. split; [done|]. split; [|done].
    rewrite Hvals, drop_0, <- fmap_take, take_take. do 2 f_equal. lia.
  - rewrite (bool_decide_eq_false_2 (Z.of_nat (length sel) ≤ nrows)) by done.
    rewrite bool_decide_eq_false_2 in Hloop by lia.
    by rewrite Hloop.
Qed.


(** The scatter loop over the patches of a process. *)
Lemma getSolution_fold (st : HypreNodeLap) (sol : Z → Real) (ps : list Patch)
    (tmp0 : nat → Dim3 → Real) :
  (∀ i p, ps !! i = Some p → 0 ≤ nnodes_grid st !!! i →
     nnodes_grid st !!! i ≤ Z.of_nat (length (node_id_vec st !!! i))
     ∧ Z.of_nat (length (selected p (node_id st !!! i))) ≤ nnodes_grid st !!! i) →
  ∃ tmp,
    foldM (λ '(i, p), getSolution_patch st sol i p) (imap pair ps) tmp0 = Ok tmp
    ∧ (∀ i, (length ps ≤ i)%nat → tmp i = tmp0 i)
    ∧ ∀ i p, ps !! i = Some p →
        let sel := selected p (node_id st !!! i) in
        if bool_decide (nnodes_grid st !!! i < 0) then tmp i = tmp0 i
        else tmp i <$> sel = sol <$> take (length sel) (node_id_vec st !!! i)
             ∧ ∀ c, c ∉ sel → tmp i c = tmp0 i c.
Proof.
  induction ps as [|p ps IH] using rev_ind; intros Hinv.
  { exists tmp0. split_and!; [done..|]. intros i p Hp. done. }
  destruct IH as (tmp1 & Hrun & Hout & Hin).
  { intros i q Hq. apply Hinv. by apply lookup_app_l_Some. }
  rewrite imap_app, foldM_app, Hrun. simpl. rewrite Nat.add_0_r.
  pose proof (getSolution_patch_spec st sol (length ps) p tmp1) as Hstep.
  cbv zeta in Hstep.
  assert ((ps ++ [p]) !! length ps = Some p) as Hp.
  { by rewrite lookup_app_r, Nat.sub_diag by lia. }
  destruct (decide (nnodes_grid st !!! length ps < 0)) as [Hneg|Hnn].
  - rewrite (bool_decide_eq_true_2 (_ < 0)) in Hstep by done. rewrite Hstep.
    exists tmp1. split; [done|]. split.
    + intros i Hi. rewrite length_app in Hi. simpl in Hi. apply Hout. lia.
    + intros i q Hq. destruct (decide (i = length ps)) as [->|Hne].
      * rewrite (bool_decide_eq_true_2 (_ < 0)) by done. by apply Hout.
      * apply Hin. rewrite lookup_app_l in Hq; [done|].
        apply lookup_lt_Some in Hq. rewrite length_app in Hq. simpl in Hq. lia.
  - rewrite (bool_decide_eq_false_2 (_ < 0)) in Hstep by done.
    destruct (Hinv _ _ Hp ltac:(lia)) as [H1 H2].
    rewrite (bool_decide_eq_true_2 (_ ≤ Z.of_nat (length _))) in Hstep by done.
    rewrite (bool_decide_eq_true_2 (Z.of_nat (length _) ≤ _)) in Hstep by done.
    simpl in Hstep. destruct Hstep as (xfab & -> & Hvals & Hrest).
    eexists. split; [done|]. split.
    + intros i Hi. rewrite length_app in Hi. simpl in Hi.
      rewrite fn_lookup_insert_ne by lia. apply Hout. lia.
    + intros i q Hq. destruct (decide (i = length ps)) as [->|Hne].
      * rewrite Hp in Hq. injection Hq as <-.
        rewrite (bool_decide_eq_false_2 (_ < 0)) by done.
        rewrite fn_lookup_insert. split; [done|].
        intros c Hc. rewrite Hrest by done. by rewrite Hout.
      * rewrite fn_lookup_insert_ne by done.
        apply Hin. rewrite lookup_app_l in Hq; [done|].
        apply lookup_lt_Some in Hq. rewrite length_app in Hq. simpl in Hq. lia.
Qed.

Lemma fmap_eq_elem {A B} (f g : A → B) (l : list A) (a : A) :
  f <$> l = g <$> l → a ∈ l → f a = g a.
Proof.
  induction l as [|a' l IH]; intros Heq Ha; [by apply elem_of_nil in Ha|].
  rewrite !fmap_cons in Heq. injection Heq as H1 H2.
  apply elem_of_cons in Ha as [->|Ha]; [done|by apply IH].
Qed.

End ScatterFacts.

(** X6: the bounds of the scatter of one patch (lines 340-363).  A patch with a
    negative count is skipped.  Otherwise the scatter stays inside its
    arrays exactly when the patch's row list has at least [nrows] entries
    and the patch has at most [nrows] owned, numbered nodes; in every other
    case it reads [rows] or [xvec] out of bounds.  It never raises a fatal
    error. *)
Theorem getSolution_patch_bounds (st : HypreNodeLap) (sol : Z → Real) (i : nat)
    (p : Patch) (tmp : nat → Dim3 → Real) :
  let nrows := nnodes_grid st !!! i in
  let rows := node_id_vec st !!! i in
  let sel := selected p (node_id st !!! i) in
  ((∃ tmp', getSolution_patch st sol i p tmp = Ok tmp')
   ↔ nrows < 0 ∨ (nrows ≤ Z.of_nat (length rows) ∧ Z.of_nat (length sel) ≤ nrows))
  ∧ (getSolution_patch st sol i p tmp = OutOfBounds
     ↔ 0 ≤ nrows ∧ (Z.of_nat (length rows) < nrows ∨ nrows < Z.of_nat (length sel)))
  ∧ (nrows < 0 → getSolution_patch st sol i p tmp = Ok tmp)
  ∧ ∀ msg, getSolution_patch st sol i p tmp ≠ Abort msg.
Proof.
  intros nrows rows sel.
  pose proof (getSolution_patch_spec st sol i p tmp) as H. cbv zeta in H.
  fold nrows rows sel in H.
  destruct (decide (nrows < 0)) as [Hneg|Hnn].
  { rewrite (bool_decide_eq_true_2 (nrows < 0)) in H by done. rewrite H.
    split_and!; [split; eauto|split; [done|lia]|done|done]. }
  rewrite (bool_decide_eq_false_2 (nrows < 0)) in H by done.
  destruct (decide (nrows ≤ Z.of_nat (length rows))) as [Hle|Hgt];
    [destruct (decide (Z.of_nat (length sel) ≤ nrows)) as [Hfit|Hover]|].
  - rewrite !bool_decide_eq_true_2 in H by done. simpl in H.
    destruct H as (xfab & -> & _).
    split_and!; [split; eauto|split; [done|lia]|lia|done].
  - rewrite (bool_decide_eq_false_2 (Z.of_nat (length sel) ≤ nrows)) in H by done.
    rewrite andb_false_r in H. rewrite H.
    split_and!; [split; [by intros [? ?]|lia]|split; [lia|done]|lia|done].
  - rewrite (bool_decide_eq_false_2 (nrows ≤ _)) in H by done. simpl in H.
    rewrite H.
    split_and!; [split; [by intros [? ?]|lia]|split; [lia|done]|lia|done].
Qed.

(** X7: the scatter of the solution (lines 332-367): when every patch has at
    least as many row ids as its count says and at most as many owned,
    numbered nodes, [getSolution] stays in bounds; in the field it adds to
    the solution the k-th owned, numbered node of a patch holds the solver's
    value for the patch's k-th row id, and every other node holds zero. *)
Theorem getSolution_scatters_rows (ParallelAdd : MultiFab → MultiFab → MultiFab)
    (st : HypreNodeLap) (sol : Z → Real) (soln : MultiFab) :
  (∀ i p, grids st !! i = Some p → 0 ≤ nnodes_grid st !!! i →
     nnodes_grid st !!! i ≤ Z.of_nat (length (node_id_vec st !!! i))
     ∧ Z.of_nat (length (selected p (node_id st !!! i))) ≤ nnodes_grid st !!! i) →
  ∃ tmpsoln,
    getSolution ParallelAdd st sol soln = Ok (ParallelAdd soln (MkMultiFab 0 tmpsoln))
    ∧ (∀ i c, (length (grids st) ≤ i)%nat → tmpsoln i c = 0%Qc)
    ∧ ∀ i p, grids st !! i = Some p →
        let sel := selected p (node_id st !!! i) in
        (∀ c, c ∉ sel → tmpsoln i c = 0%Qc)
        ∧ (0 ≤ nnodes_grid st !!! i →
           tmpsoln i <$> sel = sol <$> take (length sel) (node_id_vec st !!! i))
        ∧ (nnodes_grid st !!! i < 0 → ∀ c, tmpsoln i c = 0%Qc).
Proof.
  intros Hinv.
  destruct (getSolution_fold st sol (grids st) (λ _ _, 0%Qc) Hinv)
    as (tmp & Hrun & Hout & Hin).
  exists tmp. unfold getSolution. rewrite Hrun. simpl. split; [done|]. split.
  - intros i c Hi. by rewrite Hout.
  - intros i p Hp. specialize (Hin i p Hp). cbv zeta in Hin.
    case_bool_decide as Hn.
    + split_and!; [intros; by rewrite Hin|lia|intros; by rewrite Hin].
    + destruct Hin as [Hvals Hrest]. split_and!; [done|done|lia].
Qed.

(** X8: gather and scatter are inverse to each other: when the solver returns at
    every row id the right-hand side value loaded for it (as it does for the
    identity matrix), the field scattered by [getSolution] equals the
    right-hand side on every owned, numbered node and is zero elsewhere. *)
Theorem gather_scatter_round_trip (ParallelAdd : MultiFab → MultiFab → MultiFab)
    (st : HypreNodeLap) (sol : Z → Real) (soln rhs : MultiFab) :
  (∀ i p, grids st !! i = Some p →
     nnodes_grid st !!! i = Z.of_nat (length (node_id_vec st !!! i))
     ∧ nnodes_grid st !!! i = Z.of_nat (length (selected p (node_id st !!! i)))
     ∧ sol <$> node_id_vec st !!! i = gather_rhs p (node_id st !!! i) (fab rhs i)) →
  ∃ tmpsoln,
    getSolution ParallelAdd st sol soln = Ok (ParallelAdd soln (MkMultiFab 0 tmpsoln))
    ∧ ∀ i p c, grids st !! i = Some p →
        tmpsoln i c
        = if bool_decide (c ∈ selected p (node_id st !!! i)) then fab rhs i c
          else 0%Qc.
Proof.
  intros Hinv.
  destruct (getSolution_fold st sol (grids st) (λ _ _, 0%Qc))
    as (tmp & Hrun & Hout & Hin).
  { intros i p Hp _. destruct (Hinv i p Hp) as (H1 & H2 & _). lia. }
  exists tmp. unfold getSolution. rewrite Hrun. simpl. split; [done|].
  intros i p c Hp. specialize (Hin i p Hp). cbv zeta in Hin.
  destruct (Hinv i p Hp) as (H1 & H2 & Hsol).
  rewrite (bool_decide_eq_false_2 (_ < 0)) in Hin by lia.
  destruct Hin as [Hvals Hrest].
  case_bool_decide as Hc; [|by apply Hrest].
  rewrite firstn_all2 in Hvals by lia.
  rewrite Hsol, gather_rhs_selected in Hvals.
  by apply (fmap_eq_elem _ _ _ c) in Hvals.
Qed.

Lemma omap_cons_option_list {A B} (f : A → option B) (a : A) (l : list A) :
  omap f (a :: l) = option_list (f a) ++ omap f l.
Proof. csimpl. by destruct (f a). Qed.

Section LoadFacts.
Context (cfg : BuildConfig) (linop : MLNodeLinOp).

(** One pass of the load loop body. *)
Lemma loadVectors_patch_spec (st : HypreNodeLap) (soln rhs : MultiFab)
    (i : nat) (p : Patch) (x0 b0 : list VectorValues) :
  (nnodes_grid st !!! i >= 0 →
   adjustSingularMatrix st && isBottomSingular linop = true →
   node_id_vec st !!! i ≠ []
   ∧ ((node_id_vec st !!! i) !! 0%nat = Some 0 →
      selected p (node_id st !!! i) ≠ [])) →
  ∃ xs, loadVectors_patch cfg linop st soln rhs i p (x0, b0)
        = Ok (x0 ++ xs, b0 ++ option_list (rhs_entry linop st rhs (i, p))).
Proof.
  intros Hinv. unfold loadVectors_patch, rhs_entry.
  destruct (decide (nnodes_grid st !!! i >= 0)) as [Hn|Hn].
  2:{ rewrite !(bool_decide_eq_false_2 (_ >= 0)) by done. simpl.
      exists []. by rewrite !app_nil_r. }
  rewrite !(bool_decide_eq_true_2 (_ >= 0)) by done.
  unfold pin_row0.
  destruct (adjustSingularMatrix st && isBottomSingular linop) eqn:Hpin; simpl.
  2:{ eexists. done. }
  destruct (Hinv Hn eq_refl) as [Hrows Hsel].
  destruct (node_id_vec st !!! i) as [|r0 rs] eqn:Hr; [done|].
  change (at_index (r0 :: rs) 0) with (Ok r0). simpl.
  destruct (decide (r0 = 0)) as [->|Hr0].
  - rewrite (bool_decide_eq_true_2 (0 = 0)) by done.
    rewrite (bool_decide_eq_true_2 (Some 0 = Some 0)) by done. simpl.
    specialize (Hsel eq_refl). rewrite gather_rhs_selected.
    destruct (selected p (node_id st !!! i)) as [|c cs]; [done|].
    rewrite fmap_cons.
    change (at_index (fab rhs i c :: (fab rhs i <$> cs)) 0)
      with (Ok (fab rhs i c)). simpl.
    eexists. done.
  - rewrite (bool_decide_eq_false_2 (r0 = 0)) by done.
    rewrite (bool_decide_eq_false_2 (Some r0 = Some 0)) by congruence. simpl.
    eexists. done.
Qed.

(** The right-hand-side submissions of the load loop. *)
Lemma loadVectors_fold (st : HypreNodeLap) (soln rhs : MultiFab)
    (l : list (nat * Patch)) (x0 b0 : list VectorValues) :
  (∀ i p, (i, p) ∈ l → nnodes_grid st !!! i >= 0 →
     adjustSingularMatrix st && isBottomSingular linop = true →
     node_id_vec st !!! i ≠ []
     ∧ ((node_id_vec st !!! i) !! 0%nat = Some 0 →
        selected p (node_id st !!! i) ≠ [])) →
  ∃ x',
    foldM (λ '(i, p), loadVectors_patch cfg linop st soln rhs i p) l (x0, b0)
    = Ok (x', b0 ++ omap (rhs_entry linop st rhs) l).
Proof.
  revert x0 b0. induction l as [|[i p] l IH]; intros x0 b0 Hinv.
  { exists x0. simpl. by rewrite app_nil_r. }
  cbn [foldM].
  destruct (loadVectors_patch_spec st soln rhs i p x0 b0) as [xs ->].
  { apply Hinv. left. }
  cbn [mbind Result_bind].
  destruct (IH (x0 ++ xs) (b0 ++ option_list (rhs_entry linop st rhs (i, p))))
    as [x' ->].
  { intros i' p' Hin. apply Hinv. by right. }
  exists x'. do 2 f_equal. rewrite <- app_assoc. f_equal.
  by rewrite omap_cons_option_list.
Qed.

End LoadFacts.



(** X9: the vector load stays in bounds for every pinning policy as long as each
    patch that passes the guard of line 297 has a row id and, when its first
    row is row 0, an owned, numbered node; it then submits the rows of every
    such patch with the right-hand side gathered on its owned, numbered
    nodes, the first value replaced by zero for the pinned patch. *)
Theorem loadVectors_submits_rhs (cfg : BuildConfig) (linop : MLNodeLinOp)
    (st : HypreNodeLap) (soln rhs : MultiFab) :
  (∀ i p, grids st !! i = Some p → nnodes_grid st !!! i >= 0 →
     adjustSingularMatrix st && isBottomSingular linop = true →
     node_id_vec st !!! i ≠ []
     ∧ ((node_id_vec st !!! i) !! 0%nat = Some 0 →
        selected p (node_id st !!! i) ≠ [])) →
  ∃ st',
    loadVectors cfg linop st soln rhs = Ok (setVal 0%Qc soln, st')
    ∧ b st' = b st ++ rhs_load linop st rhs
    ∧ A st' = A st ∧ grids st' = grids st ∧ nnodes_grid st' = nnodes_grid st
    ∧ node_id st' = node_id st ∧ node_id_vec st' = node_id_vec st.
Proof.
  intros Hinv. unfold loadVectors.
  destruct (loadVectors_fold cfg linop st (setVal 0%Qc soln) rhs
              (imap pair (grids st)) (x st) (b st)) as [x' ->].
  { intros i p Hin. apply elem_of_lookup_imap in Hin as (i' & p' & [= -> ->] & Hp).
    by apply Hinv. }
  simpl. eexists. split; [done|]. by simpl.
Qed.

Section SolveFacts.
Context (cfg : BuildConfig).
Context (exchange_node_id : list (Dim3 → Z) → list (Dim3 → Z)).
Context (linop : MLNodeLinOp).
Context (HYPRE_IJVectorInitialize : list VectorValues → list VectorValues).
Context (HYPRE_IJVectorAssemble : list VectorValues → list VectorValues).
Context (hypre_ij_solve : list MatrixValues → list VectorValues → list VectorValues →
                          Real → Real → Z → Z → Real).
Context (ParallelAdd : MultiFab → MultiFab → MultiFab).

(** The shape of a constructed assembler whose stencil provider returns one
    row id per owned, numbered node. *)
Lemma constructed_shape (ebfactory adjust : bool) (world : list (list Patch))
    (myid : nat) (ps : list Patch) (st : HypreNodeLap) :
  0 < sizeof_Int cfg →
  (∀ ps p, ps ∈ world → p ∈ ps → retained_count cfg ebfactory p ≤ int_max) →
  total_count cfg ebfactory world ≤ Int_max cfg →
  world !! myid = Some ps →
  (∀ ids i p c, ps !! i = Some p → contains_cell (ndbx p) c = true →
     owner p c ≠ 0 → (exchange_node_id ids !!! i) c = (ids !!! i) c) →
  (∀ i p nid, length (rows (fillIJMatrix linop i p nid)) = length (selected p nid)) →
  construct cfg exchange_node_id linop ebfactory adjust world myid = Ok st →
  ∀ i p, grids st !! i = Some p →
    nnodes_grid st !!! i = Z.of_nat (length (node_id_vec st !!! i))
    ∧ nnodes_grid st !!! i = Z.of_nat (length (selected p (node_id st !!! i)))
    ∧ nnodes_grid st !!! i = retained_count cfg ebfactory p.
Proof.
  intros Hsz H32 HInt Hps Hexch Hrows H i p Hp.
  destruct (constructed_selected cfg exchange_node_id linop ebfactory adjust world
              myid ps st Hsz H32 HInt Hps Hexch H i p Hp) as (Hsel & Hcnt & _).
  apply construct_inv in H as (num & _ & _ & Hasm & Hg & Hn & Hid & _).
  unfold assemble_matrix in Hasm.
  apply assemble_matrix_spec in Hasm as (_ & _ & Hin & _).
  rewrite length_replicate in Hin. rewrite <- Hg, <- Hn, <- Hid in Hin.
  specialize (Hin i p Hp ltac:(by eapply lookup_lt_Some)).
  rewrite (list_lookup_total_correct _ _ _ Hin).
  rewrite Hsel, Hcnt. unfold retained_count. split_and!; [|done..].
  destruct (decide (0 < Z.of_nat (length (retained_cells cfg ebfactory p))))
    as [Hpos|Hpos].
  - rewrite bool_decide_eq_true_2 by done. by rewrite Hrows, Hsel.
  - rewrite bool_decide_eq_false_2 by done.
    rewrite list_lookup_total_alt, lookup_replicate_2 by (by eapply lookup_lt_Some).
    simpl. lia.
Qed.


(** X10: end to end: on a run without overflow, with an exchange that leaves the
    ids on owned nodes as they are and a stencil provider that returns one
    row id per owned, numbered node, a solve on the constructed assembler
    stays inside all its arrays when the pinning policy is off or every
    patch of the process retains a node; with the policy on and a patch
    without retained node it reads out of bounds. *)
Theorem solve_in_bounds_after_construct (ebfactory adjust : bool)
    (world : list (list Patch)) (myid : nat) (ps : list Patch)
    (st : HypreNodeLap) (soln rhs : MultiFab) (rel_tol abs_tol : Real)
    (max_iter : Z) :
  0 < sizeof_Int cfg →
  (∀ ps p, ps ∈ world → p ∈ ps → retained_count cfg ebfactory p ≤ int_max) →
  total_count cfg ebfactory world ≤ Int_max cfg →
  world !! myid = Some ps →
  (∀ ids i p c, ps !! i = Some p → contains_cell (ndbx p) c = true →
     owner p c ≠ 0 → (exchange_node_id ids !!! i) c = (ids !!! i) c) →
  (∀ i p nid, length (rows (fillIJMatrix linop i p nid)) = length (selected p nid)) →
  construct cfg exchange_node_id linop ebfactory adjust world myid = Ok st →
  let run := solve cfg linop HYPRE_IJVectorInitialize HYPRE_IJVectorAssemble
               hypre_ij_solve ParallelAdd st soln rhs rel_tol abs_tol max_iter in
  (adjust && isBottomSingular linop = false
   ∨ (∀ p, p ∈ ps → 0 < retained_count cfg ebfactory p) →
   ∃ soln' st', run = Ok (soln', st'))
  ∧ (adjust && isBottomSingular linop = true →
     (∃ p, p ∈ ps ∧ retained_count cfg ebfactory p = 0) →
     run = OutOfBounds).
Proof.
  intros Hsz H32 HInt Hps Hexch Hrows H run.
  pose proof (constructed_shape ebfactory adjust world myid ps st
                Hsz H32 HInt Hps Hexch Hrows H) as Hshape.
  pose proof H as Hinv.
  apply construct_inv in Hinv as (num & _ & _ & _ & Hg & _ & _ & Hadj & _).
  rewrite (list_lookup_total_correct _ _ _ Hps) in Hg.
  set (st1 := with_vectors st (HYPRE_IJVectorInitialize (b st))
                (HYPRE_IJVectorInitialize (x st))).
  split.
  - intros Hsafe. unfold run, solve, loadVectors. fold st1.
    destruct (loadVectors_fold cfg linop st1 (setVal 0%Qc soln) rhs
                (imap pair (grids st1)) (x st1) (b st1)) as [x' ->].
    { intros i p Hin Hn Hpin.
      apply elem_of_lookup_imap in Hin as (i' & p' & [= -> ->] & Hp).
      change (grids st !! i' = Some p') in Hp.
      change (adjustSingularMatrix st && isBottomSingular linop = true) in Hpin.
      change (node_id_vec st1) with (node_id_vec st).
      change (node_id st1) with (node_id st).
      destruct (Hshape i' p' Hp) as (Hr & Hs & Hc).
      destruct Hsafe as [Hoff|Hall]; [congruence|].
      assert (0 < retained_count cfg ebfactory p') as Hpos.
      { apply Hall. rewrite Hg in Hp. by eapply list_elem_of_lookup_2. }
      split.
      - intros Hnil. rewrite Hnil in Hr. simpl in Hr. lia.
      - intros _ Hnil. rewrite Hnil in Hs. simpl in Hs. lia. }
    cbn [mbind Result_bind].
    match goal with
    | |- context [getSolution ?pa ?s ?sol ?so] =>
        destruct (getSolution_fold s sol (grids s) (λ _ _, 0%Qc)) as (tmp & Hrun & _)
    end.
    { intros i p Hp _. change (grids st !! i = Some p) in Hp.
      destruct (Hshape i p Hp) as (Hr & Hs & _).
      change (nnodes_grid st !!! i ≤ Z.of_nat (length (node_id_vec st !!! i))
              ∧ Z.of_nat (length (selected p (node_id st !!! i)))
                ≤ nnodes_grid st !!! i). lia. }
    unfold getSolution. rewrite Hrun. simpl. eauto.
  - intros Hpin (p & Hp & Hzero). unfold run, solve, loadVectors. fold st1.
    apply list_elem_of_lookup_1 in Hp as [i Hp]. rewrite <- Hg in Hp.
    destruct (Hshape i p Hp) as (Hr & _ & Hc).
    rewrite (foldM_OutOfBounds _ _ (i, p)); [done| | |].
    + intros [i' p'] s0 msg. apply loadVectors_patch_not_Abort.
    + apply (elem_of_lookup_imap_2 pair). exact Hp.
    + intros [x0 b0]. unfold loadVectors_patch, pin_row0.
      change (nnodes_grid st1) with (nnodes_grid st).
      change (node_id_vec st1) with (node_id_vec st).
      change (adjustSingularMatrix st1) with (adjustSingularMatrix st).
      rewrite Hadj, Hpin, Hc, Hzero. simpl.
      assert (node_id_vec st !!! i = []) as ->; [|done].
      apply length_zero_iff_nil. lia.
Qed.

End SolveFacts.


(** ** The theorems at concrete inputs *)

Lemma fits_by_evaluation (cfg : BuildConfig) (ebfactory : bool)
    (world : list (list Patch)) :
  forallb (forallb (λ p, bool_decide (retained_count cfg ebfactory p ≤ int_max)))
    world = true →
  ∀ ps p, ps ∈ world → p ∈ ps → retained_count cfg ebfactory p ≤ int_max.
Proof.
  intros Hall ps p Hps Hp. rewrite forallb_forall in Hall.
  apply list_elem_of_In, Hall in Hps. rewrite forallb_forall in Hps.
  apply list_elem_of_In, Hps in Hp. by apply bool_decide_eq_true in Hp.
Qed.

Lemma identity_exchange_keeps_owned (ps : list Patch) :
  ∀ (ids : list (Dim3 → Z)) (i : nat) (p : Patch) (c : Dim3),
    ps !! i = Some p → contains_cell (ndbx p) c = true → owner p c ≠ 0 →
    ((λ node_id : list (Dim3 → Z), node_id) ids !!! i) c = (ids !!! i) c.
Proof. done. Qed.

Lemma identity_linop_rows (singular : bool) :
  ∀ (i : nat) (p : Patch) (nid : Dim3 → Z),
    length (rows (fillIJMatrix (identity_linop singular) i p nid))
    = length (selected p nid).
Proof. intros i p nid. simpl. unfold identity_rows. by rewrite length_fmap. Qed.

Lemma numbering_assertion_never_fires_witness :
  ∃ num, number_nodes release_cfg false sandwich_world 0 = Ok num
    ∧ proc_end num
      = Int_add release_cfg (proc_begin num)
          (nnodes_proc_of release_cfg false (sandwich_world !!! 0%nat))
    ∧ length (num_offset num) = length (sandwich_world !!! 0%nat)
    ∧ length (num_nnodes_grid num) = length (sandwich_world !!! 0%nat).
Proof.
  apply (numbering_assertion_never_fires release_cfg false sandwich_world 0).
  reflexivity.
Defined.

Lemma index_width_check_suffices_witness :
  total_count debug_cfg false sandwich_world < Int_max debug_cfg.
Proof.
  refine (proj1 (index_width_check_suffices debug_cfg false sandwich_world _ _ _ _ _)).
  - reflexivity.
  - vm_compute. split; [reflexivity|discriminate].
  - reflexivity.
  - vm_compute. reflexivity.
  - vm_compute. reflexivity.
Defined.

Lemma construct_row_range_witness :
  ∃ st, construct release_cfg (λ node_id, node_id) (identity_linop true) false true
          sandwich_world 0 = Ok st
    ∧ grids st = sandwich_world !!! 0%nat
    ∧ nnodes_grid st = retained_count release_cfg false <$> sandwich_world !!! 0%nat
    ∧ ilower st = sumZ (proc_count release_cfg false <$> take 0 sandwich_world)
    ∧ iupper st = ilower st + proc_count release_cfg false (sandwich_world !!! 0%nat) - 1.
Proof.
  assert (∃ st, construct release_cfg (λ node_id, node_id) (identity_linop true) false true sandwich_world 0 = Ok st)
    as [st Hrun] by (eexists; reflexivity).
  exists st. split; [exact Hrun|].
  destruct (construct_row_range release_cfg (λ node_id, node_id) (identity_linop true)
              false true sandwich_world 0 (sandwich_world !!! 0%nat) st)
    as (H1 & H2 & H3 & H4 & _).
  - reflexivity.
  - apply fits_by_evaluation. vm_compute. reflexivity.
  - vm_compute. discriminate.
  - reflexivity.
  - exact Hrun.
  - split; [exact H1|]. split; [exact H2|]. split; [exact H3|exact H4].
Defined.

Lemma construct_matrix_calls_witness :
  ∃ st, construct release_cfg (λ node_id, node_id) (identity_linop true) false true
          sandwich_world 0 = Ok st
    ∧ length (node_id_vec st) = length (grids st).
Proof.
  assert (∃ st, construct release_cfg (λ node_id, node_id) (identity_linop true) false true sandwich_world 0 = Ok st)
    as [st Hrun] by (eexists; reflexivity).
  exists st. split; [exact Hrun|].
  exact (proj1 (construct_matrix_calls release_cfg (λ node_id, node_id)
                  (identity_linop true) false true sandwich_world 0 st Hrun)).
Defined.

Lemma rhs_has_one_value_per_row_witness :
  ∃ st, construct release_cfg (λ node_id, node_id) (identity_linop true) false true
          sandwich_world 0 = Ok st
    ∧ ∀ i p rhs, grids st !! i = Some p →
        Z.of_nat (length (gather_rhs p (node_id st !!! i) (fab rhs i)))
        = nnodes_grid st !!! i.
Proof.
  assert (∃ st, construct release_cfg (λ node_id, node_id) (identity_linop true) false true sandwich_world 0 = Ok st)
    as [st Hrun] by (eexists; reflexivity).
  exists st. split; [exact Hrun|]. intros i p rhs Hp.
  refine (proj1 (rhs_has_one_value_per_row release_cfg (λ node_id, node_id)
    (identity_linop true) false true sandwich_world 0 (sandwich_world !!! 0%nat) st
    _ _ _ _ _ Hrun i p rhs Hp)).
  - reflexivity.
  - apply fits_by_evaluation. vm_compute. reflexivity.
  - vm_compute. discriminate.
  - reflexivity.
  - apply identity_exchange_keeps_owned.
Defined.

Lemma scenario_D_in_bounds (adjust : bool) :
  let st := if adjust then scenario_D_state else scenario_D_unpinned in
  ∀ i p, grids st !! i = Some p →
    nnodes_grid st !!! i = Z.of_nat (length (node_id_vec st !!! i))
    ∧ nnodes_grid st !!! i = Z.of_nat (length (selected p (node_id st !!! i)))
    ∧ scenario_D_identity_solution <$> node_id_vec st !!! i
      = gather_rhs p (node_id st !!! i) (fab scenario_D_rhs i).
Proof.
  destruct adjust; intros st [|[|i]] p [= <-]; vm_compute;
    (split; [reflexivity|split; reflexivity]).
Qed.

Lemma getSolution_scatters_rows_witness :
  ∃ tmpsoln,
    getSolution (λ dst _, dst) scenario_D_unpinned scenario_D_identity_solution
      scenario_D_soln = Ok ((λ dst _, dst) scenario_D_soln (MkMultiFab 0 tmpsoln))
    ∧ ∀ i c, (length (grids scenario_D_unpinned) ≤ i)%nat → tmpsoln i c = 0%Qc.
Proof.
  destruct (getSolution_scatters_rows (λ dst _, dst) scenario_D_unpinned
              scenario_D_identity_solution scenario_D_soln)
    as (tmpsoln & Hrun & Hout & _).
  - intros i p Hp _.
    destruct (scenario_D_in_bounds false i p Hp) as (H1 & H2 & _).
    rewrite <- H1, <- H2. split; reflexivity.
  - exists tmpsoln. split; [exact Hrun|exact Hout].
Defined.

Lemma gather_scatter_round_trip_witness :
  ∃ tmpsoln,
    getSolution (λ dst _, dst) scenario_D_unpinned scenario_D_identity_solution
      scenario_D_soln = Ok ((λ dst _, dst) scenario_D_soln (MkMultiFab 0 tmpsoln))
    ∧ ∀ i p c, grids scenario_D_unpinned !! i = Some p →
        tmpsoln i c
        = if bool_decide (c ∈ selected p (node_id scenario_D_unpinned !!! i))
          then fab scenario_D_rhs i c else 0%Qc.
Proof.
  apply (gather_scatter_round_trip (λ dst _, dst) scenario_D_unpinned
           scenario_D_identity_solution scenario_D_soln scenario_D_rhs).
  exact (scenario_D_in_bounds false).
Defined.

Lemma loadVectors_submits_rhs_witness :
  ∃ st',
    loadVectors release_cfg scenario_D_linop scenario_D_state scenario_D_soln
      scenario_D_rhs = Ok (setVal 0%Qc scenario_D_soln, st')
    ∧ b st' = b scenario_D_state
              ++ rhs_load scenario_D_linop scenario_D_state scenario_D_rhs.
Proof.
  destruct (loadVectors_submits_rhs release_cfg scenario_D_linop scenario_D_state
              scenario_D_soln scenario_D_rhs) as (st' & Hrun & Hb & _).
  - intros [|[|i]] p [= <-] _ _. split; [discriminate|].
    intros _. vm_compute. discriminate.
  - exists st'. split; [exact Hrun|exact Hb].
Defined.

Lemma solve_in_bounds_after_construct_witness :
  ∃ st soln' st',
    construct release_cfg (λ node_id, node_id) (identity_linop true) false false
      sandwich_world 0 = Ok st
    ∧ solve release_cfg (identity_linop true) (λ v, v) (λ v, v)
        (λ _ _ _ _ _ _ _, 0%Qc) (λ dst _, dst) st scenario_D_soln scenario_D_rhs
        0%Qc 0%Qc 1 = Ok (soln', st').
Proof.
  assert (∃ st, construct release_cfg (λ node_id, node_id) (identity_linop true) false false sandwich_world 0 = Ok st)
    as [st Hrun] by (eexists; reflexivity).
  destruct (proj1 (solve_in_bounds_after_construct release_cfg (λ node_id, node_id)
    (identity_linop true) (λ v, v) (λ v, v) (λ _ _ _ _ _ _ _, 0%Qc) (λ dst _, dst)
    false false sandwich_world 0 (sandwich_world !!! 0%nat) st
    scenario_D_soln scenario_D_rhs 0%Qc 0%Qc 1
    eq_refl
    (fits_by_evaluation release_cfg false sandwich_world eq_refl)
    ltac:(vm_compute; discriminate)
    eq_refl
    (identity_exchange_keeps_owned _)
    (identity_linop_rows true)
    Hrun) (or_introl eq_refl)) as (soln' & st' & Hsolve).
  exists st, soln', st'. split; [exact Hrun|exact Hsolve].
Defined.

End NodeSolveFacts.

(** * Further properties of the operator *)

Module CoefficientFacts.
Import MLABecLaplacian MLABecLaplacianFacts.

Lemma setVal_setVal (v w : Real) (mf : MultiFab) :
  setVal v (setVal w mf) = setVal v mf.
Proof.
  unfold setVal. simpl. f_equal. rewrite <- list_fmap_compose.
  by apply list_fmap_ext.
Qed.

Lemma setVal_arr (v : Real) (mf : MultiFab) (f : FArrayBox) (c : Dim3) (n : nat) :
  f ∈ fabs (setVal v mf) → arr f c n = v.
Proof.
  unfold setVal. simpl. intros Hf.
  by apply list_elem_of_fmap in Hf as (f0 & -> & _).
Qed.

Lemma at_nat_Some {A} (v : list A) (i : nat) (a : A) :
  at_nat v i = Ok a ↔ v !! i = Some a.
Proof.
  unfold at_nat. destruct (v !! i); simpl; split; intros H; by simplify_eq.
Qed.

Lemma modify_at_Ok {A} (v v' : list A) (i : nat) (f : A → Result A) :
  modify_at v i f = Ok v' ↔ ∃ a a', v !! i = Some a ∧ f a = Ok a' ∧ v' = <[i := a']> v.
Proof.
  unfold modify_at. split.
  - intros H. apply bind_Ok in H as (a & Ha & H). apply at_nat_Some in Ha.
    apply bind_Ok in H as (a' & Hf & H). injection H as <-. eauto.
  - intros (a & a' & Ha & Hf & ->). apply at_nat_Some in Ha. by rewrite Ha; simpl; rewrite Hf.
Qed.

Lemma foldM_ext {A St} (f g : A → St → Result St) (l : list A) (s : St) :
  (∀ a s, a ∈ l → f a s = g a s) → foldM f l s = foldM g l s.
Proof.
  revert s. induction l as [|a l IH]; intros s Hfg; simpl; [done|].
  rewrite Hfg by left. destruct (g a s); simpl; [|done..].
  apply IH. intros; apply Hfg; by right.
Qed.

Lemma foldM_snoc {A St} (f : A → St → Result St) (l : list A) (a : A) (s : St) :
  foldM f (l ++ [a]) s = foldM f l s ≫= f a.
Proof.
  rewrite (HypreNodeLapFacts.foldM_app f l [a] s).
  destruct (foldM f l s); simpl; [|done..]. by destruct (f a a0).
Qed.

Section VectorSetter.
Context (AMREX_SPACEDIM : nat).

(** The component loop of lines 150-152 on one face field: every pass
    overwrites all components, so the last value stays. *)
Lemma setVal_loop (beta : list Real) (idim : nat) (n : nat) (v : Real)
    (b : list MultiFab) :
  beta !! n = Some v →
  foldM (λ icomp b, modify_at b idim (λ mf, v ← at_nat beta icomp; Ok (setVal v mf)))
    (seq 0 (S n)) b
  = modify_at b idim (λ mf, Ok (setVal v mf)).
Proof.
  revert v. induction n as [|n IH]; intros v Hv.
  { simpl. unfold modify_at. destruct (at_nat b idim); simpl; [|done..].
    apply at_nat_Some in Hv. rewrite Hv. done. }
  destruct (lookup_lt_is_Some_2 beta n) as [w Hw].
  { apply lookup_lt_Some in Hv. lia. }
  rewrite seq_S, foldM_snoc, (IH w Hw). simpl.
  unfold modify_at. destruct (b !! idim) as [mf|] eqn:Hb.
  - rewrite (proj2 (at_nat_Some b idim mf) Hb). simpl.
    assert (idim < length b)%nat as Hlt by (by eapply lookup_lt_Some).
    rewrite (proj2 (at_nat_Some _ idim (setVal w mf)))
      by (by apply list_lookup_insert_eq).
    simpl. rewrite (proj2 (at_nat_Some beta (S n) v) Hv). simpl.
    by rewrite list_insert_insert_eq, setVal_setVal.
  - unfold at_nat. by rewrite Hb.
Qed.

(** The direction loop of lines 139-141 and 149-153. *)
Lemma setVal_directions (v : Real) (b b' : list MultiFab) (n : nat) :
  foldM (λ idim b, modify_at b idim (λ mf, Ok (setVal v mf))) (seq 0 n) b = Ok b' →
  (n ≤ length b)%nat
  ∧ length b' = length b
  ∧ ∀ idim, b' !! idim
            = if bool_decide (idim < n)%nat then setVal v <$> b !! idim else b !! idim.
Proof.
  revert b'. induction n as [|n IH]; intros b' H.
  { simpl in H. injection H as <-. split_and!; [lia|done|]. intros idim.
    by rewrite bool_decide_eq_false_2 by lia. }
  rewrite seq_S, foldM_snoc in H. simpl in H.
  apply bind_Ok in H as (b1 & H1 & H). destruct (IH _ H1) as (Hn & Hlen & Hlook).
  apply modify_at_Ok in H as (mf & mf' & Hmf & [= <-] & ->).
  assert (n < length b1)%nat as Hlt by (by eapply lookup_lt_Some).
  split_and!; [lia|by rewrite length_insert|].
  intros idim. destruct (decide (idim = n)) as [->|Hne].
  - rewrite list_lookup_insert_eq by done.
    rewrite bool_decide_eq_true_2 by lia.
    rewrite Hlook, bool_decide_eq_false_2 in Hmf by lia. by rewrite Hmf.
  - rewrite list_lookup_insert_ne by done. rewrite Hlook.
    destruct (decide (idim < n)%nat).
    + by rewrite !bool_decide_eq_true_2 by lia.
    + by rewrite !bool_decide_eq_false_2 by lia.
Qed.

End VectorSetter.

(** X11: [setBCoeffs(amrlev, Vector<Real> beta)] stores the last of the [ncomp]
    values in every component: each pass of its component loop calls
    [setVal] on the whole face field, so it does what
    [setBCoeffs(amrlev, beta[ncomp-1])] does, and afterwards every component
    of every face field of the level holds [beta[ncomp-1]]. *)
Theorem setBCoeffs_vector_last_value_wins (AMREX_SPACEDIM : nat)
    (st : MLABecLaplacian) (amrlev : nat) (beta : list Real) (v : Real) :
  (0 < m_ncomp st)%nat →
  beta !! (m_ncomp st - 1)%nat = Some v →
  setBCoeffs_vector AMREX_SPACEDIM st amrlev beta
  = setBCoeffs_scalar AMREX_SPACEDIM st amrlev v
  ∧ ∀ st' idim mf f c n,
      setBCoeffs_vector AMREX_SPACEDIM st amrlev beta = Ok st' →
      (idim < AMREX_SPACEDIM)%nat →
      at2 (m_b_coeffs st') amrlev 0 ≫= (λ b, at_nat b idim) = Ok mf →
      f ∈ fabs mf → arr f c n = v.
Proof.
  intros Hn Hv.
  assert (setBCoeffs_vector AMREX_SPACEDIM st amrlev beta
          = setBCoeffs_scalar AMREX_SPACEDIM st amrlev v) as Heq.
  { unfold setBCoeffs_vector, setBCoeffs_scalar.
    assert (∀ idim b,
      foldM (λ icomp b, modify_at b idim
                          (λ mf, v ← at_nat beta icomp; Ok (setVal v mf)))
        (seq 0 (m_ncomp st)) b
      = modify_at b idim (λ mf, Ok (setVal v mf))) as Hinner.
    { intros idim b. replace (m_ncomp st) with (S (m_ncomp st - 1)) at 1 by lia.
      by apply setVal_loop. }
    f_equal. f_equal. apply functional_extensionality. intros lvl.
    f_equal. apply functional_extensionality. intros b.
    apply foldM_ext. intros idim b0 _. apply Hinner. }
  split; [done|].
  intros st' idim mf f c n H Hidim Hmf Hf. rewrite Heq in H.
  unfold setBCoeffs_scalar in H.
  apply bind_Ok in H as (coeffs & Hmod & H). injection H as <-. simpl in Hmf.
  apply modify_at_Ok in Hmod as (lvl & lvl' & Hlvl & Hmod & ->).
  apply modify_at_Ok in Hmod as (b & b' & Hb & Hfold & ->).
  apply setVal_directions in Hfold as (_ & _ & Hlook).
  apply bind_Ok in Hmf as (b2 & Hb2 & Hmf).
  unfold at2 in Hb2. apply bind_Ok in Hb2 as (lvl2 & Hl2 & Hb2).
  apply at_nat_Some in Hl2, Hb2, Hmf.
  rewrite list_lookup_insert_eq in Hl2 by (by eapply lookup_lt_Some).
  injection Hl2 as <-.
  rewrite list_lookup_insert_eq in Hb2 by (by eapply lookup_lt_Some).
  injection Hb2 as <-.
  rewrite Hlook, bool_decide_eq_true_2 in Hmf by done.
  destruct (b !! idim) as [mf0|]; [|done]. injection Hmf as <-.
  by eapply setVal_arr.
Qed.

Lemma setBCoeffs_vector_last_value_wins_witness :
  (0 < m_ncomp two_component_operator)%nat
  ∧ setBCoeffs_vector 1 two_component_operator 0 [Real_of 3 1; Real_of 7 1]
    = setBCoeffs_scalar 1 two_component_operator 0 (Real_of 7 1).
Proof.
  split; [simpl; lia|].
  refine (proj1 (setBCoeffs_vector_last_value_wins 1 two_component_operator 0
                   [Real_of 3 1; Real_of 7 1] (Real_of 7 1) _ _));
    [simpl; lia|reflexivity].
Defined.


Lemma zero_coarse_lookup (lvl : list MultiFab) (k : nat) :
  zero_coarse lvl !! k
  = (λ mf, if bool_decide (k = 0%nat) then mf else setVal 0%Qc mf) <$> lvl !! k.
Proof. unfold zero_coarse. by rewrite list_lookup_imap. Qed.

Lemma zero_coarse_idemp (lvl : list MultiFab) :
  zero_coarse (zero_coarse lvl) = zero_coarse lvl.
Proof.
  apply list_eq. intros k. rewrite !zero_coarse_lookup.
  destruct (lvl !! k) as [mf|]; [|done]. simpl. f_equal.
  case_bool_decide; [done|apply setVal_setVal].
Qed.

Lemma same_shape_refl {A} (v : list (list A)) : same_shape v v.
Proof. by apply Forall_Forall2_diag, Forall_true. Qed.

Lemma same_shape_insert {A} (v : list (list A)) (i : nat) (l l' : list A) :
  v !! i = Some l → length l' = length l → same_shape v (<[i := l']> v).
Proof.
  intros Hi Hlen. unfold same_shape. rewrite <- (list_insert_id v i l Hi) at 1.
  apply Forall2_insert; [apply same_shape_refl|done].
Qed.

Lemma same_shape_trans {A} (u v w : list (list A)) :
  same_shape u v → same_shape v w → same_shape u w.
Proof.
  unfold same_shape. intros H1. revert w. induction H1 as [|x y u v Hxy H1 IH]; intros w H2.
  { by apply Forall2_nil_inv_l in H2 as ->. }
  apply Forall2_cons_inv_l in H2 as (z & w' & Hyz & H2 & ->).
  constructor; [congruence|by apply IH].
Qed.

Section RestrictionFacts.
Context (AMREX_SPACEDIM : nat).
Context (average_down : MultiFab → MultiFab → IntVect → MultiFab).
Context (average_down_faces : list MultiFab → list MultiFab → IntVect → list MultiFab).
Context (overset_rescale_bcoef : nat → MultiFab → iMultiFab → nat → Real → MultiFab).

(** The restriction loop of lines 179-200 over relaxation levels [l], none
    of which is level 0. *)
Lemma restriction_loop (st : MLABecLaplacian) (amrlev : nat) (l : list nat)
    (a a' : list MultiFab) (b b' : list (list MultiFab)) :
  Forall (λ mglev, 1 ≤ mglev)%nat l →
  foldM (λ mglev '(a, b),
      ratio ← (if bool_decide (0 < amrlev)%nat
               then Ok (IntVect_of_int AMREX_SPACEDIM (mg_coarsen_ratio st))
               else at_nat (mg_coarsen_ratio_vec st) (mglev - 1));
      afine ← at_nat a (mglev - 1);
      acrse ← at_nat a mglev;
      let acrse := if bool_decide (m_a_scalar st = 0%Qc) then setVal 0%Qc acrse
                   else average_down afine acrse ratio in
      bfine ← at_nat b (mglev - 1);
      bcrse ← at_nat b mglev;
      Ok (<[mglev := acrse]> a, <[mglev := average_down_faces bfine bcrse ratio]> b))
    l (a, b) = Ok (a', b') →
  length a' = length a ∧ length b' = length b
  ∧ a' !! 0%nat = a !! 0%nat ∧ b' !! 0%nat = b !! 0%nat
  ∧ (m_a_scalar st = 0%Qc →
     ∀ k, a' !! k = if bool_decide (k ∈ l) then setVal 0%Qc <$> a !! k else a !! k).
Proof.
  intros Hl. revert a b. induction Hl as [|m l Hm Hl IH]; intros a b H; simpl in H.
  { injection H as <- <-. split_and!; [done..|]. intros _ k.
    rewrite bool_decide_eq_false_2; [done|]. apply not_elem_of_nil. }
  apply bind_Ok in H as ([a1 b1] & Hstep & H).
  destruct (IH _ _ H) as (Hla & Hlb & Ha0 & Hb0 & Hz). clear IH H.
  apply bind_Ok in Hstep as (ratio & _ & Hstep).
  apply bind_Ok in Hstep as (afine & _ & Hstep).
  apply bind_Ok in Hstep as (acrse & Hacrse & Hstep).
  apply bind_Ok in Hstep as (bfine & _ & Hstep).
  apply bind_Ok in Hstep as (bcrse & _ & Hstep).
  injection Hstep as <- <-. apply at_nat_Some in Hacrse.
  rewrite !length_insert in *.
  rewrite list_lookup_insert_ne in Ha0 by lia.
  rewrite list_lookup_insert_ne in Hb0 by lia.
  split_and!; [done..|].
  intros Hzero k. rewrite (Hz Hzero k).
  rewrite (bool_decide_eq_true_2 (m_a_scalar st = 0%Qc)) by done.
  destruct (decide (k = m)) as [->|Hne].
  - rewrite list_lookup_insert_eq by (by eapply lookup_lt_Some).
    rewrite (bool_decide_eq_true_2 (m ∈ m :: l)) by left.
    rewrite Hacrse. destruct (bool_decide (m ∈ l)); [|done].
    cbn [fmap option_fmap option_map]. f_equal. apply setVal_setVal.
  - rewrite list_lookup_insert_ne by done.
    destruct (decide (k ∈ l)) as [Hin|Hnin].
    + rewrite !bool_decide_eq_true_2; [done|by right|done].
    + rewrite !bool_decide_eq_false_2; [done| |done].
      intros Hin. apply elem_of_cons in Hin as [?|?]; done.
Qed.

(** The overset rescaling loop of lines 202-235. *)
Lemma rescale_loop (st : MLABecLaplacian) (amrlev : nat) (l : list nat)
    (b b' : list (list MultiFab)) :
  Forall (λ mglev, 1 ≤ mglev)%nat l →
  foldM (λ mglev b,
      osm ← at2 (m_overset_mask st) amrlev mglev;
      match osm with
      | Some mask =>
          let fac := Real_of (2 ^ Z.of_nat mglev) 1 in
          let osfac := (Real_of 2 1 * fac / (fac + 1))%Qc in
          modify_at b mglev (λ bl,
            Ok (imap (λ idim bf, overset_rescale_bcoef idim bf mask (m_ncomp st) osfac) bl))
      | None => Ok b
      end) l b = Ok b' →
  length b' = length b ∧ b' !! 0%nat = b !! 0%nat.
Proof.
  intros Hl. revert b. induction Hl as [|m l Hm Hl IH]; intros b H; simpl in H.
  { by injection H as <-. }
  apply bind_Ok in H as (b1 & Hstep & H). destruct (IH _ H) as [Hlen H0].
  apply bind_Ok in Hstep as (osm & _ & Hstep). destruct osm as [mask|].
  - apply modify_at_Ok in Hstep as (bl & bl' & _ & _ & ->).
    rewrite length_insert in Hlen. rewrite list_lookup_insert_ne in H0 by lia. done.
  - by injection Hstep as <-.
Qed.

Lemma Forall_seq_ge (start len : nat) : Forall (λ m, start ≤ m)%nat (seq start len).
Proof. apply list.Forall_forall. intros m Hm. apply elem_of_seq in Hm. lia. Qed.

(** Restriction inside one AMR level (lines 174-236). *)
Lemma averageDownCoeffsSameAmrLevel_spec (st st' : MLABecLaplacian) (amrlev : nat) :
  averageDownCoeffsSameAmrLevel AMREX_SPACEDIM average_down average_down_faces
    overset_rescale_bcoef st amrlev = Ok st' →
  ∃ a a' b b',
    m_a_coeffs st !! amrlev = Some a ∧ m_b_coeffs st !! amrlev = Some b
    ∧ st' = set_b_coeffs (set_a_coeffs st (<[amrlev := a']> (m_a_coeffs st)))
              (<[amrlev := b']> (m_b_coeffs st))
    ∧ length a' = length a ∧ length b' = length b
    ∧ a' !! 0%nat = a !! 0%nat ∧ b' !! 0%nat = b !! 0%nat
    ∧ (m_a_scalar st = 0%Qc → a' = zero_coarse a).
Proof.
  unfold averageDownCoeffsSameAmrLevel. intros H.
  apply bind_Ok in H as (a & Ha & H). apply bind_Ok in H as (b & Hb & H).
  apply bind_Ok in H as ([a1 b1] & Hloop & H).
  apply bind_Ok in H as (b2 & Hresc & H). injection H as <-.
  apply at_nat_Some in Ha, Hb.
  apply restriction_loop in Hloop as (Hla & Hlb & Ha0 & Hb0 & Hz);
    [|apply Forall_seq_ge].
  apply rescale_loop in Hresc as (Hlb2 & Hb20); [|apply Forall_seq_ge].
  exists a, a1, b, b2. split_and!; try done; try congruence.
  intros Hzero. apply list_eq. intros k.
  rewrite (Hz Hzero k), zero_coarse_lookup.
  destruct (a !! k) as [mf|] eqn:Hk; [|by case_bool_decide].
  pose proof (lookup_lt_Some _ _ _ Hk) as Hlt. simpl.
  destruct (decide (k = 0%nat)) as [->|Hne].
  - rewrite (bool_decide_eq_false_2 (0%nat ∈ _)); [done|].
    rewrite elem_of_seq. lia.
  - rewrite (bool_decide_eq_true_2 (k ∈ _)) by (rewrite elem_of_seq; lia).
    by rewrite (bool_decide_eq_false_2 (k = 0%nat)).
Qed.

(** Restriction to the next coarser AMR level (lines 238-255). *)
Lemma averageDownCoeffsToCoarseAmrLevel_spec (st st' : MLABecLaplacian) (flev : nat) :
  averageDownCoeffsToCoarseAmrLevel AMREX_SPACEDIM average_down average_down_faces
    st flev = Ok st' →
  ∃ la lb xa xb,
    m_a_coeffs st !! (flev - 1)%nat = Some la
    ∧ m_b_coeffs st !! (flev - 1)%nat = Some lb
    ∧ st' = set_b_coeffs
              (set_a_coeffs st (<[(flev - 1)%nat := <[0%nat := xa]> la]> (m_a_coeffs st)))
              (<[(flev - 1)%nat := <[0%nat := xb]> lb]> (m_b_coeffs st))
    ∧ (m_a_scalar st = 0%Qc → la !! 0%nat = Some xa).
Proof.
  unfold averageDownCoeffsToCoarseAmrLevel. intros H.
  apply bind_Ok in H as (fine_a & _ & H). apply bind_Ok in H as (fine_b & _ & H).
  apply bind_Ok in H as (crse_a & Hca & H). apply bind_Ok in H as (crse_b & _ & H).
  apply bind_Ok in H as (A' & HA & H). apply bind_Ok in H as (B' & HB & H).
  injection H as <-.
  apply modify_at_Ok in HA as (la & la' & Hla & [= <-] & ->).
  apply modify_at_Ok in HB as (lb & lb' & Hlb & [= <-] & ->).
  eexists la, lb, _, _. split_and!; try done.
  intros Hzero. rewrite bool_decide_eq_false_2 by (intros Hne; by apply Hne).
  unfold at2 in Hca. apply bind_Ok in Hca as (la2 & Hla2 & Hca).
  apply at_nat_Some in Hla2, Hca. congruence.
Qed.

(** One pass of the loop of lines 162-169 with [a_scalar = 0]. *)
Lemma restriction_pass_zero (st st' : MLABecLaplacian) (amrlev : nat) :
  m_a_scalar st = 0%Qc →
  (st1 ← averageDownCoeffsSameAmrLevel AMREX_SPACEDIM average_down average_down_faces
           overset_rescale_bcoef st amrlev;
   averageDownCoeffsToCoarseAmrLevel AMREX_SPACEDIM average_down average_down_faces
     st1 amrlev) = Ok st' →
  m_a_scalar st' = 0%Qc ∧ m_num_amr_levels st' = m_num_amr_levels st
  ∧ ∃ a, m_a_coeffs st !! amrlev = Some a
         ∧ m_a_coeffs st' = <[amrlev := zero_coarse a]> (m_a_coeffs st).
Proof.
  intros Hzero H. apply bind_Ok in H as (st1 & Hsame & Hto).
  apply averageDownCoeffsSameAmrLevel_spec in Hsame
    as (a & a' & b & b' & Ha & Hb & -> & _ & _ & _ & _ & Hz).
  apply averageDownCoeffsToCoarseAmrLevel_spec in Hto
    as (la & lb & xa & xb & Hla & Hlb & -> & Hx).
  simpl in *. rewrite (Hz Hzero) in *. split_and!; [done..|].
  exists a. split; [done|].
  rewrite (list_insert_id la 0 xa) by (by apply Hx).
  by rewrite list_insert_id.
Qed.

Lemma restriction_fold_zero (l : list nat) (st st' : MLABecLaplacian) :
  m_a_scalar st = 0%Qc →
  foldM (λ amrlev st,
      st ← averageDownCoeffsSameAmrLevel AMREX_SPACEDIM average_down
             average_down_faces overset_rescale_bcoef st amrlev;
      averageDownCoeffsToCoarseAmrLevel AMREX_SPACEDIM average_down
        average_down_faces st amrlev) l st = Ok st' →
  m_a_scalar st' = 0%Qc ∧ m_num_amr_levels st' = m_num_amr_levels st
  ∧ ∀ lev, m_a_coeffs st' !! lev
           = if bool_decide (lev ∈ l) then zero_coarse <$> m_a_coeffs st !! lev
             else m_a_coeffs st !! lev.
Proof.
  revert st. induction l as [|m l IH]; intros st Hzero H; simpl in H.
  { injection H as <-. split_and!; [done..|]. intros lev.
    rewrite bool_decide_eq_false_2; [done|apply not_elem_of_nil]. }
  apply bind_Ok in H as (st1 & Hpass & H).
  apply restriction_pass_zero in Hpass as (Hz1 & Hn1 & a & Ha & HA); [|done].
  destruct (IH _ Hz1 H) as (Hz' & Hn' & Hlook). split_and!; [done|congruence|].
  intros lev. rewrite Hlook, HA.
  destruct (decide (lev = m)) as [->|Hne].
  - rewrite list_lookup_insert_eq by (by eapply lookup_lt_Some).
    rewrite (bool_decide_eq_true_2 (m ∈ m :: l)) by left. rewrite Ha.
    destruct (bool_decide (m ∈ l)); [|done].
    cbn [fmap option_fmap option_map]. f_equal. apply zero_coarse_idemp.
  - rewrite list_lookup_insert_ne by done.
    destruct (decide (lev ∈ l)) as [Hin|Hnin].
    + rewrite !bool_decide_eq_true_2; [done|by right|done].
    + rewrite !bool_decide_eq_false_2; [done| |done].
      intros Hin. apply elem_of_cons in Hin as [?|?]; done.
Qed.

End RestrictionFacts.

Section RestrictionComposed.
Context (AMREX_SPACEDIM : nat).
Context (average_down : MultiFab → MultiFab → IntVect → MultiFab).
Context (average_down_faces : list MultiFab → list MultiFab → IntVect → list MultiFab).
Context (overset_rescale_bcoef : nat → MultiFab → iMultiFab → nat → Real → MultiFab).

Lemma averageDownCoeffs_zero_lookup (st st' : MLABecLaplacian) :
  m_a_scalar st = 0%Qc →
  averageDownCoeffs AMREX_SPACEDIM average_down average_down_faces
    overset_rescale_bcoef st = Ok st' →
  ∀ amrlev,
    m_a_coeffs st' !! amrlev
    = if bool_decide (amrlev < max 1 (m_num_amr_levels st))%nat
      then zero_coarse <$> m_a_coeffs st !! amrlev else m_a_coeffs st !! amrlev.
Proof.
  intros Hzero H. unfold averageDownCoeffs in H.
  apply bind_Ok in H as (st1 & Hfold & Hlast).
  apply restriction_fold_zero in Hfold as (Hz1 & Hn1 & Hlook1); [|done].
  apply averageDownCoeffsSameAmrLevel_spec in Hlast
    as (a & a' & b & b' & Ha & Hb & -> & _ & _ & _ & _ & Hz).
  rewrite (Hz Hz1). clear Hz. simpl.
  intros amrlev. destruct (decide (amrlev = 0%nat)) as [->|Hne].
  - rewrite list_lookup_insert_eq by (by eapply lookup_lt_Some).
    rewrite bool_decide_eq_true_2 by lia.
    rewrite Hlook1 in Ha. case_bool_decide.
    + destruct (m_a_coeffs st !! 0%nat) as [a0|]; [|done].
      injection Ha as <-. simpl. by rewrite zero_coarse_idemp.
    + by rewrite Ha.
  - rewrite list_lookup_insert_ne by done. rewrite Hlook1.
    destruct (decide (amrlev < max 1 (m_num_amr_levels st))%nat) as [Hlt|Hge].
    + rewrite !bool_decide_eq_true_2; [done|done|].
      rewrite elem_of_reverse, elem_of_seq. lia.
    + rewrite !bool_decide_eq_false_2; [done|done|].
      rewrite elem_of_reverse, elem_of_seq. lia.
Qed.

(** One pass of the loop of lines 162-169 for an AMR level between 1 and
    [top]. *)
Lemma restriction_pass_frame (top amrlev : nat) (st st' : MLABecLaplacian) :
  (1 ≤ amrlev ≤ top)%nat →
  (st1 ← averageDownCoeffsSameAmrLevel AMREX_SPACEDIM average_down average_down_faces
           overset_rescale_bcoef st amrlev;
   averageDownCoeffsToCoarseAmrLevel AMREX_SPACEDIM average_down average_down_faces
     st1 amrlev) = Ok st' →
  restricted top st st'.
Proof.
  intros Hlev H. apply bind_Ok in H as (st1 & Hsame & Hto).
  apply averageDownCoeffsSameAmrLevel_spec in Hsame
    as (a & a' & b & b' & Ha & Hb & -> & Hla & Hlb & Ha0 & Hb0 & _).
  apply averageDownCoeffsToCoarseAmrLevel_spec in Hto
    as (la & lb & xa & xb & Hla' & Hlb' & -> & _).
  cbn [m_a_coeffs m_b_coeffs set_a_coeffs set_b_coeffs] in *.
  exists (<[(amrlev - 1)%nat := <[0%nat := xa]> la]> (<[amrlev := a']> (m_a_coeffs st))),
    (<[(amrlev - 1)%nat := <[0%nat := xb]> lb]> (<[amrlev := b']> (m_b_coeffs st))).
  split; [reflexivity|].
  split_and!.
  - eapply same_shape_trans; [by eapply same_shape_insert|].
    eapply same_shape_insert; [done|by rewrite length_insert].
  - eapply same_shape_trans; [by eapply same_shape_insert|].
    eapply same_shape_insert; [done|by rewrite length_insert].
  - rewrite list_lookup_insert_ne by lia.
    destruct (decide (amrlev = top)) as [->|Hne].
    + rewrite list_lookup_insert_eq by (by eapply lookup_lt_Some).
      rewrite Ha. done.
    + by rewrite list_lookup_insert_ne.
  - rewrite list_lookup_insert_ne by lia.
    destruct (decide (amrlev = top)) as [->|Hne].
    + rewrite list_lookup_insert_eq by (by eapply lookup_lt_Some).
      rewrite Hb. done.
    + by rewrite list_lookup_insert_ne.
Qed.

Lemma restricted_refl (top : nat) (st : MLABecLaplacian) : restricted top st st.
Proof.
  exists (m_a_coeffs st), (m_b_coeffs st).
  split_and!; [by destruct st|apply same_shape_refl..|done|done].
Qed.

Lemma restricted_trans (top : nat) (st1 st2 st3 : MLABecLaplacian) :
  restricted top st1 st2 → restricted top st2 st3 → restricted top st1 st3.
Proof.
  intros (A2 & B2 & -> & HA2 & HB2 & Ha2 & Hb2) (A3 & B3 & -> & HA3 & HB3 & Ha3 & Hb3).
  simpl in *. exists A3, B3. split; [reflexivity|].
  split_and!; [by eapply same_shape_trans..|congruence|congruence].
Qed.

Lemma restriction_fold_frame (top : nat) (l : list nat) (st st' : MLABecLaplacian) :
  Forall (λ amrlev, 1 ≤ amrlev ≤ top)%nat l →
  foldM (λ amrlev st,
      st ← averageDownCoeffsSameAmrLevel AMREX_SPACEDIM average_down
             average_down_faces overset_rescale_bcoef st amrlev;
      averageDownCoeffsToCoarseAmrLevel AMREX_SPACEDIM average_down
        average_down_faces st amrlev) l st = Ok st' →
  restricted top st st'.
Proof.
  intros Hl. revert st. induction Hl as [|m l Hm Hl IH]; intros st H; simpl in H.
  { injection H as <-. apply restricted_refl. }
  apply bind_Ok in H as (st1 & Hpass & H).
  eapply restricted_trans; [by eapply restriction_pass_frame|by apply IH].
Qed.

Lemma averageDownCoeffs_restricted (st st' : MLABecLaplacian) :
  averageDownCoeffs AMREX_SPACEDIM average_down average_down_faces
    overset_rescale_bcoef st = Ok st' →
  restricted (m_num_amr_levels st - 1) st st'.
Proof.
  intros H. unfold averageDownCoeffs in H.
  apply bind_Ok in H as (st1 & Hfold & Hlast).
  apply (restriction_fold_frame (m_num_amr_levels st - 1)) in Hfold.
  2:{ apply list.Forall_forall. intros m Hm.
      apply elem_of_reverse, elem_of_seq in Hm. lia. }
  eapply restricted_trans; [done|].
  apply averageDownCoeffsSameAmrLevel_spec in Hlast
    as (a & a' & b & b' & Ha & Hb & -> & Hla & Hlb & Ha0 & Hb0 & _).
  exists (<[0%nat := a']> (m_a_coeffs st1)), (<[0%nat := b']> (m_b_coeffs st1)).
  split; [reflexivity|].
  split_and!; [by eapply same_shape_insert..| |].
  - destruct (decide (m_num_amr_levels st - 1 = 0)%nat) as [->|Hne].
    + rewrite list_lookup_insert_eq by (by eapply lookup_lt_Some). by rewrite Ha.
    + by rewrite list_lookup_insert_ne.
  - destruct (decide (m_num_amr_levels st - 1 = 0)%nat) as [->|Hne].
    + rewrite list_lookup_insert_eq by (by eapply lookup_lt_Some). by rewrite Hb.
    + by rewrite list_lookup_insert_ne.
Qed.

(** The loop of lines 92-95. *)
Lemma setScalars_loop (n : nat) (A A' : list (list MultiFab)) :
  foldM (λ amrlev a_coeffs,
      modify_at a_coeffs amrlev (λ lvl,
        modify_at lvl 0 (λ mf, Ok (setVal 0%Qc mf)))) (seq 0 n) A = Ok A' →
  ∀ amrlev, A' !! amrlev
            = if bool_decide (amrlev < n)%nat then zero_finest <$> A !! amrlev
              else A !! amrlev.
Proof.
  revert A'. induction n as [|n IH]; intros A' H.
  { simpl in H. injection H as <-. intros amrlev.
    by rewrite bool_decide_eq_false_2 by lia. }
  rewrite seq_S, foldM_snoc in H. simpl in H.
  apply bind_Ok in H as (A1 & H1 & H). specialize (IH _ H1).
  apply modify_at_Ok in H as (lvl & lvl' & Hlvl & Hmod & ->).
  apply modify_at_Ok in Hmod as (mf & mf' & Hmf & [= <-] & ->).
  intros amrlev. destruct (decide (amrlev = n)) as [->|Hne].
  - rewrite list_lookup_insert_eq by (by eapply lookup_lt_Some).
    rewrite bool_decide_eq_true_2 by lia.
    rewrite IH, bool_decide_eq_false_2 in Hlvl by lia. rewrite Hlvl. simpl.
    f_equal. apply list_eq. intros k. unfold zero_finest.
    rewrite list_lookup_imap. destruct (decide (k = 0%nat)) as [->|Hk].
    + rewrite list_lookup_insert_eq by (by eapply lookup_lt_Some). by rewrite Hmf.
    + rewrite list_lookup_insert_ne by done. destruct (lvl !! k); [|done].
      simpl. by rewrite bool_decide_eq_false_2.
  - rewrite list_lookup_insert_ne by done. rewrite IH.
    destruct (decide (amrlev < n)%nat).
    + by rewrite !bool_decide_eq_true_2 by lia.
    + by rewrite !bool_decide_eq_false_2 by lia.
Qed.

End RestrictionComposed.

(** X12: with [a_scalar = 0] the restriction does not average the cell
    coefficient: on every AMR level [averageDownCoeffs] zero-fills each
    coarser relaxation level and leaves the finest one as it is, whatever
    the averaging kernels compute. *)
Theorem averageDownCoeffs_zero_a_scalar (AMREX_SPACEDIM : nat)
    (average_down : MultiFab → MultiFab → IntVect → MultiFab)
    (average_down_faces : list MultiFab → list MultiFab → IntVect → list MultiFab)
    (overset_rescale_bcoef : nat → MultiFab → iMultiFab → nat → Real → MultiFab)
    (st st' : MLABecLaplacian) :
  m_a_scalar st = 0%Qc →
  averageDownCoeffs AMREX_SPACEDIM average_down average_down_faces
    overset_rescale_bcoef st = Ok st' →
  (∀ amrlev,
     m_a_coeffs st' !! amrlev
     = if bool_decide (amrlev < max 1 (m_num_amr_levels st))%nat
       then zero_coarse <$> m_a_coeffs st !! amrlev else m_a_coeffs st !! amrlev)
  ∧ (∀ amrlev, at2 (m_a_coeffs st') amrlev 0 = at2 (m_a_coeffs st) amrlev 0)
  ∧ ∀ amrlev mglev mf f c n,
      (amrlev < max 1 (m_num_amr_levels st))%nat → (0 < mglev)%nat →
      at2 (m_a_coeffs st') amrlev mglev = Ok mf → f ∈ fabs mf → arr f c n = 0%Qc.
Proof.
  intros Hzero H.
  pose proof (averageDownCoeffs_zero_lookup _ _ _ _ st st' Hzero H) as Hall.
  split_and!.
  - done.
  - intros amrlev. unfold at2, at_nat. rewrite Hall.
    case_bool_decide; [|done].
    destruct (m_a_coeffs st !! amrlev) as [lvl|]; [|done]. simpl.
    rewrite zero_coarse_lookup. by destruct (lvl !! 0%nat).
  - intros amrlev mglev mf f c n Hlt Hpos Hmf Hf.
    unfold at2 in Hmf. apply bind_Ok in Hmf as (lvl & Hlvl & Hmf).
    apply at_nat_Some in Hlvl, Hmf.
    rewrite Hall, bool_decide_eq_true_2 in Hlvl by done.
    destruct (m_a_coeffs st !! amrlev) as [lvl0|]; [|done].
    injection Hlvl as <-. rewrite zero_coarse_lookup in Hmf.
    destruct (lvl0 !! mglev) as [mf0|]; [|done]. simpl in Hmf.
    rewrite bool_decide_eq_false_2 in Hmf by lia. injection Hmf as <-.
    by eapply setVal_arr.
Qed.

Lemma averageDownCoeffs_zero_a_scalar_witness :
  ∃ st',
    averageDownCoeffs 1 volume_average (λ _ crse _, crse) (λ _ mf _ _ _, mf)
      (set_a_scalar cancelling_operator 0%Qc) = Ok st'
    ∧ at2 (m_a_coeffs st') 0 0 = at2 (m_a_coeffs cancelling_operator) 0 0
    ∧ ∀ mf f c n,
        at2 (m_a_coeffs st') 0 1 = Ok mf → f ∈ fabs mf → arr f c n = 0%Qc.
Proof.
  assert (∃ st',
    averageDownCoeffs 1 volume_average (λ _ crse _, crse) (λ _ mf _ _ _, mf)
      (set_a_scalar cancelling_operator 0%Qc) = Ok st') as [st' Hrun]
    by (eexists; reflexivity).
  exists st'. split; [exact Hrun|].
  destruct (averageDownCoeffs_zero_a_scalar 1 volume_average (λ _ crse _, crse)
              (λ _ mf _ _ _, mf) (set_a_scalar cancelling_operator 0%Qc) st'
              eq_refl Hrun) as (_ & Hfinest & Hzero).
  split; [exact (Hfinest 0%nat)|].
  intros mf f c n. apply (Hzero 0%nat 1%nat); simpl; lia.
Defined.

(** X13: [averageDownCoeffs] writes to the two coefficient stores only and
    never resizes them; the finest relaxation level of the finest AMR
    level, the data the caller set, comes out as it went in, for the cell
    coefficient and for the face coefficients. *)
Theorem averageDownCoeffs_keeps_finest (AMREX_SPACEDIM : nat)
    (average_down : MultiFab → MultiFab → IntVect → MultiFab)
    (average_down_faces : list MultiFab → list MultiFab → IntVect → list MultiFab)
    (overset_rescale_bcoef : nat → MultiFab → iMultiFab → nat → Real → MultiFab)
    (st st' : MLABecLaplacian) :
  averageDownCoeffs AMREX_SPACEDIM average_down average_down_faces
    overset_rescale_bcoef st = Ok st' →
  let top := (m_num_amr_levels st - 1)%nat in
  at2 (m_a_coeffs st') top 0 = at2 (m_a_coeffs st) top 0
  ∧ at2 (m_b_coeffs st') top 0 = at2 (m_b_coeffs st) top 0
  ∧ same_shape (m_a_coeffs st) (m_a_coeffs st')
  ∧ same_shape (m_b_coeffs st) (m_b_coeffs st')
  ∧ st' = set_b_coeffs (set_a_coeffs st (m_a_coeffs st')) (m_b_coeffs st').
Proof.
  intros H top.
  apply averageDownCoeffs_restricted in H as (A' & B' & -> & HA & HB & Ha & Hb).
  fold top in Ha, Hb. simpl.
  assert (∀ {T} (v w : list (list T)),
    (v !! top) ≫= (.!! 0%nat) = (w !! top) ≫= (.!! 0%nat) → at2 v top 0 = at2 w top 0)
    as Hat.
  { intros T v w Heq. unfold at2, at_nat.
    destruct (v !! top) as [lv|], (w !! top) as [lw|]; simpl in *;
      try done.
    - by rewrite Heq.
    - by rewrite Heq.
    - by rewrite <- Heq. }
  split_and!; [by apply Hat|by apply Hat|done|done|done].
Qed.

Lemma averageDownCoeffs_keeps_finest_witness :
  ∃ st',
    averageDownCoeffs 1 volume_average (λ _ crse _, crse) (λ _ mf _ _ _, mf)
      cancelling_operator = Ok st'
    ∧ at2 (m_a_coeffs st') 0 0 = at2 (m_a_coeffs cancelling_operator) 0 0
    ∧ at2 (m_b_coeffs st') 0 0 = at2 (m_b_coeffs cancelling_operator) 0 0
    ∧ same_shape (m_a_coeffs cancelling_operator) (m_a_coeffs st').
Proof.
  assert (∃ st',
    averageDownCoeffs 1 volume_average (λ _ crse _, crse) (λ _ mf _ _ _, mf)
      cancelling_operator = Ok st') as [st' Hrun] by (eexists; reflexivity).
  exists st'. split; [exact Hrun|].
  pose proof (averageDownCoeffs_keeps_finest _ _ _ _ _ _ Hrun) as H.
  cbv zeta in H. destruct H as (Ha & Hb & Hshape & _). by split_and!.
Defined.

(** X14: [setScalars] with [a = 0] followed by [averageDownCoeffs] leaves a cell
    coefficient that is zero in every component of every cell on every
    relaxation level of every AMR level of the operator. *)
Theorem setScalars_zero_then_restriction (AMREX_SPACEDIM : nat)
    (average_down : MultiFab → MultiFab → IntVect → MultiFab)
    (average_down_faces : list MultiFab → list MultiFab → IntVect → list MultiFab)
    (overset_rescale_bcoef : nat → MultiFab → iMultiFab → nat → Real → MultiFab)
    (st st1 st2 : MLABecLaplacian) (b : Real) :
  setScalars st 0%Qc b = Ok st1 →
  averageDownCoeffs AMREX_SPACEDIM average_down average_down_faces
    overset_rescale_bcoef st1 = Ok st2 →
  m_a_scalar st2 = 0%Qc ∧ m_b_scalar st2 = b
  ∧ m_needs_update st2 = m_needs_update st
  ∧ ∀ amrlev mglev mf f c n,
      (amrlev < m_num_amr_levels st)%nat →
      at2 (m_a_coeffs st2) amrlev mglev = Ok mf → f ∈ fabs mf → arr f c n = 0%Qc.
Proof.
  intros Hset Havg. unfold setScalars in Hset.
  rewrite bool_decide_eq_true_2 in Hset by done.
  apply bind_Ok in Hset as (A1 & Hloop & Hset). injection Hset as <-.
  simpl in Hloop. pose proof (setScalars_loop _ _ _ Hloop) as Hzf.
  pose proof (averageDownCoeffs_zero_lookup _ _ _ _
    (set_a_coeffs (set_scalars st 0%Qc b) A1) st2 eq_refl Havg) as Hall.
  pose proof (averageDownCoeffs_restricted _ _ _ _ _ st2 Havg)
    as (A' & B' & -> & _).
  simpl in *. split_and!; [done..|].
  intros amrlev mglev mf f c n Hlt Hmf Hf.
  unfold at2 in Hmf. apply bind_Ok in Hmf as (lvl & Hlvl & Hmf).
  apply at_nat_Some in Hlvl, Hmf.
  rewrite Hall, bool_decide_eq_true_2 in Hlvl by lia.
  rewrite Hzf, bool_decide_eq_true_2 in Hlvl by done.
  destruct (m_a_coeffs st !! amrlev) as [lvl0|]; [|done].
  injection Hlvl as <-. rewrite zero_coarse_lookup in Hmf.
  unfold zero_finest in Hmf. rewrite list_lookup_imap in Hmf.
  destruct (lvl0 !! mglev) as [mf0|]; [|done]. simpl in Hmf.
  injection Hmf as <-.
  case_bool_decide; by eapply setVal_arr.
Qed.

Lemma setScalars_zero_then_restriction_witness :
  ∃ st1 st2,
    setScalars cancelling_operator 0%Qc (Real_of 2 1) = Ok st1
    ∧ averageDownCoeffs 1 volume_average (λ _ crse _, crse) (λ _ mf _ _ _, mf)
        st1 = Ok st2
    ∧ m_a_scalar st2 = 0%Qc ∧ m_b_scalar st2 = Real_of 2 1
    ∧ ∀ mglev mf f c n,
        at2 (m_a_coeffs st2) 0 mglev = Ok mf → f ∈ fabs mf → arr f c n = 0%Qc.
Proof.
  assert (∃ st1 st2,
    setScalars cancelling_operator 0%Qc (Real_of 2 1) = Ok st1
    ∧ averageDownCoeffs 1 volume_average (λ _ crse _, crse) (λ _ mf _ _ _, mf)
        st1 = Ok st2) as (st1 & st2 & H1 & H2)
    by (do 2 eexists; split; reflexivity).
  exists st1, st2. split; [exact H1|]. split; [exact H2|].
  destruct (setScalars_zero_then_restriction _ _ _ _ _ _ _ _ H1 H2)
    as (Ha & Hb & _ & Hzero).
  split_and!; [done..|].
  intros mglev mf f c n. apply (Hzero 0%nat mglev). simpl. lia.
Defined.


Section SingularFlags.

(** The flag one pass of the loop body (lines 421-433) leaves at its own
    level, started from [false]. *)
Lemma singular_step_flag (st : MLABecLaplacian) (alev : nat) (fl fl' : list bool) :
  singular_step st alev fl = Ok fl' → fl !! alev = Some false →
  (fl' !! alev = Some true
   ↔ m_domain_covered st !! alev = Some true
     ∧ at2 (m_overset_mask st) alev 0 = Ok None
     ∧ (m_a_scalar st = 0%Qc
        ∨ ∃ coarsest, at_nat (m_a_coeffs st) alev ≫= back = Ok coarsest
            ∧ (sum coarsest ≤ norm0 coarsest * Real_of 1 (10 ^ 12))%Qc)).
Proof.
  unfold singular_step. intros H Hfl.
  pose proof (lookup_lt_Some _ _ _ Hfl) as Hlt.
  apply bind_Ok in H as (covered & Hcov & H). apply at_nat_Some in Hcov.
  destruct covered.
  2:{ injection H as <-. rewrite Hfl, Hcov. split; [done|]. by intros ([= ] & _). }
  apply bind_Ok in H as (osm & Hosm & H). rewrite Hosm.
  destruct osm as [mask|]; simpl in H.
  { injection H as <-. rewrite Hfl. split; [done|]. by intros (_ & [= ] & _). }
  destruct (decide (m_a_scalar st = 0%Qc)) as [Hz|Hnz].
  - rewrite bool_decide_eq_true_2 in H by done. injection H as <-.
    rewrite list_lookup_insert_eq by done. split; [|done]. intros _.
    split_and!; [done..|by left].
  - rewrite bool_decide_eq_false_2 in H by done.
    apply bind_Ok in H as (amf & Hamf & H). injection H as <-.
    rewrite list_lookup_insert_eq by done. rewrite Hamf. split.
    + intros [= Hb]. apply bool_decide_eq_true in Hb.
      split_and!; [done..|]. right. eauto.
    + intros (_ & _ & [Hz|(coarsest & [= <-] & Hle)]); [done|].
      f_equal. by apply bool_decide_eq_true.
Qed.

(** The loop of lines 418-434 reaches every level once, with the flag of
    that level still as it was initialised. *)
Lemma singular_loop_at (st : MLABecLaplacian) (l : list nat) (fl fl' : list bool) :
  NoDup l → foldM (singular_step st) l fl = Ok fl' →
  ∀ k, k ∈ l → ∃ fl1 fl2,
    singular_step st k fl1 = Ok fl2 ∧ fl1 !! k = fl !! k ∧ fl' !! k = fl2 !! k.
Proof.
  intros Hnd. revert fl. induction Hnd as [|a l Hnin Hnd IH]; intros fl H k Hk.
  { by apply elem_of_nil in Hk. }
  simpl in H. apply bind_Ok in H as (fl1 & Hstep & H).
  apply elem_of_cons in Hk as [->|Hk].
  - exists fl, fl1. split_and!; [done..|].
    by apply (singular_loop st l fl1 fl' Hnd H).
  - destruct (IH _ H k Hk) as (flk & flk' & H1 & H2 & H3).
    exists flk, flk'. split_and!; [done| |done].
    rewrite H2. eapply singular_step_other; [done|]. by intros ->.
Qed.

End SingularFlags.

(** X15: the singularity check of [prepareForSolve] and [update] in full: it
    leaves one flag per AMR level, and a level is flagged singular exactly
    when component 0 has no Dirichlet side, the level's domain is covered,
    the level has no overset mask on its finest relaxation level, and either
    [a_scalar] is zero or the sum of the cell coefficient on the level's
    coarsest relaxation level is at most 1e-12 times its maximum
    magnitude.  With a Dirichlet side every flag is [false]. *)
Theorem singular_flag_characterisation (st st' : MLABecLaplacian)
    (lobc0 hibc0 : list BCType) :
  detect_singular st = Ok st' →
  m_lobc st !! 0%nat = Some lobc0 → m_hibc st !! 0%nat = Some hibc0 →
  length (m_is_singular st') = m_num_amr_levels st
  ∧ (Dirichlet ∈ lobc0 ∨ Dirichlet ∈ hibc0 →
     m_is_singular st' = replicate (m_num_amr_levels st) false)
  ∧ ∀ alev,
      m_is_singular st' !! alev = Some true
      ↔ (alev < m_num_amr_levels st)%nat
        ∧ (Dirichlet ∉ lobc0) ∧ (Dirichlet ∉ hibc0)
        ∧ m_domain_covered st !! alev = Some true
        ∧ at2 (m_overset_mask st) alev 0 = Ok None
        ∧ (m_a_scalar st = 0%Qc
           ∨ ∃ coarsest, at_nat (m_a_coeffs st) alev ≫= back = Ok coarsest
               ∧ (sum coarsest ≤ norm0 coarsest * Real_of 1 (10 ^ 12))%Qc).
Proof.
  intros H Hlo Hhi. unfold detect_singular in H.
  rewrite (proj2 (at_nat_Some _ _ _) Hlo), (proj2 (at_nat_Some _ _ _) Hhi) in H.
  simpl in H.
  destruct (decide (Dirichlet ∈ lobc0 ∨ Dirichlet ∈ hibc0)) as [Hd|Hnd].
  - assert (bool_decide (Dirichlet ∉ lobc0) && bool_decide (Dirichlet ∉ hibc0)
            = false) as Hb.
    { apply andb_false_iff. destruct Hd as [Hd|Hd]; [left|right];
        by apply bool_decide_eq_false; intros Hn. }
    rewrite Hb in H. injection H as <-. simpl.
    split_and!; [by rewrite length_replicate|done|].
    intros alev. split.
    + intros Ht. apply lookup_replicate in Ht as [[=] _].
    + intros (_ & H1 & H2 & _). tauto.
  - assert ((Dirichlet ∉ lobc0) ∧ (Dirichlet ∉ hibc0)) as [Hn1 Hn2] by tauto.
    rewrite !bool_decide_eq_true_2 in H by done. simpl in H.
    apply bind_Ok in H as (flags & Hloop & H). injection H as <-. simpl.
    pose proof (singular_loop st _ _ _ (NoDup_seq _ _) Hloop) as (Hlen & Hout & _).
    rewrite length_replicate in Hlen.
    split_and!; [done|tauto|].
    intros alev. destruct (decide (alev < m_num_amr_levels st)%nat) as [Hlt|Hge].
    + destruct (singular_loop_at st _ _ _ (NoDup_seq _ _) Hloop alev)
        as (fl1 & fl2 & Hstep & H1 & ->); [apply elem_of_seq; lia|].
      rewrite lookup_replicate_2 in H1 by done.
      rewrite (singular_step_flag st alev fl1 fl2 Hstep H1). tauto.
    + split; [|tauto]. intros Ht. apply lookup_lt_Some in Ht. lia.
Qed.

Lemma singular_flag_characterisation_witness :
  ∃ st',
    detect_singular scenario_A = Ok st'
    ∧ length (m_is_singular st') = 1%nat
    ∧ (m_is_singular st' !! 0%nat = Some true
       → ∃ coarsest,
           at_nat (m_a_coeffs scenario_A) 0 ≫= back = Ok coarsest
           ∧ (sum coarsest ≤ norm0 coarsest * Real_of 1 (10 ^ 12))%Qc).
Proof.
  assert (∃ st', detect_singular scenario_A = Ok st') as [st' Hrun]
    by (eexists; reflexivity).
  exists st'. split; [exact Hrun|].
  destruct (singular_flag_characterisation scenario_A st' [Neumann] [Neumann]
              Hrun eq_refl eq_refl) as (Hlen & _ & Hflag).
  split; [exact Hlen|].
  intros Htrue. apply Hflag in Htrue as (_ & _ & _ & _ & _ & [Hz|Hsum]).
  - discriminate Hz.
  - exact Hsum.
Defined.

Lemma Rmax_ge_l (a b : Real) : (a ≤ Rmax a b)%Qc.
Proof. unfold Rmax. case_bool_decide; [done|apply Qcle_refl]. Qed.

Lemma foldl_Rmax_ge {A} (g : A → Real) (l : list A) (acc : Real) :
  (acc ≤ foldl (λ acc a, Rmax acc (g a)) acc l)%Qc.
Proof.
  revert acc. induction l as [|a l IH]; intros acc; simpl; [apply Qcle_refl|].
  eapply Qcle_trans; [apply Rmax_ge_l|apply IH].
Qed.

Lemma norm0_nonneg (mf : MultiFab) : (0 ≤ norm0 mf)%Qc.
Proof.
  unfold norm0.
  assert (∀ (l : list FArrayBox) (acc : Real),
    (acc ≤ foldl (λ acc f, foldl (λ acc c, Rmax acc (Rabs (arr f c 0%nat))) acc
                             (cells (validbox f))) acc l)%Qc) as Hge.
  { induction l as [|f l IH]; intros acc; simpl; [apply Qcle_refl|].
    eapply Qcle_trans; [|apply IH].
    apply (foldl_Rmax_ge (λ c, Rabs (arr f c 0%nat))). }
  apply Hge.
Qed.

(** X16: the comparison of lines 431 and 771 is on the signed sum: a cell
    coefficient whose sum over the coarsest relaxation level is zero or
    negative (in particular one that is zero everywhere) makes the level
    singular even though [a_scalar] is not zero. *)
Theorem nonpositive_sum_is_singular (st st' : MLABecLaplacian)
    (lobc0 hibc0 : list BCType) (alev : nat) (coarsest : MultiFab) :
  detect_singular st = Ok st' →
  m_lobc st !! 0%nat = Some lobc0 → m_hibc st !! 0%nat = Some hibc0 →
  Dirichlet ∉ lobc0 → Dirichlet ∉ hibc0 →
  (alev < m_num_amr_levels st)%nat →
  m_domain_covered st !! alev = Some true →
  at2 (m_overset_mask st) alev 0 = Ok None →
  at_nat (m_a_coeffs st) alev ≫= back = Ok coarsest →
  (sum coarsest ≤ 0)%Qc →
  m_is_singular st' !! alev = Some true.
Proof.
  intros H Hlo Hhi Hn1 Hn2 Hlt Hcov Hosm Hback Hsum.
  assert (sum coarsest ≤ norm0 coarsest * Real_of 1 (10 ^ 12))%Qc as Hle.
  { eapply Qcle_trans; [exact Hsum|].
    replace 0%Qc with (0 * Real_of 1 (10 ^ 12))%Qc by ring.
    apply Qcmult_le_compat_r; [apply norm0_nonneg|].
    apply (bool_decide_unpack _). vm_compute. exact I. }
  unfold detect_singular in H.
  rewrite (proj2 (at_nat_Some _ _ _) Hlo), (proj2 (at_nat_Some _ _ _) Hhi) in H.
  simpl in H. rewrite !bool_decide_eq_true_2 in H by done. simpl in H.
  apply bind_Ok in H as (flags & Hloop & H). injection H as <-. simpl.
  destruct (singular_loop_at st _ _ _ (NoDup_seq _ _) Hloop alev)
    as (fl1 & fl2 & Hstep & H1 & ->); [apply elem_of_seq; lia|].
  rewrite lookup_replicate_2 in H1 by done.
  apply (singular_step_flag st alev fl1 fl2 Hstep H1).
  split_and!; [done..|]. right. eauto.
Qed.

Lemma nonpositive_sum_is_singular_witness :
  ∃ st',
    detect_singular cancelling_operator = Ok st'
    ∧ (sum (line_field 2 [0%Qc; 0%Qc]) ≤ 0)%Qc
    ∧ m_a_scalar cancelling_operator ≠ 0%Qc
    ∧ m_is_singular st' !! 0%nat = Some true.
Proof.
  assert (∃ st', detect_singular cancelling_operator = Ok st') as [st' Hrun]
    by (eexists; reflexivity).
  exists st'. split; [exact Hrun|].
  assert (sum (line_field 2 [0%Qc; 0%Qc]) ≤ 0)%Qc as Hsum
    by (vm_compute; discriminate).
  split; [exact Hsum|]. split; [discriminate|].
  apply (nonpositive_sum_is_singular cancelling_operator st' [Neumann] [Neumann]
           0 (line_field 2 [0%Qc; 0%Qc]) Hrun eq_refl eq_refl).
  - apply not_elem_of_cons. split; [discriminate|apply not_elem_of_nil].
  - apply not_elem_of_cons. split; [discriminate|apply not_elem_of_nil].
  - simpl. lia.
  - reflexivity.
  - reflexivity.
  - reflexivity.
  - exact Hsum.
Defined.







(** X18: the operator and its smoother agree on the overset variant: [Fapply]
    launches the overset stencil kernel exactly when [Fsmooth] launches the
    overset relaxation kernel, namely when the level entry has an overset
    mask; without a mask [Fapply] launches the plain stencil whatever the
    coarsening is, also where [Fsmooth] switches to the line solve. *)
Theorem Fapply_Fsmooth_agree_on_overset (AMREX_SPACEDIM : nat)
    (st : MLABecLaplacian) (amrlev mglev : nat)
    (apply_kernel : ApplyKernel) (smooth_kernel : SmoothKernel) :
  Fapply_kernel AMREX_SPACEDIM st amrlev mglev = Ok apply_kernel →
  Fsmooth_kernel st amrlev mglev = Ok smooth_kernel →
  (apply_kernel = mlabeclap_adotx_os ↔ smooth_kernel = abec_gsrb_os)
  ∧ (apply_kernel = mlabeclap_adotx
     ↔ smooth_kernel = abec_gsrb ∨ smooth_kernel = abec_gsrb_with_line_solve)
  ∧ (apply_kernel = mlabeclap_adotx_os
     ↔ ∃ mask, at2 (m_overset_mask st) amrlev mglev = Ok (Some mask)).
Proof.
  unfold Fapply_kernel, Fsmooth_kernel. intros Ha Hs.
  apply bind_Ok in Ha as (acoef & _ & Ha). apply bind_Ok in Ha as (bcoef & _ & Ha).
  apply bind_Ok in Ha as ([] & _ & Ha). apply bind_Ok in Ha as (geom & _ & Ha).
  apply bind_Ok in Ha as (osm & Hosm & Ha). injection Ha as <-.
  apply bind_Ok in Hs as (regular & _ & Hs).
  apply bind_Ok in Hs as (osm' & Hosm' & Hs). injection Hs as <-.
  rewrite Hosm in Hosm'. injection Hosm' as <-. rewrite Hosm.
  destruct osm as [mask|]; simpl.
  - split_and!; split; try done; eauto. by intros [|].
  - split_and!; split; try done.
    + by destruct regular.
    + intros _. destruct regular; eauto.
    + by intros [? [=]].
Qed.

Lemma Fapply_Fsmooth_agree_on_overset_witness :
  Fapply_kernel 1 cancelling_operator 0 1 = Ok mlabeclap_adotx
  ∧ Fsmooth_kernel cancelling_operator 0 1 = Ok abec_gsrb
  ∧ (mlabeclap_adotx = mlabeclap_adotx_os ↔ abec_gsrb = abec_gsrb_os).
Proof.
  split; [reflexivity|]. split; [reflexivity|].
  exact (proj1 (Fapply_Fsmooth_agree_on_overset 1 cancelling_operator 0 1
                  mlabeclap_adotx abec_gsrb eq_refl eq_refl)).
Defined.

Section FieldSetter.
Context (AMREX_SPACEDIM : nat).

(** The component loop of lines 123-125 and 129-131 on the patches of one
    face field. *)
Lemma copy_components (src : MultiFab) (sc : nat → nat) (n : nat) (mf : MultiFab) :
  let mf' := foldl (λ mf icomp, Copy mf src (sc icomp) icomp) mf (seq 0 n) in
  nComp mf' = nComp mf
  ∧ ∀ k d s, fabs mf !! k = Some d → fabs src !! k = Some s →
      ∃ d', fabs mf' !! k = Some d' ∧ validbox d' = validbox d
        ∧ ∀ c icomp,
            arr d' c icomp
            = if bool_decide (icomp < n)%nat && contains_cell (validbox d) c
              then arr s c (sc icomp) else arr d c icomp.
Proof.
  induction n as [|n IH]; intros mf'.
  { split; [done|]. intros k d s Hd Hs. exists d. split_and!; [done..|].
    intros c icomp. by rewrite bool_decide_eq_false_2 by lia. }
  unfold mf'. rewrite seq_S, foldl_app. simpl.
  destruct IH as [Hn IH]. split; [done|].
  intros k d s Hd Hs. destruct (IH k d s Hd Hs) as (d1 & Hd1 & Hv1 & Harr).
  rewrite lookup_zip_with, Hd1. simpl. rewrite Hs. simpl.
  eexists. split; [done|]. simpl. split; [done|].
  intros c icomp. rewrite Hv1. destruct (decide (icomp = n)) as [->|Hne].
  - rewrite !bool_decide_eq_true_2 by lia. simpl.
    destruct (contains_cell (validbox d) c) eqn:Hc; [done|].
    rewrite Harr, bool_decide_eq_false_2 by lia. done.
  - rewrite (bool_decide_eq_false_2 (icomp = n)) by done. simpl.
    rewrite Harr. destruct (decide (icomp < n)%nat).
    + by rewrite !bool_decide_eq_true_2 by lia.
    + by rewrite !bool_decide_eq_false_2 by lia.
Qed.

(** The component loop as one update of the field of direction [idim]. *)
Lemma copy_loop (beta : list MultiFab) (sc : nat → nat)
    (idim : nat) (n : nat) (b b' : list MultiFab) :
  foldM (λ icomp b, modify_at b idim (λ mf,
           src ← at_nat beta idim; Ok (Copy mf src (sc icomp) icomp)))
    (seq 0 n) b = Ok b' →
  (0 < n)%nat →
  ∃ mf src, b !! idim = Some mf ∧ beta !! idim = Some src
    ∧ b' = <[idim := foldl (λ mf icomp, Copy mf src (sc icomp) icomp) mf (seq 0 n)]> b.
Proof.
  revert b'. induction n as [|n IH]; intros b' H Hn; [lia|].
  rewrite seq_S, foldM_snoc in H. simpl in H.
  apply bind_Ok in H as (b1 & H1 & H).
  apply modify_at_Ok in H as (mf1 & mf1' & Hmf1 & Hcopy & ->).
  apply bind_Ok in Hcopy as (src & Hsrc & Hcopy). injection Hcopy as <-.
  apply at_nat_Some in Hsrc.
  destruct (decide (n = 0)%nat) as [->|Hpos].
  - simpl in H1. injection H1 as <-. exists mf1, src. by split_and!.
  - destruct (IH _ H1 ltac:(lia)) as (mf & src' & Hmf & Hsrc' & ->).
    rewrite Hsrc in Hsrc'. injection Hsrc' as <-.
    rewrite list_lookup_insert_eq in Hmf1 by (by eapply lookup_lt_Some).
    injection Hmf1 as <-.
    exists mf, src. split_and!; [done..|].
    by rewrite list_insert_insert_eq, seq_S, foldl_app.
Qed.

(** The direction loop around it. *)
Lemma copy_directions (beta : list MultiFab) (ncomp : nat) (sc : nat → nat)
    (n : nat) (b b' : list MultiFab) :
  (0 < ncomp)%nat →
  foldM (λ idim b,
      foldM (λ icomp b, modify_at b idim (λ mf,
               src ← at_nat beta idim; Ok (Copy mf src (sc icomp) icomp)))
        (seq 0 ncomp) b) (seq 0 n) b = Ok b' →
  length b' = length b
  ∧ ∀ idim, (idim < n)%nat →
      ∃ mf src, b !! idim = Some mf ∧ beta !! idim = Some src
        ∧ b' !! idim
          = Some (foldl (λ mf icomp, Copy mf src (sc icomp) icomp) mf (seq 0 ncomp)).
Proof.
  intros Hncomp. revert b'. induction n as [|n IH]; intros b' H.
  { simpl in H. injection H as <-. split; [done|]. intros; lia. }
  rewrite seq_S, foldM_snoc in H. simpl in H.
  apply bind_Ok in H as (b1 & H1 & H). destruct (IH _ H1) as [Hlen Hdone].
  apply copy_loop in H as (mf & src & Hmf & Hsrc & ->); [|done].
  split; [by rewrite length_insert|].
  intros idim Hidim. destruct (decide (idim = n)) as [->|Hne].
  - rewrite list_lookup_insert_eq by (by eapply lookup_lt_Some).
    exists mf, src. split_and!; [|done..].
    apply lookup_lt_Some in Hmf as Hlt.
    destruct (lookup_lt_is_Some_2 b n) as [mf0 Hmf0]; [lia|].
    assert (b1 !! n = b !! n) as Heq; [|congruence].
    clear -H1. revert H1. generalize b1. clear b1.
    assert (∀ m b1, (m ≤ n)%nat →
      foldM (λ idim b,
          foldM (λ icomp b, modify_at b idim (λ mf,
                   src ← at_nat beta idim; Ok (Copy mf src (sc icomp) icomp)))
            (seq 0 ncomp) b) (seq 0 m) b = Ok b1 → b1 !! n = b !! n) as Hframe.
    { induction m as [|m IHm]; intros b1 Hm Hrun.
      { simpl in Hrun. by injection Hrun as <-. }
      rewrite seq_S, foldM_snoc in Hrun. simpl in Hrun.
      apply bind_Ok in Hrun as (b2 & Hrun & Hlast).
      rewrite <- (IHm b2) by (lia || done).
      clear -Hlast Hm. revert b2 b1 Hlast.
      induction (seq 0 ncomp) as [|ic l IHl]; intros b2 b1 Hlast; simpl in Hlast.
      { by injection Hlast as <-. }
      apply bind_Ok in Hlast as (b3 & Hstep & Hlast).
      rewrite (IHl _ _ Hlast).
      apply modify_at_Ok in Hstep as (? & ? & _ & _ & ->).
      apply list_lookup_insert_ne. lia. }
    intros b1. by apply Hframe.
  - rewrite list_lookup_insert_ne by done. apply Hdone. lia.
Qed.

End FieldSetter.

(** X19: [setBCoeffs] from fields: in every direction, every component below
    [ncomp] of the stored face coefficient holds, on the valid cells of each
    patch, the input's component of the same index when the first input
    field has [ncomp] components, and the input's component 0, broadcast,
    otherwise; the cells outside the valid box and the components from
    [ncomp] on keep their values.  The call is refused unless the first
    input field has 1 or [ncomp] components. *)
Theorem setBCoeffs_broadcasts (AMREX_SPACEDIM : nat) (st st' : MLABecLaplacian)
    (amrlev : nat) (beta : list MultiFab) :
  (0 < m_ncomp st)%nat →
  setBCoeffs AMREX_SPACEDIM st amrlev beta = Ok st' →
  ∃ beta0 lvl b b',
    beta !! 0%nat = Some beta0
    ∧ (nComp beta0 = 1%nat ∨ nComp beta0 = m_ncomp st)
    ∧ m_b_coeffs st !! amrlev = Some lvl ∧ lvl !! 0%nat = Some b
    ∧ m_b_coeffs st' = <[amrlev := <[0%nat := b']> lvl]> (m_b_coeffs st)
    ∧ length b' = length b
    ∧ ∀ idim, (idim < AMREX_SPACEDIM)%nat →
        ∃ mf src mf', b !! idim = Some mf ∧ beta !! idim = Some src
          ∧ b' !! idim = Some mf' ∧ nComp mf' = nComp mf
          ∧ ∀ k d s, fabs mf !! k = Some d → fabs src !! k = Some s →
              ∃ d', fabs mf' !! k = Some d' ∧ validbox d' = validbox d
                ∧ ∀ c icomp,
                    arr d' c icomp
                    = if bool_decide (icomp < m_ncomp st)%nat
                         && contains_cell (validbox d) c
                      then arr s c (beta_component (m_ncomp st) beta0 icomp)
                      else arr d c icomp.
Proof.
  intros Hncomp H. unfold setBCoeffs in H.
  apply bind_Ok in H as (beta0 & Hb0 & H). apply at_nat_Some in Hb0.
  apply bind_Ok in H as ([] & Hassert & H).
  apply bind_Ok in H as (coeffs & Hmod & H). injection H as <-.
  apply modify_at_Ok in Hmod as (lvl & lvl' & Hlvl & Hmod & ->).
  apply modify_at_Ok in Hmod as (b & b' & Hb & Hfold & ->).
  exists beta0, lvl, b, b'.
  assert (nComp beta0 = 1%nat ∨ nComp beta0 = m_ncomp st) as Hcomp.
  { unfold always_assert in Hassert.
    destruct (bool_decide (nComp beta0 = 1%nat)) eqn:H1;
      [left; by apply bool_decide_eq_true in H1|].
    destruct (bool_decide (nComp beta0 = m_ncomp st)) eqn:H2;
      [right; by apply bool_decide_eq_true in H2|done]. }
  assert (foldM (λ idim b,
      foldM (λ icomp b, modify_at b idim (λ mf,
               src ← at_nat beta idim;
               Ok (Copy mf src (beta_component (m_ncomp st) beta0 icomp) icomp)))
        (seq 0 (m_ncomp st)) b) (seq 0 AMREX_SPACEDIM) b = Ok b') as Hfold'.
  { rewrite <- Hfold. apply foldM_ext. intros idim b0 _.
    apply foldM_ext. intros icomp b1 _. f_equal.
    apply functional_extensionality. intros mf. f_equal.
    apply functional_extensionality. intros src. unfold beta_component.
    by case_bool_decide. }
  apply copy_directions in Hfold' as [Hlen Hdirs]; [|done].
  simpl. split_and!; [done..|].
  intros idim Hidim. destruct (Hdirs idim Hidim) as (mf & src & Hmf & Hsrc & Hmf').
  pose proof (copy_components src (beta_component (m_ncomp st) beta0)
                (m_ncomp st) mf) as [Hn Hfabs].
  eexists mf, src, _. split_and!; [done..|].
  exact Hfabs.
Qed.

Lemma setBCoeffs_broadcasts_witness :
  ∃ st' lvl b b',
    setBCoeffs 1 two_component_operator 0
      [line_field 5 (replicate 5 (Real_of 7 1))] = Ok st'
    ∧ m_b_coeffs two_component_operator !! 0%nat = Some lvl
    ∧ lvl !! 0%nat = Some b
    ∧ m_b_coeffs st' = <[0%nat := <[0%nat := b']> lvl]> (m_b_coeffs two_component_operator)
    ∧ length b' = length b.
Proof.
  assert (∃ st', setBCoeffs 1 two_component_operator 0
                   [line_field 5 (replicate 5 (Real_of 7 1))] = Ok st')
    as [st' Hrun] by (eexists; reflexivity).
  destruct (setBCoeffs_broadcasts 1 two_component_operator st' 0
              [line_field 5 (replicate 5 (Real_of 7 1))])
    as (beta0 & lvl & b & b' & _ & _ & Hlvl & Hb & Hst' & Hlen & _);
    [simpl; lia|exact Hrun|].
  exists st', lvl, b, b'. by split_and!.
Defined.


(** An invariant of the accumulator survives a monadic fold whose steps keep
    it. *)
Lemma foldM_preserves {A B} (P : B → Prop) (f : A → B → Result B)
    (l : list A) (b b' : B) :
  P b → (∀ x b b', x ∈ l → P b → f x b = Ok b' → P b') →
  foldM f l b = Ok b' → P b'.
Proof.
  revert b. induction l as [|x l IH]; intros b Hb Hstep H; simpl in H.
  { by injection H as <-. }
  apply bind_Ok in H as (b1 & H1 & H).
  apply (IH b1); [|intros; eapply Hstep; [by right|done..]|done].
  eapply Hstep; [by left|done..].
Qed.

(** One sweep of [robin_fold_cell] over a row of boundary cells writes the
    cells it is aimed at and no other. *)
Lemma robin_sweep_reach (Q : Dim3 → nat → Prop) (base : Dim3 → nat → Real)
    (d fac : Real) (rbc bfab : Dim3 → nat → Real) (icomp : nat)
    (ac fc : Dim3 → Dim3) (l : list Dim3) (afab : Dim3 → nat → Real) :
  (∀ bc, bc ∈ l → Q (ac bc) icomp) →
  (∀ c n, afab c n = base c n ∨ Q c n) →
  ∀ c n,
    foldl (λ afab c, robin_fold_cell d fac rbc bfab icomp c (ac c) (fc c) afab)
      afab l c n = base c n ∨ Q c n.
Proof.
  revert afab. induction l as [|bc l IH]; intros afab Hl Hinv; [done|].
  simpl. apply IH; [intros; apply Hl; by right|].
  intros c n. unfold robin_fold_cell, upd4.
  case_bool_decide as Heq; [|apply Hinv].
  destruct Heq as [-> ->]. right. apply Hl. by left.
Qed.

(** X20: the Robin folding leaves the valid box of a patch alone and writes only
    components of cells that sit just inside the valid box across a face that
    reaches out of the domain and carries a Robin condition for the component:
    the interior of the patch, the faces inside the domain and the faces with
    another boundary type are never touched. *)
Theorem robin_reach (AMREX_SPACEDIM : nat) (st : MLABecLaplacian) (amrlev : nat)
    (domain : Box) (dxi dyi dzi bovera : Real) (mfi : nat) (a a' : FArrayBox) :
  applyRobinBCTermsCoeffs_fab AMREX_SPACEDIM st amrlev domain dxi dyi dzi bovera
    mfi a = Ok a' →
  validbox a' = validbox a
  ∧ ∀ c n, arr a' c n ≠ arr a c n →
      robin_target AMREX_SPACEDIM st domain (validbox a) c n.
Proof.
  unfold applyRobinBCTermsCoeffs_fab. intros H.
  apply bind_Ok in H as (afab & Hfold & H). injection H as <-. simpl.
  split; [done|].
  set (P := λ afab : Dim3 → nat → Real,
         ∀ c n, afab c n = arr a c n
                ∨ robin_target AMREX_SPACEDIM st domain (validbox a) c n).
  assert (P afab) as Hinv.
  { refine (foldM_preserves P _ _ _ _ _ _ Hfold); [by left|].
    intros idim afab0 afab1 Hidim Hinv Hstep.
    apply elem_of_seq in Hidim.
    apply bind_Ok in Hstep as (bmf & _ & Hstep).
    apply bind_Ok in Hstep as (bdim & _ & Hstep).
    apply bind_Ok in Hstep as (bfab & _ & Hstep).
    destruct (contains domain (adjCellLo (validbox a) idim)) eqn:Hlo;
      destruct (contains domain (adjCellHi (validbox a) idim)) eqn:Hhi;
      simpl in Hstep.
    { by injection Hstep as <-. }
    all: refine (foldM_preserves P _ _ _ _ Hinv _ Hstep).
    all: intros icomp afab2 afab3 Hicomp Hinv2 Hrun.
    all: apply elem_of_seq in Hicomp.
    all: apply bind_Ok in Hrun as (robin & _ & Hrun).
    all: apply bind_Ok in Hrun as (rmf & _ & Hrun).
    all: apply bind_Ok in Hrun as (rfab & _ & Hrun).
    all: apply bind_Ok in Hrun as (lo & Hlobc & Hrun).
    all: apply bind_Ok in Hrun as (hi & Hhibc & Hrun).
    all: injection Hrun as <-.
    all: rewrite ?andb_false_r, ?andb_true_r.
    all: repeat case_bool_decide; subst; try done.
    all: unfold P; repeat (apply robin_sweep_reach; [|try done]).
    all: intros bc Hbc; split; [lia|]; exists idim; split; [lia|].
    all: try (left; split_and!; [done..|]; by exists bc).
    all: right; split_and!; [done..|]; by exists bc. }
  intros c n Hne. by destruct (Hinv c n).
Qed.

Lemma robin_reach_witness :
  ∃ a',
    applyRobinBCTermsCoeffs_fab 1 scenario_A 0 (Domain (unit_geometry 8))
      (Real_of 8 1) 1%Qc 1%Qc 1%Qc 0
      {| validbox := MkBox (0, 0, 0) (7, 0, 0); arr := λ _ _, 1%Qc |} = Ok a'
    ∧ validbox a' = MkBox (0, 0, 0) (7, 0, 0)
    ∧ ∀ c n, arr a' c n ≠ 1%Qc →
        robin_target 1 scenario_A (Domain (unit_geometry 8))
          (MkBox (0, 0, 0) (7, 0, 0)) c n.
Proof.
  assert (∃ a',
    applyRobinBCTermsCoeffs_fab 1 scenario_A 0 (Domain (unit_geometry 8))
      (Real_of 8 1) 1%Qc 1%Qc 1%Qc 0
      {| validbox := MkBox (0, 0, 0) (7, 0, 0); arr := λ _ _, 1%Qc |} = Ok a')
    as [a' Hrun] by (eexists; reflexivity).
  exists a'. split; [exact Hrun|].
  exact (robin_reach _ _ _ _ _ _ _ _ _ _ _ Hrun).
Defined.

End CoefficientFacts.
